(** * PersistentMap (src/compiler/persistent-map.h)

    A shallow embedding of V8's persistent hash-tree map, of its iterator
    and of its double iterator, with the zone (arena) made explicit.

    - A [FocusedTree] pointer is an address into the zone ([None] is
      [nullptr]); the zone is the list of the nodes allocated so far, and
      an allocation appends to it.  Nodes are never written after they
      have been constructed, exactly as in the source.
    - Reading outside of a [std::array], a bit position outside of the
      [std::bitset], or through a dangling or null pointer is undefined
      behaviour in the source; here these reads make the operation return
      [None].
    - [int] levels range over [0..32] and are natural numbers; the
      [int8_t length] field is an integer produced by an explicit cast.
    - The loops that walk down the hash bits are written by recursion on
      the number of levels left below [kHashBits]; running out of levels
      is the out-of-range access of the source.  The [do ... while] of
      [operator++] and the [for] loops over an iterator take a bound on
      their turns; the theorems say that every large enough bound gives
      the same result.

    The file has three parts: the model, the vocabulary of the
    specification (invariants, the leaves of a tree, what an iterator
    produces), and the proofs, which end with the properties of [Get],
    [Add], the iterators and [operator==]. *)

From stdpp Require Import base decidable option list numbers sorting strings.
From Stdlib Require Import ZArith Lia.

Local Open Scope Z_scope.

(** ** HashValue *)

Inductive Bit : Type := kLeft | kRight.

#[global] Instance Bit_eq_dec : EqDecision Bit.
Proof. solve_decision. Defined.

Definition kHashBits : Z := 32.

(** [explicit HashValue(size_t hash) : bits_(hash)]: a [std::bitset<32>]
    keeps the low 32 bits of the [size_t]. *)
Definition HashValue (hash : Z) : Z := Z.land hash (Z.ones kHashBits).

(** [Bit operator[](int pos)]: bits are read from the high end. *)
Definition hash_bit (bits_ : Z) (pos : nat) : Bit :=
  if Z.testbit bits_ (kHashBits - Z.of_nat pos - 1) then kRight else kLeft.

Definition hash_lt (a b : Z) : bool := a <? b.
Definition hash_eq (a b : Z) : bool := a =? b.
Definition hash_xor (a b : Z) : Z := Z.lxor a b.

(** [static_cast<int8_t>(length)] *)
Definition to_int8 (z : Z) : Z := (z + 128) mod 256 - 128.

(** A pointer to a [FocusedTree]: an address in the zone, or [nullptr]. *)
Abbreviation ptr := (option nat).

Section PersistentMap.

Context {Key Value : Type}.
Context `{!EqDecision Key, !EqDecision Value}.

(** [Hasher()(key)], a [size_t]. *)
Variable Hasher : Key → Z.
(** [std::less<Key>], the order of [ZoneMap<Key, Value>] and the
    [operator<] of keys used by the iterators. *)
Variable key_less : Key → Key → bool.

(** ** ZoneMap<Key, Value>: an ordered map, kept as the list of its
    entries in increasing key order. *)

Abbreviation ZoneMap := (list (Key * Value)).

(** [map.find(key)], the [it->second] of the result ([None] is [end()]). *)
Fixpoint zm_find (key : Key) (m : ZoneMap) : option Value :=
  match m with
  | [] => None
  | (k, v) :: m' =>
      if key_less key k then None
      else if key_less k key then zm_find key m'
      else Some v
  end.

(** [map[key] = value] *)
Fixpoint zm_set (key : Key) (value : Value) (m : ZoneMap) : ZoneMap :=
  match m with
  | [] => [(key, value)]
  | (k, v) :: m' =>
      if key_less key k then (key, value) :: (k, v) :: m'
      else if key_less k key then (k, v) :: zm_set key value m'
      else (k, value) :: m'
  end.

(** ** FocusedTree *)

Record FocusedTree : Type := mkFocusedTree {
  key_value : Key * Value;
  length : Z;
  key_hash : Z;
  more : option ZoneMap;
  path_array : list ptr;
}.

(** The zone: the nodes allocated so far, by address. *)
Abbreviation Zone := (list FocusedTree).

(** [tree->path(i)] *)
Definition path (t : FocusedTree) (i : nat) : option ptr :=
  path_array t !! i.

(** The map handle; the zone pointer is the zone that is passed along. *)
Record PersistentMap : Type := mkPersistentMap {
  tree_ : ptr;
  def_value_ : Value;
}.

(** [explicit PersistentMap(Zone* zone, Value def_value)] *)
Definition empty_map (def_value : Value) : PersistentMap :=
  {| tree_ := None; def_value_ := def_value |}.

(** [last_depth] *)
Definition last_depth (zone : Zone) (m : PersistentMap) : option Z :=
  match tree_ m with
  | Some a => t ← zone !! a; Some (length t)
  | None => Some 0
  end.

(** ** FindHash *)

(** [while ((hash ^ tree->key_hash)[level] == 0) ++level;] for the
    levels below [kHashBits]; [n] is the number of levels left, and at
    level [kHashBits] the bit read is out of range. *)
Fixpoint skip_common (n : nat) (x : Z) (level : nat) : option nat :=
  match n with
  | O => None
  | S n' =>
      if decide (hash_bit x level = kLeft) then skip_common n' x (S level)
      else Some level
  end.

Definition first_diff (x : Z) (level : nat) : option nat :=
  skip_common (Z.to_nat kHashBits - level) x level.

(** [level < tree->length ? tree->path(level) : nullptr] *)
Definition path_or_null (t : FocusedTree) (level : nat) : option ptr :=
  if Z.of_nat level <? length t then path t level else Some None.

(** The loop of [FindHash(HashValue hash)], from the state
    [(tree, level)].  Every turn of the loop moves at least one level
    down, so [n] turns are enough when [n + level] is at least 33. *)
Fixpoint FindHash_loop (n : nat) (zone : Zone) (hash : Z) (tree : ptr)
    (level : nat) : option ptr :=
  match tree with
  | None => Some None
  | Some a =>
      t ← zone !! a;
      if hash_eq hash (key_hash t) then Some (Some a)
      else
        match n with
        | O => None
        | S n' =>
            level' ← first_diff (hash_xor hash (key_hash t)) level;
            next ← path_or_null t level';
            FindHash_loop n' zone hash next (S level')
        end
  end.

Definition FindHash (zone : Zone) (m : PersistentMap) (hash : Z)
    : option ptr :=
  FindHash_loop 33 zone hash (tree_ m) 0.

(** The inner loop of the path-recording [FindHash]: like [skip_common],
    and [path[level]] is written at every level passed. *)
Fixpoint record_common (n : nat) (t : FocusedTree) (x : Z) (level : nat)
    (path_out : list ptr) : option (nat * list ptr) :=
  match n with
  | O => None
  | S n' =>
      if decide (hash_bit x level = kLeft) then
        p ← path_or_null t level;
        record_common n' t x (S level) (<[level := p]> path_out)
      else Some (level, path_out)
  end.

(** [while (level < tree->length) { path[level] = tree->path(level);
    ++level; }]; a write at level [kHashBits] is outside of the array. *)
Fixpoint record_rest (n : nat) (t : FocusedTree) (level : nat)
    (path_out : list ptr) : option (nat * list ptr) :=
  if Z.of_nat level <? length t then
    match n with
    | O => None
    | S n' =>
        p ← path t level;
        record_rest n' t (S level) (<[level := p]> path_out)
    end
  else Some (level, path_out).

(** [FindHash(HashValue hash, std::array<...>* path, int* length)]; the
    result is the tree found, the path array and the length. *)
Fixpoint FindHash_path_loop (n : nat) (zone : Zone) (hash : Z) (tree : ptr)
    (level : nat) (path_out : list ptr) : option (ptr * list ptr * nat) :=
  match tree with
  | None => Some (None, path_out, level)
  | Some a =>
      t ← zone !! a;
      if hash_eq hash (key_hash t) then
        '(level', path_out') ←
          record_rest (Z.to_nat kHashBits - level) t level path_out;
        Some (Some a, path_out', level')
      else
        match n with
        | O => None
        | S n' =>
            '(level', path_out') ←
              record_common (Z.to_nat kHashBits - level) t
                (hash_xor hash (key_hash t)) level path_out;
            next ← path_or_null t level';
            FindHash_path_loop n' zone hash next (S level')
              (<[level' := Some a]> path_out')
        end
  end.

(** The local [std::array<const FocusedTree*, kHashBits> path] of [Add]
    starts out unwritten; [garbage] is what it holds then. *)
Definition FindHash_path (zone : Zone) (m : PersistentMap) (hash : Z)
    (garbage : list ptr) : option (ptr * list ptr * nat) :=
  FindHash_path_loop 33 zone hash (tree_ m) 0 garbage.

(** ** GetFocusedValue, Get *)

Definition focused_value (def_value : Value) (t : FocusedTree) (key : Key)
    : Value :=
  match more t with
  | Some bucket =>
      match zm_find key bucket with
      | None => def_value
      | Some v => v
      end
  | None =>
      if decide (key = (key_value t).1) then (key_value t).2 else def_value
  end.

Definition GetFocusedValue (zone : Zone) (m : PersistentMap) (tree : ptr)
    (key : Key) : option Value :=
  match tree with
  | None => Some (def_value_ m)
  | Some a => t ← zone !! a; Some (focused_value (def_value_ m) t key)
  end.

Definition Get (zone : Zone) (m : PersistentMap) (key : Key)
    : option Value :=
  let key_hash := HashValue (Hasher key) in
  tree ← FindHash zone m key_hash;
  GetFocusedValue zone m tree key.

(** ** Add *)

(** The collision bucket of the new node. *)
Definition new_more (zone : Zone) (old : ptr) (key : Key) (value : Value)
    : option (option ZoneMap) :=
  match old with
  | None => Some None
  | Some a =>
      t ← zone !! a;
      if bool_decide (more t = None ∧ (key_value t).1 = key) then Some None
      else
        let copy :=
          match more t with
          | Some bucket => bucket
          | None => zm_set (key_value t).1 (key_value t).2 []
          end in
        Some (Some (zm_set key value copy))
  end.

(** An unwritten [std::array<const FocusedTree*, kHashBits>]. *)
Definition unwritten_path : list ptr := replicate (Z.to_nat kHashBits) None.

(** [Add(key, value)]: the zone after the call and the map returned. *)
Definition Add (zone : Zone) (m : PersistentMap) (key : Key) (value : Value)
    : option (Zone * PersistentMap) :=
  let key_hash := HashValue (Hasher key) in
  '(old, path, len) ← FindHash_path zone m key_hash unwritten_path;
  cur ← GetFocusedValue zone m old key;
  if decide (cur = value) then Some (zone, m)
  else
    more ← new_more zone old key value;
    let tree :=
      {| key_value := (key, value);
         length := to_int8 (Z.of_nat len);
         key_hash := key_hash;
         more := more;
         path_array := take len path |} in
    Some (zone ++ [tree],
          {| tree_ := Some (List.length zone); def_value_ := def_value_ m |}).

(** [Set(key, value)] assigns the result of [Add] to the handle. *)
Definition Set_ (zone : Zone) (m : PersistentMap) (key : Key) (value : Value)
    : option (Zone * PersistentMap) :=
  Add zone m key value.

(** ** iterator *)

Record iterator : Type := mkIterator {
  level_ : nat;
  more_iter_ : nat;
  current_ : ptr;
  path_ : list ptr;
  it_def_value_ : Value;
}.

(** [explicit iterator(Value def_value)]; [path_] and [more_iter_] are
    left unwritten. *)
Definition iterator_end (def_value : Value) : iterator :=
  {| level_ := 0; more_iter_ := 0; current_ := None;
     path_ := unwritten_path; it_def_value_ := def_value |}.

Definition is_end (it : iterator) : bool :=
  bool_decide (current_ it = None).

(** [operator*]; [more_iter_] is a position in the bucket of the current
    node. *)
Definition deref (zone : Zone) (it : iterator) : option (Key * Value) :=
  a ← current_ it;
  t ← zone !! a;
  match more t with
  | Some bucket => bucket !! more_iter_ it
  | None => Some (key_value t)
  end.

Definition GetChild (zone : Zone) (tree : nat) (level : nat) (bit : Bit)
    : option ptr :=
  t ← zone !! tree;
  if decide (hash_bit (key_hash t) level = bit) then Some (Some tree)
  else if Z.of_nat level <? length t then path t level
  else Some None.

(** [FindLeftmost(start, &level, &path)]: the leaf, the level and the
    path array.  [n] is the number of levels left below [kHashBits]; a
    write to [path[kHashBits]] is outside of the array. *)
Fixpoint FindLeftmost (n : nat) (zone : Zone) (start : ptr) (level : nat)
    (path_out : list ptr) : option (nat * nat * list ptr) :=
  current ← start;
  t ← zone !! current;
  if Z.of_nat level <? length t then
    match n with
    | O => None
    | S n' =>
        l ← GetChild zone current level kLeft;
        r ← GetChild zone current level kRight;
        match l, r with
        | Some child, _ =>
            FindLeftmost n' zone (Some child) (S level)
              (<[level := r]> path_out)
        | None, Some child =>
            FindLeftmost n' zone (Some child) (S level)
              (<[level := l]> path_out)
        | None, None => None
        end
    end
  else Some (current, level, path_out).

(** [iterator::begin(tree, def_value)] *)
Definition iterator_begin (zone : Zone) (tree : ptr) (def_value : Value)
    : option iterator :=
  '(current, level, path_out) ←
    FindLeftmost (Z.to_nat kHashBits) zone tree 0 unwritten_path;
  t ← zone !! current;
  Some {| level_ := level; more_iter_ := 0; current_ := Some current;
          path_ := path_out; it_def_value_ := def_value |}.

(** [while (current_->key_hash[level_] == kRight ||
           path_[level_] == nullptr) { if (level_ == 0) end; --level_; }]:
    [Some None] when the iterator becomes [end], the level found
    otherwise. *)
Fixpoint pop_levels (hash : Z) (path_in : list ptr) (level : nat)
    : option (option nat) :=
  let skip :=
    match level with
    | O => Some None
    | S level' => pop_levels hash path_in level'
    end in
  if decide (hash_bit hash level = kRight) then skip
  else
    p ← path_in !! level;
    match p with
    | None => skip
    | Some _ => Some (Some level)
    end.

(** [operator++]; [n] bounds the turns of the [do ... while] loop. *)
Fixpoint incr (n : nat) (zone : Zone) (it : iterator) : option iterator :=
  match n with
  | O => None
  | S n' =>
      match current_ it with
      | None => Some it
      | Some a =>
          t ← zone !! a;
          in_bucket ←
            match more t with
            | Some bucket =>
                if bool_decide (more_iter_ it < List.length bucket)%nat
                then Some (bool_decide
                             (S (more_iter_ it) ≠ List.length bucket))
                else None
            | None => Some false
            end;
          let more_iter :=
            match more t with
            | Some _ => S (more_iter_ it)
            | None => more_iter_ it
            end in
          if in_bucket : bool then
            Some {| level_ := level_ it; more_iter_ := more_iter;
                    current_ := current_ it; path_ := path_ it;
                    it_def_value_ := it_def_value_ it |}
          else
            match level_ it with
            | O => Some (iterator_end (it_def_value_ it))
            | S level =>
                found ← pop_levels (key_hash t) (path_ it) level;
                match found with
                | None => Some (iterator_end (it_def_value_ it))
                | Some level' =>
                    first_right_alternative ← path_ it !! level';
                    '(current, level'', path_out) ←
                      FindLeftmost (Z.to_nat kHashBits - S level') zone
                        first_right_alternative (S level') (path_ it);
                    t' ← zone !! current;
                    let it' :=
                      {| level_ := level'';
                         more_iter_ :=
                           match more t' with
                           | Some _ => 0%nat
                           | None => more_iter
                           end;
                         current_ := Some current;
                         path_ := path_out;
                         it_def_value_ := it_def_value_ it |} in
                    kv ← deref zone it';
                    if decide (kv.2 = it_def_value_ it) then incr n' zone it'
                    else Some it'
                end
            end
      end
  end.

(** [iterator::operator==] *)
Definition iterator_eq (zone : Zone) (a b : iterator) : option bool :=
  if is_end a then Some (is_end b)
  else if is_end b then Some false
  else
    ca ← current_ a; ta ← zone !! ca;
    cb ← current_ b; tb ← zone !! cb;
    if negb (hash_eq (key_hash ta) (key_hash tb)) then Some false
    else
      ka ← deref zone a; kb ← deref zone b;
      Some (bool_decide (ka.1 = kb.1)).

(** [iterator::operator<] *)
Definition iterator_lt (zone : Zone) (a b : iterator) : option bool :=
  if is_end a then Some false
  else if is_end b then Some true
  else
    ca ← current_ a; ta ← zone !! ca;
    cb ← current_ b; tb ← zone !! cb;
    if hash_lt (key_hash ta) (key_hash tb) then Some true
    else if hash_eq (key_hash ta) (key_hash tb) then
      ka ← deref zone a; kb ← deref zone b;
      Some (key_less ka.1 kb.1)
    else Some false.

(** [PersistentMap::begin], [PersistentMap::end] *)
Definition begin (zone : Zone) (m : PersistentMap) : option iterator :=
  match tree_ m with
  | None => Some (iterator_end (def_value_ m))
  | Some _ => iterator_begin zone (tree_ m) (def_value_ m)
  end.

Definition end_ (m : PersistentMap) : iterator :=
  iterator_end (def_value_ m).

(** [for (auto pair : map)]: the pairs produced from [it] on; [n] bounds
    the number of steps. *)
Fixpoint collect (n : nat) (zone : Zone) (it last : iterator)
    : option (list (Key * Value)) :=
  same ← iterator_eq zone it last;
  if same : bool then Some []
  else
    match n with
    | O => None
    | S n' =>
        kv ← deref zone it;
        it' ← incr n zone it;
        rest ← collect n' zone it' last;
        Some (kv :: rest)
    end.

Definition elements (n : nat) (zone : Zone) (m : PersistentMap)
    : option (list (Key * Value)) :=
  it ← begin zone m;
  collect n zone it (end_ m).

(** ** double_iterator *)

Record double_iterator : Type := mkDoubleIterator {
  first_ : iterator;
  second_ : iterator;
  first_current_ : bool;
  second_current_ : bool;
}.

(** [double_iterator(iterator first, iterator second)] *)
Definition double_iterator_new (zone : Zone) (first second : iterator)
    : option double_iterator :=
  same ← iterator_eq zone first second;
  if same : bool then
    Some {| first_ := first; second_ := second;
            first_current_ := true; second_current_ := true |}
  else
    less ← iterator_lt zone first second;
    if less : bool then
      Some {| first_ := first; second_ := second;
              first_current_ := true; second_current_ := false |}
    else
      Some {| first_ := first; second_ := second;
              first_current_ := false; second_current_ := true |}.

(** [double_iterator::operator*] *)
Definition double_deref (zone : Zone) (d : double_iterator)
    : option (Key * Value * Value) :=
  if first_current_ d then
    pair ← deref zone (first_ d);
    other ←
      (if second_current_ d then
         pair2 ← deref zone (second_ d); Some pair2.2
       else Some (it_def_value_ (second_ d)));
    Some (pair.1, pair.2, other)
  else
    pair ← deref zone (second_ d);
    Some (pair.1, it_def_value_ (first_ d), pair.2).

(** [double_iterator::operator++] *)
Definition double_incr (n : nat) (zone : Zone) (d : double_iterator)
    : option double_iterator :=
  first ← (if first_current_ d then incr n zone (first_ d)
           else Some (first_ d));
  second ← (if second_current_ d then incr n zone (second_ d)
            else Some (second_ d));
  double_iterator_new zone first second.

(** [double_iterator::operator!=] *)
Definition double_ne (zone : Zone) (d other : double_iterator)
    : option bool :=
  same1 ← iterator_eq zone (first_ d) (first_ other);
  if negb same1 then Some true
  else
    same2 ← iterator_eq zone (second_ d) (second_ other);
    Some (negb same2).

(** [ZipIterable::begin], [ZipIterable::end] *)
Definition Zip_begin (zone : Zone) (a b : PersistentMap)
    : option double_iterator :=
  ia ← begin zone a; ib ← begin zone b;
  double_iterator_new zone ia ib.

Definition Zip_end (zone : Zone) (a b : PersistentMap)
    : option double_iterator :=
  double_iterator_new zone (end_ a) (end_ b).

(** [for (triple : Zip(other))]: the triples produced from [d] on. *)
Fixpoint zip_collect (n : nat) (zone : Zone) (d last : double_iterator)
    : option (list (Key * Value * Value)) :=
  going ← double_ne zone d last;
  if going : bool then
    match n with
    | O => None
    | S n' =>
        triple ← double_deref zone d;
        d' ← double_incr n zone d;
        rest ← zip_collect n' zone d' last;
        Some (triple :: rest)
    end
  else Some [].

Definition zip_elements (n : nat) (zone : Zone) (a b : PersistentMap)
    : option (list (Key * Value * Value)) :=
  d ← Zip_begin zone a b;
  last ← Zip_end zone a b;
  zip_collect n zone d last.

(** The loop of [operator==]: [false] at the first triple whose values
    differ. *)
Fixpoint zip_all_equal (n : nat) (zone : Zone) (d last : double_iterator)
    : option bool :=
  going ← double_ne zone d last;
  if going : bool then
    match n with
    | O => None
    | S n' =>
        triple ← double_deref zone d;
        if decide (triple.1.2 ≠ triple.2) then Some false
        else
          d' ← double_incr n zone d;
          zip_all_equal n' zone d' last
    end
  else Some true.

(** [PersistentMap::operator==] *)
Definition map_equal (n : nat) (zone : Zone) (a b : PersistentMap)
    : option bool :=
  if decide (tree_ a = tree_ b) then Some true
  else if decide (def_value_ a ≠ def_value_ b) then Some false
  else
    d ← Zip_begin zone a b;
    last ← Zip_end zone a b;
    zip_all_equal n zone d last.


(** ** operator!=, double_iterator::is_end *)

(** [PersistentMap::operator!=] *)
Definition map_not_equal (n : nat) (zone : Zone) (a b : PersistentMap)
    : option bool :=
  same ← map_equal n zone a b;
  Some (negb same).

(** [double_iterator::is_end] *)
Definition double_is_end (d : double_iterator) : bool :=
  is_end (first_ d) && is_end (second_ d).

(** ** operator<< *)

(** The loop of [operator<<] over the pairs of the map. [os] is the text
    that the stream holds; [print_key] and [print_value] are the
    [operator<<] of the keys and of the values. *)
Fixpoint print_pairs (print_key : Key → string) (print_value : Value → string)
    (n : nat) (zone : Zone) (it last : iterator) (first : bool) (os : string)
    : option string :=
  same ← iterator_eq zone it last;
  if same : bool then Some os
  else
    match n with
    | O => None
    | S n' =>
        pair ← deref zone it;
        let os := if first then os else os +:+ ", " in
        let os := ((os +:+ print_key pair.1) +:+ ": ") +:+ print_value pair.2 in
        it' ← incr n zone it;
        print_pairs print_key print_value n' zone it' last false os
    end.

(** [os << map] *)
Definition print_map (print_key : Key → string) (print_value : Value → string)
    (n : nat) (zone : Zone) (os : string) (m : PersistentMap)
    : option string :=
  let os := os +:+ "{" in
  it ← begin zone m;
  os ← print_pairs print_key print_value n zone it (end_ m) true os;
  Some (os +:+ "}").

(** ** Specification vocabulary *)

(** Hash values are 32-bit unsigned integers. *)
Definition in_range (h : Z) : Prop := 0 ≤ h < 2 ^ 32.

(** [h1] and [h2] agree on their first [d] bits, counted from the high end. *)
Definition same_prefix (d : nat) (h1 h2 : Z) : Prop :=
  ∀ i, (i < d)%nat → hash_bit h1 i = hash_bit h2 i.


(** The requirements on the key type: [operator<] is a strict total
    order ([std::map] and the iterators rely on it). *)
Hypothesis key_less_irrefl : ∀ k, key_less k k = false.
Hypothesis key_less_trans :
  ∀ a b c, key_less a b = true → key_less b c = true → key_less a c = true.
Hypothesis key_less_total :
  ∀ a b, key_less a b = false → key_less b a = false → a = b.

Definition hash_of (key : Key) : Z := HashValue (Hasher key).

Definition entry_key_lt (p q : Key * Value) : Prop := key_less p.1 q.1 = true.

(** A collision bucket of a node with hash [h]: not empty, in increasing
    key order, and all of its keys hash to [h]. *)
Definition bucket_ok (h : Z) (bucket : ZoneMap) : Prop :=
  bucket ≠ [] ∧ StronglySorted entry_key_lt bucket ∧
  ∀ kv, kv ∈ bucket → hash_of kv.1 = h.

(** The invariant of a node: [length] counts the side pointers, which are
    at most 32; the subtree behind [path(i)] shares the first [i] hash
    bits with the node and lies on the other side at bit [i]. *)
Record wf_node (zone : Zone) (t : FocusedTree) : Prop := mk_wf_node {
  wf_key_hash : key_hash t = hash_of (key_value t).1;
  wf_length : length t = Z.of_nat (List.length (path_array t));
  wf_length_max : (List.length (path_array t) ≤ 32)%nat;
  wf_side : ∀ i c, path_array t !! i = Some (Some c) →
    ∃ tc, zone !! c = Some tc ∧ same_prefix i (key_hash tc) (key_hash t) ∧
          hash_bit (key_hash tc) i ≠ hash_bit (key_hash t) i;
  wf_more : ∀ bucket, more t = Some bucket → bucket_ok (key_hash t) bucket;
}.

Definition wf_zone (zone : Zone) : Prop :=
  ∀ a t, zone !! a = Some t → wf_node zone t.

Definition wf_map (zone : Zone) (m : PersistentMap) : Prop :=
  ∀ a, tree_ m = Some a → is_Some (zone !! a).

(** The states of a zone and of the map handles that live in it: a fresh
    zone, new empty handles, and [Add] (or [Set]) on a handle. *)
Inductive reachable : Zone → list PersistentMap → Prop :=
  | reach_init : reachable [] []
  | reach_new zone maps def_value :
      reachable zone maps → reachable zone (empty_map def_value :: maps)
  | reach_add zone maps m key value zone' m' :
      reachable zone maps → m ∈ maps →
      Add zone m key value = Some (zone', m') →
      reachable zone' (m' :: maps).

(** The nodes of a map: the root, and the nodes behind the side pointers
    of its nodes. *)
Inductive node_of (zone : Zone) : ptr → nat → Prop :=
  | node_of_root a : node_of zone (Some a) a
  | node_of_side root a t i c :
      node_of zone root a → zone !! a = Some t →
      Z.of_nat i < length t → path t i = Some (Some c) →
      node_of zone root c.

(** The node that [Add] builds. *)
Definition new_tree (key : Key) (value : Value) (len : nat)
    (more : option ZoneMap) (path_out : list ptr) : FocusedTree :=
  {| key_value := (key, value);
     length := to_int8 (Z.of_nat len);
     key_hash := hash_of key;
     more := more;
     path_array := take len path_out |}.

(** [FindHash_loop] with the turns that are left at [level]. *)
Definition find_from (zone : Zone) (hash : Z) (tree : ptr) (level : nat)
    : option ptr :=
  FindHash_loop (33 - level) zone hash tree level.

(** The leaves below [tree] seen at [level], from left to right; [n] is
    the number of levels left. *)
Fixpoint leaves (n : nat) (zone : Zone) (tree : ptr) (level : nat)
    : list nat :=
  match tree with
  | None => []
  | Some a =>
      match zone !! a with
      | None => []
      | Some t =>
          if Z.of_nat level <? length t then
            match n with
            | O => []
            | S n' =>
                let side := default None (path t level) in
                match hash_bit (key_hash t) level with
                | kLeft =>
                    leaves n' zone (Some a) (S level) ++
                    leaves n' zone side (S level)
                | kRight =>
                    leaves n' zone side (S level) ++
                    leaves n' zone (Some a) (S level)
                end
            end
          else [a]
      end
  end.

Definition leaves_at (zone : Zone) (tree : ptr) (level : nat) : list nat :=
  leaves (32 - level) zone tree level.

Definition hash_at (zone : Zone) (a : nat) : Z :=
  from_option key_hash 0 (zone !! a).

(** The order of the leaves: by the hash of the node. *)
Definition leaf_lt (zone : Zone) (a b : nat) : Prop :=
  hash_at zone a < hash_at zone b.

(** The key-value pairs of a leaf, in the order of the iterator. *)
Definition entries (t : FocusedTree) : list (Key * Value) :=
  match more t with
  | Some bucket => bucket
  | None => [key_value t]
  end.

Definition entries_of (zone : Zone) (l : list nat) : list (Key * Value) :=
  a ← l; from_option entries [] (zone !! a).

(** The leaves that an iterator at a leaf with hash [hash] has still to
    visit: those behind the right siblings saved in [path_] at the levels
    where the way to the leaf went left. *)
Fixpoint pending (zone : Zone) (hash : Z) (path_in : list ptr) (level : nat)
    : list nat :=
  match level with
  | O => []
  | S l =>
      match hash_bit hash l with
      | kLeft => leaves_at zone (default None (path_in !! l)) (S l)
      | kRight => []
      end ++ pending zone hash path_in l
  end.

(** The order of the iterator: by hash, then by key. *)
Definition entry_lt (p q : Key * Value) : Prop :=
  hash_of p.1 < hash_of q.1 ∨
  (hash_of p.1 = hash_of q.1 ∧ key_less p.1 q.1 = true).

(** The pairs of the current leaf from the position of the iterator on. *)
Definition cur_entries (it : iterator) (t : FocusedTree)
    : list (Key * Value) :=
  match more t with
  | Some bucket => drop (more_iter_ it) bucket
  | None => [key_value t]
  end.

(** All the pairs from the position of the iterator on, default values
    included. *)
Definition it_all (zone : Zone) (it : iterator) : list (Key * Value) :=
  match current_ it with
  | None => []
  | Some a =>
      match zone !! a with
      | None => []
      | Some t =>
          cur_entries it t ++
          entries_of zone (pending zone (key_hash t) (path_ it) (level_ it))
      end
  end.

(** The invariant of an iterator that is not at the end: it is at a node
    of the zone, inside of its bucket, and the right siblings it has saved
    are nodes of the zone on the right of its way to the leaf. *)
Definition it_ok (zone : Zone) (it : iterator) : Prop :=
  ∀ a, current_ it = Some a →
    ∃ t, zone !! a = Some t ∧
      List.length (path_ it) = 32%nat ∧ (level_ it ≤ 32)%nat ∧
      (∀ bucket, more t = Some bucket →
                 (more_iter_ it < List.length bucket)%nat) ∧
      (∀ i c, (i < level_ it)%nat → hash_bit (key_hash t) i = kLeft →
              path_ it !! i = Some (Some c) →
         ∃ tc, zone !! c = Some tc ∧
               same_prefix i (key_hash tc) (key_hash t) ∧
               hash_bit (key_hash tc) i = kRight).

(** [produces zone it l]: the iterator [it] is dereferenced and advanced
    through the pairs of [l], in this order, and is at the end after
    them.  An advance succeeds whenever [operator++] is given enough
    turns of its loop. *)
Inductive produces (zone : Zone) : iterator → list (Key * Value) → Prop :=
  | produces_end it : is_end it = true → produces zone it []
  | produces_step it a t kv n0 it' l :
      current_ it = Some a → zone !! a = Some t →
      key_hash t = hash_of kv.1 →
      deref zone it = Some kv →
      (∀ n, (n0 ≤ n)%nat → incr n zone it = Some it') →
      it_def_value_ it' = it_def_value_ it →
      produces zone it' l →
      produces zone it (kv :: l).

(** The value that a list of pairs binds a key to, [def_value] when the
    key is not in the list. *)
Fixpoint value_in (l : list (Key * Value)) (def_value : Value) (key : Key)
    : Value :=
  match l with
  | [] => def_value
  | (k, v) :: l' => if decide (key = k) then v else value_in l' def_value key
  end.

(** [iterator::operator<] on the pairs that two iterators are at. *)
Definition entry_ltb (p q : Key * Value) : bool :=
  if hash_lt (hash_of p.1) (hash_of q.1) then true
  else if hash_eq (hash_of p.1) (hash_of q.1) then key_less p.1 q.1
  else false.

(** The order of the triples of the double iterator: that of their keys. *)
Definition triple_lt (s t : Key * Value * Value) : Prop := entry_lt s.1 t.1.

(** [l] is the merge of the sorted lists [la] and [lb]: every triple of
    [l] has a key of [la] or [lb] and the values that the two lists bind
    the key to ([da] and [db] for a key that a list does not have), every
    key of [la] and [lb] has a triple, and [l] is sorted. *)
Definition zip_ok (da db : Value) (la lb : list (Key * Value))
    (l : list (Key * Value * Value)) : Prop :=
  (∀ key va vb, (key, va, vb) ∈ l →
     (key ∈ la.*1 ∨ key ∈ lb.*1) ∧
     va = value_in la da key ∧ vb = value_in lb db key) ∧
  (∀ key, key ∈ la.*1 ∨ key ∈ lb.*1 → key ∈ l.*1.*1) ∧
  StronglySorted triple_lt l.

(** A run of [Set] calls on one handle, in the order of the list. *)
Fixpoint Set_all (zone : Zone) (m : PersistentMap) (l : list (Key * Value))
    : option (Zone * PersistentMap) :=
  match l with
  | [] => Some (zone, m)
  | (key, value) :: l' =>
      '(zone', m') ← Set_ zone m key value;
      Set_all zone' m' l'
  end.

(** The iterators of a map: [begin()], [end()], and what [operator++]
    makes of them. *)
Inductive iterator_of (zone : Zone) (m : PersistentMap) : iterator → Prop :=
  | iterator_of_begin it : begin zone m = Some it → iterator_of zone m it
  | iterator_of_end : iterator_of zone m (end_ m)
  | iterator_of_incr n it it' :
      iterator_of zone m it → incr n zone it = Some it' →
      iterator_of zone m it'.

(** A triple of the double iterator with its two values exchanged. *)
Definition swap_values (t : Key * Value * Value) : Key * Value * Value :=
  (t.1.1, t.2, t.1.2).

(** The text of a pair, and of the pairs after the first one. *)
Definition pair_text (print_key : Key → string) (print_value : Value → string)
    (p : Key * Value) : string :=
  print_key p.1 +:+ ": " +:+ print_value p.2.

Definition concat_tail (sep : string) (l : list string) : string :=
  foldr (λ x s, sep +:+ x +:+ s) "" l.

(** ** Hash bits *)

Lemma HashValue_in_range x : in_range (HashValue x).
Proof.
  unfold in_range, HashValue, kHashBits. rewrite Z.land_ones by lia.
  apply Z.mod_pos_bound. lia.
Qed.

Lemma same_prefix_refl d h : same_prefix d h h.
Proof. by intros i _. Qed.

Lemma same_prefix_sym d h1 h2 : same_prefix d h1 h2 → same_prefix d h2 h1.
Proof. intros H i Hi. symmetry. by apply H. Qed.

Lemma same_prefix_trans d h1 h2 h3 :
  same_prefix d h1 h2 → same_prefix d h2 h3 → same_prefix d h1 h3.
Proof. intros H1 H2 i Hi. rewrite H1 by done. by apply H2. Qed.

Lemma same_prefix_le d d' h1 h2 :
  (d' ≤ d)%nat → same_prefix d h1 h2 → same_prefix d' h1 h2.
Proof. intros Hle H i Hi. apply H. lia. Qed.

Lemma same_prefix_S d h1 h2 :
  same_prefix (S d) h1 h2 ↔ same_prefix d h1 h2 ∧ hash_bit h1 d = hash_bit h2 d.
Proof.
  split.
  - intros H. split; [intros i Hi|]; apply H; lia.
  - intros [H Hd] i Hi. destruct (decide (i = d)) as [->|]; [done|].
    apply H. lia.
Qed.

Lemma hash_bit_testbit h i b :
  hash_bit h i = b ↔ Z.testbit h (31 - Z.of_nat i) = bool_decide (b = kRight).
Proof.
  unfold hash_bit, kHashBits.
  replace (32 - Z.of_nat i - 1) with (31 - Z.of_nat i) by lia.
  destruct (Z.testbit h _), b; split; intros; done.
Qed.

Lemma hash_bit_eq_testbit h1 h2 i :
  hash_bit h1 i = hash_bit h2 i ↔
  Z.testbit h1 (31 - Z.of_nat i) = Z.testbit h2 (31 - Z.of_nat i).
Proof.
  unfold hash_bit, kHashBits.
  replace (32 - Z.of_nat i - 1) with (31 - Z.of_nat i) by lia.
  destruct (Z.testbit h1 _), (Z.testbit h2 _); split; intros; done.
Qed.

Lemma in_range_testbit_high h n : in_range h → 32 ≤ n → Z.testbit h n = false.
Proof.
  intros [H0 H1] Hn. destruct (decide (h = 0)) as [->|]; [apply Z.bits_0|].
  apply Z.bits_above_log2; [lia|].
  assert (Z.log2 h < 32); [|lia]. apply Z.log2_lt_pow2; lia.
Qed.

Lemma same_prefix_32_eq h1 h2 :
  in_range h1 → in_range h2 → same_prefix 32 h1 h2 → h1 = h2.
Proof.
  intros R1 R2 H. apply Z.bits_inj'. intros n Hn.
  destruct (decide (n < 32)) as [Hlt|Hge].
  - specialize (H (Z.to_nat (31 - n)) ltac:(lia)).
    apply hash_bit_eq_testbit in H.
    by replace (31 - Z.of_nat (Z.to_nat (31 - n))) with n in H by lia.
  - rewrite !in_range_testbit_high by (done || lia). done.
Qed.

Lemma same_prefix_shiftr d h1 h2 :
  in_range h1 → in_range h2 → (d ≤ 32)%nat → same_prefix d h1 h2 →
  Z.shiftr h1 (32 - Z.of_nat d) = Z.shiftr h2 (32 - Z.of_nat d).
Proof.
  intros R1 R2 Hd H. apply Z.bits_inj'. intros n Hn.
  rewrite !Z.shiftr_spec by lia.
  destruct (decide (n + (32 - Z.of_nat d) < 32)) as [Hlt|Hge].
  - specialize (H (Z.to_nat (31 - (n + (32 - Z.of_nat d)))) ltac:(lia)).
    apply hash_bit_eq_testbit in H.
    by replace (31 - Z.of_nat (Z.to_nat (31 - (n + (32 - Z.of_nat d)))))
      with (n + (32 - Z.of_nat d)) in H by lia.
  - rewrite !in_range_testbit_high by (done || lia). done.
Qed.

Lemma hash_lt_of_prefix d h1 h2 :
  in_range h1 → in_range h2 → (d < 32)%nat → same_prefix d h1 h2 →
  hash_bit h1 d = kLeft → hash_bit h2 d = kRight → h1 < h2.
Proof.
  intros R1 R2 Hd H B1 B2.
  pose proof (same_prefix_shiftr d h1 h2 R1 R2 ltac:(lia) H) as Hs.
  apply hash_bit_testbit in B1, B2. simpl in B1, B2.
  rewrite !Z.shiftr_div_pow2 in Hs by lia.
  apply Z.testbit_false in B1; [|lia]. apply Z.testbit_true in B2; [|lia].
  set (k := 31 - Z.of_nat d) in *.
  replace (32 - Z.of_nat d) with (Z.succ k) in Hs by lia.
  rewrite Z.pow_succ_r, (Z.mul_comm 2) in Hs by lia.
  rewrite <- !Z.div_div in Hs by lia.
  destruct (decide (h1 < h2)) as [|Hge]; [done|exfalso].
  assert (h2 `div` 2 ^ k ≤ h1 `div` 2 ^ k) by (apply Z.div_le_mono; lia).
  pose proof (Z.div_mod (h1 `div` 2 ^ k) 2 ltac:(lia)).
  pose proof (Z.div_mod (h2 `div` 2 ^ k) 2 ltac:(lia)).
  lia.
Qed.

Lemma hash_bit_xor h t i :
  (i < 32)%nat →
  hash_bit (hash_xor h t) i = kLeft ↔ hash_bit h i = hash_bit t i.
Proof.
  intros Hi. rewrite hash_bit_testbit, hash_bit_eq_testbit. simpl.
  unfold hash_xor. rewrite Z.lxor_spec.
  destruct (Z.testbit h _), (Z.testbit t _); split; intros; done.
Qed.

Lemma Bit_ne_flip (a b c : Bit) : a ≠ b → c ≠ b → a = c.
Proof. destruct a, b, c; congruence. Qed.

Lemma skip_common_spec n x level j :
  skip_common n x level = Some j →
  (level ≤ j < level + n)%nat ∧
  (∀ i, (level ≤ i < j)%nat → hash_bit x i = kLeft) ∧
  hash_bit x j ≠ kLeft.
Proof.
  revert level. induction n as [|n IH]; intros level; simpl; [done|].
  case_decide as Hb.
  - intros H. apply IH in H as (? & Hi & ?). split_and!; [lia|lia| |done].
    intros i Hi'. destruct (decide (i = level)) as [->|]; [done|].
    apply Hi. lia.
  - intros [= <-]. split_and!; [lia|lia| |done]. intros. lia.
Qed.

Lemma first_diff_spec x level j :
  first_diff x level = Some j →
  (level ≤ j < 32)%nat ∧
  (∀ i, (level ≤ i < j)%nat → hash_bit x i = kLeft) ∧
  hash_bit x j ≠ kLeft.
Proof.
  unfold first_diff. intros H. apply skip_common_spec in H as (? & ? & ?).
  unfold kHashBits in *. split_and!; [lia|lia|done..].
Qed.

Lemma skip_common_None n x level :
  skip_common n x level = None →
  ∀ i, (level ≤ i < level + n)%nat → hash_bit x i = kLeft.
Proof.
  revert level. induction n as [|n IH]; intros level; simpl; [lia|].
  case_decide as Hb; [|done]. intros H i Hi.
  destruct (decide (i = level)) as [->|]; [done|]. apply (IH _ H). lia.
Qed.

Lemma first_diff_total h t level :
  in_range h → in_range t → h ≠ t → same_prefix level h t →
  is_Some (first_diff (hash_xor h t) level).
Proof.
  intros R1 R2 Hne Hp.
  destruct (first_diff (hash_xor h t) level) as [j|] eqn:Hf; [done|].
  destruct Hne. apply same_prefix_32_eq; [done..|]. intros i Hi.
  destruct (decide (i < level)%nat) as [Hlt|]; [by apply Hp|].
  apply hash_bit_xor; [done|].
  apply (skip_common_None _ _ _ Hf). unfold kHashBits. lia.
Qed.

(** ** ZoneMap *)

Lemma zm_find_set_eq key value m : zm_find key (zm_set key value m) = Some value.
Proof.
  induction m as [|[k v] m IH]; simpl.
  - by rewrite key_less_irrefl.
  - destruct (key_less key k) eqn:H1; simpl.
    + by rewrite key_less_irrefl.
    + destruct (key_less k key) eqn:H2; simpl.
      * by rewrite H1, H2.
      * by rewrite H1, H2.
Qed.

Lemma key_less_asym a b : key_less a b = true → key_less b a = false.
Proof.
  intros H. destruct (key_less b a) eqn:H'; [|done].
  by rewrite <- (key_less_irrefl a), (key_less_trans a b a).
Qed.

Lemma zm_find_set_ne key value key' m :
  key ≠ key' → StronglySorted entry_key_lt m →
  zm_find key' (zm_set key value m) = zm_find key' m.
Proof.
  intros Hne. induction m as [|[k v] m IH]; intros Hs; simpl.
  - destruct (key_less key' key) eqn:H1; [done|].
    destruct (key_less key key') eqn:H2; [done|].
    destruct Hne. by apply key_less_total.
  - apply StronglySorted_inv in Hs as [Hs Hall].
    destruct (key_less key k) eqn:H1; simpl.
    + destruct (key_less key' key) eqn:H3.
      * by rewrite (key_less_trans key' key k).
      * destruct (key_less key key') eqn:H4; [done|].
        destruct Hne. by apply key_less_total.
    + destruct (key_less k key) eqn:H2; simpl.
      * rewrite IH by done. done.
      * assert (key = k) as -> by by apply key_less_total.
        destruct (key_less key' k) eqn:H3; [done|].
        destruct (key_less k key') eqn:H4; [done|].
        destruct Hne. by apply key_less_total.
Qed.

Lemma zm_set_elem key value m kv :
  kv ∈ zm_set key value m →
  kv = (key, value) ∨ kv ∈ m ∨ ∃ v, (kv.1, v) ∈ m ∧ kv.1 = key.
Proof.
  induction m as [|[k v] m IH]; simpl.
  - intros ->%list_elem_of_singleton. by left.
  - destruct (key_less key k) eqn:H1; [|destruct (key_less k key) eqn:H2].
    + intros [->|H]%elem_of_cons; [by left|by right; left].
    + intros [->|H]%elem_of_cons; [right; left; left|].
      destruct (IH H) as [?|[?|(v' & ? & ?)]]; [by left|right; left; by right|].
      right; right. exists v'. split; [by right|done].
    + assert (key = k) as -> by by apply key_less_total.
      intros [->|H]%elem_of_cons; [by left|]. right; left. by right.
Qed.

Lemma zm_set_sorted key value m :
  StronglySorted entry_key_lt m → StronglySorted entry_key_lt (zm_set key value m).
Proof.
  induction m as [|[k v] m IH]; intros Hs; simpl.
  - repeat constructor.
  - pose proof Hs as Hs0. apply StronglySorted_inv in Hs as [Hs Hall].
    destruct (key_less key k) eqn:H1; [|destruct (key_less k key) eqn:H2].
    + constructor; [done|]. constructor; [done|].
      eapply Forall_impl; [exact Hall|]. intros [k' v'] Hk'.
      unfold entry_key_lt in *; simpl in *. by eapply key_less_trans.
    + constructor; [by apply IH|]. apply Forall_forall. intros kv Hkv.
      apply zm_set_elem in Hkv as [->|[Hkv|(v' & Hkv & ?)]]; [done|..].
      * by eapply (proj1 (Forall_forall _ _) Hall).
      * by apply (proj1 (Forall_forall _ _) Hall _ Hkv).
    + constructor; [done|]. done.
Qed.

Lemma zm_set_nonempty key value m : zm_set key value m ≠ [].
Proof.
  destruct m as [|[k v] m]; simpl; [done|].
  by destruct (key_less key k), (key_less k key).
Qed.

(** ** FindHash *)

Lemma first_diff_high x level : (32 ≤ level)%nat → first_diff x level = None.
Proof.
  intros H. unfold first_diff, kHashBits.
  by replace (Z.to_nat 32 - level)%nat with 0%nat by lia.
Qed.

Lemma FindHash_loop_fuel n n' zone h tree level :
  (33 ≤ n + level)%nat → (33 ≤ n' + level)%nat →
  FindHash_loop n zone h tree level = FindHash_loop n' zone h tree level.
Proof.
  revert n' tree level.
  induction n as [|n IH]; intros [|n'] [a|] level Hn Hn'; simpl; try done.
  - destruct (zone !! a) as [t|]; simpl; [|done].
    destruct (hash_eq h (key_hash t)); [done|].
    by rewrite first_diff_high by lia.
  - destruct (zone !! a) as [t|]; simpl; [|done].
    destruct (hash_eq h (key_hash t)); [done|].
    by rewrite first_diff_high by lia.
  - destruct (zone !! a) as [t|]; simpl; [|done].
    destruct (hash_eq h (key_hash t)); [done|].
    destruct (first_diff _ level) as [j|] eqn:Hj; simpl; [|done].
    apply first_diff_spec in Hj as (? & _).
    destruct (path_or_null t j) as [next|]; simpl; [|done].
    apply IH; lia.
Qed.

Lemma find_from_null zone h level : find_from zone h None level = Some None.
Proof. unfold find_from. by destruct (33 - level)%nat. Qed.

Lemma find_from_unfold zone h a level :
  find_from zone h (Some a) level =
  t ← zone !! a;
  if hash_eq h (key_hash t) then Some (Some a)
  else
    level' ← first_diff (hash_xor h (key_hash t)) level;
    next ← path_or_null t level';
    find_from zone h next (S level').
Proof.
  unfold find_from. destruct (33 - level)%nat as [|n] eqn:Hn; simpl.
  - destruct (zone !! a) as [t|]; simpl; [|done].
    destruct (hash_eq h (key_hash t)); [done|].
    by rewrite first_diff_high by lia.
  - destruct (zone !! a) as [t|]; simpl; [|done].
    destruct (hash_eq h (key_hash t)); [done|].
    destruct (first_diff _ level) as [j|] eqn:Hj; simpl; [|done].
    apply first_diff_spec in Hj as (? & _).
    destruct (path_or_null t j) as [next|]; simpl; [|done].
    apply FindHash_loop_fuel; lia.
Qed.

Lemma FindHash_find_from zone m h :
  FindHash zone m h = find_from zone h (tree_ m) 0.
Proof. done. Qed.

(** Nodes are never written again: what a search finds in a zone, it
    finds in every extension of the zone. *)
Lemma FindHash_loop_app n zone ext h tree level r :
  FindHash_loop n zone h tree level = Some r →
  FindHash_loop n (zone ++ ext) h tree level = Some r.
Proof.
  revert tree level. induction n as [|n IH]; intros [a|] level; simpl; try done.
  - destruct (zone !! a) as [t|] eqn:Ht; simpl; [|done].
    rewrite (lookup_app_l_Some _ _ _ _ Ht). simpl.
    by destruct (hash_eq h (key_hash t)).
  - destruct (zone !! a) as [t|] eqn:Ht; simpl; [|done].
    rewrite (lookup_app_l_Some _ _ _ _ Ht). simpl.
    destruct (hash_eq h (key_hash t)); [done|].
    destruct (first_diff _ level) as [j|]; simpl; [|done].
    destruct (path_or_null t j) as [next|]; simpl; [|done].
    apply IH.
Qed.

Lemma find_from_app zone ext h tree level r :
  find_from zone h tree level = Some r →
  find_from (zone ++ ext) h tree level = Some r.
Proof. apply FindHash_loop_app. Qed.

Lemma GetFocusedValue_app zone ext m tree key v :
  GetFocusedValue zone m tree key = Some v →
  GetFocusedValue (zone ++ ext) m tree key = Some v.
Proof.
  destruct tree as [a|]; simpl; [|done].
  destruct (zone !! a) as [t|] eqn:Ht; simpl; [|done].
  by rewrite (lookup_app_l_Some _ _ _ _ Ht).
Qed.

Lemma Get_app zone ext m key v :
  Get zone m key = Some v → Get (zone ++ ext) m key = Some v.
Proof.
  unfold Get. rewrite !FindHash_find_from.
  destruct (find_from zone _ _ _) as [r|] eqn:Hr; simpl; [|done].
  rewrite (find_from_app _ ext _ _ _ _ Hr). simpl.
  apply GetFocusedValue_app.
Qed.

Lemma hash_eq_true h t : hash_eq h t = true ↔ h = t.
Proof. unfold hash_eq. apply Z.eqb_eq. Qed.

Lemma hash_eq_false h t : hash_eq h t = false ↔ h ≠ t.
Proof. unfold hash_eq. apply Z.eqb_neq. Qed.

Lemma first_diff_intro h t level j :
  (level ≤ j < 32)%nat →
  (∀ i, (level ≤ i < j)%nat → hash_bit h i = hash_bit t i) →
  hash_bit h j ≠ hash_bit t j →
  first_diff (hash_xor h t) level = Some j.
Proof.
  intros Hj Hsame Hdiff.
  destruct (first_diff (hash_xor h t) level) as [j'|] eqn:Hf.
  - apply first_diff_spec in Hf as (Hj' & Hl & Hd). f_equal.
    destruct (decide (j' < j)%nat).
    { destruct Hd. apply hash_bit_xor; [lia|]. apply Hsame. lia. }
    destruct (decide (j < j')%nat); [|lia].
    destruct Hdiff. apply hash_bit_xor; [lia|]. apply Hl. lia.
  - exfalso. apply Hdiff. apply hash_bit_xor; [lia|].
    apply (skip_common_None _ _ _ Hf). unfold kHashBits. lia.
Qed.

Lemma first_diff_bits h t level j :
  first_diff (hash_xor h t) level = Some j →
  (level ≤ j < 32)%nat ∧
  (∀ i, (level ≤ i < j)%nat → hash_bit h i = hash_bit t i) ∧
  hash_bit h j ≠ hash_bit t j.
Proof.
  intros (Hj & Hl & Hd)%first_diff_spec. split_and!; [lia|lia| |].
  - intros i Hi. apply hash_bit_xor; [lia|]. by apply Hl.
  - intros Hb. apply Hd. apply hash_bit_xor; [lia|done].
Qed.

(** A node found at [level] is found from every level up to which the
    hash agrees with the hash of the node. *)
Lemma find_from_same_side zone h a t level level' :
  zone !! a = Some t → (level ≤ level' ≤ 32)%nat →
  (∀ i, (level ≤ i < level')%nat → hash_bit h i = hash_bit (key_hash t) i) →
  find_from zone h (Some a) level = find_from zone h (Some a) level'.
Proof.
  intros Ht Hl Hsame. rewrite !find_from_unfold, Ht. simpl.
  destruct (hash_eq h (key_hash t)); [done|].
  destruct (first_diff _ level') as [j|] eqn:Hj.
  - apply first_diff_bits in Hj as (? & Hb & ?).
    rewrite (first_diff_intro _ _ level j); [done|lia| |done].
    intros i Hi. destruct (decide (i < level')%nat); [apply Hsame|apply Hb]; lia.
  - destruct (first_diff _ level) as [j|] eqn:Hj'; [|done].
    apply first_diff_bits in Hj' as (? & Hb & Hd).
    rewrite (first_diff_intro _ _ level' j) in Hj; [done| |intros; apply Hb; lia|done].
    split; [|lia]. destruct (decide (j < level')%nat); [|lia].
    destruct Hd. apply Hsame. lia.
Qed.

(** ** The path recorded by FindHash *)

Lemma wf_path_or_null zone t i : wf_node zone t → is_Some (path_or_null t i).
Proof.
  intros Hwf. unfold path_or_null, path. case_match eqn:Hlt; [|done].
  apply lookup_lt_is_Some. apply Z.ltb_lt in Hlt.
  rewrite (wf_length _ _ Hwf) in Hlt. lia.
Qed.

Lemma record_common_spec n t x level path_out :
  (∀ i, is_Some (path_or_null t i)) →
  (level + n ≤ List.length path_out)%nat →
  match skip_common n x level with
  | None => record_common n t x level path_out = None
  | Some j =>
      ∃ path', record_common n t x level path_out = Some (j, path') ∧
        List.length path' = List.length path_out ∧
        (∀ i, (i < level ∨ j ≤ i)%nat → path' !! i = path_out !! i) ∧
        (∀ i, (level ≤ i < j)%nat → path' !! i = path_or_null t i)
  end.
Proof.
  intros Hsome. revert level path_out.
  induction n as [|n IH]; intros level path_out Hlen; simpl; [done|].
  case_decide as Hb.
  - destruct (Hsome level) as [p Hp]. rewrite Hp. simpl.
    specialize (IH (S level) (<[level := p]> path_out)).
    rewrite length_insert in IH. specialize (IH ltac:(lia)).
    destruct (skip_common n x (S level)) as [j|] eqn:Hj; [|done].
    destruct IH as (path' & -> & Hl & Hout & Hin).
    apply skip_common_spec in Hj as (Hj & _).
    exists path'. split_and!; [done|done| |].
    + intros i Hi. rewrite Hout by lia. apply list_lookup_insert_ne. lia.
    + intros i Hi. destruct (decide (i = level)) as [->|].
      * rewrite Hout by lia. rewrite list_lookup_insert_eq by lia. done.
      * apply Hin. lia.
  - exists path_out. split_and!; [done|done|done|]. intros; lia.
Qed.

Lemma record_rest_spec n t level path_out :
  length t = Z.of_nat (List.length (path_array t)) →
  (List.length (path_array t) ≤ level + n)%nat →
  (level + n ≤ List.length path_out)%nat →
  ∃ path',
    record_rest n t level path_out =
      Some (Nat.max level (List.length (path_array t)), path') ∧
    List.length path' = List.length path_out ∧
    (∀ i, (i < level ∨ List.length (path_array t) ≤ i)%nat →
          path' !! i = path_out !! i) ∧
    (∀ i, (level ≤ i < List.length (path_array t))%nat →
          path' !! i = path_array t !! i).
Proof.
  intros Hlen. revert level path_out.
  induction n as [|n IH]; intros level path_out Hn Hout.
  - simpl. case_match eqn:Hlt; [apply Z.ltb_lt in Hlt; lia|].
    exists path_out. split_and!; [f_equal; f_equal; lia|done|done|intros; lia].
  - simpl. case_match eqn:Hlt.
    + apply Z.ltb_lt in Hlt.
      destruct (lookup_lt_is_Some_2 (path_array t) level ltac:(lia)) as [p Hp].
      unfold path. rewrite Hp. simpl.
      specialize (IH (S level) (<[level := p]> path_out)).
      rewrite length_insert in IH.
      destruct (IH ltac:(lia) ltac:(lia)) as (path' & -> & Hl & Hsame & Hin).
      exists path'. split_and!; [f_equal; f_equal; lia|done| |].
      * intros i Hi. rewrite Hsame by lia. apply list_lookup_insert_ne. lia.
      * intros i Hi. destruct (decide (i = level)) as [->|].
        -- rewrite Hsame by lia. rewrite list_lookup_insert_eq by lia. done.
        -- apply Hin. lia.
    + apply Z.ltb_ge in Hlt.
      exists path_out. split_and!; [f_equal; f_equal; lia|done|done|intros; lia].
Qed.

Lemma wf_in_range zone t : wf_node zone t → in_range (key_hash t).
Proof. intros Hwf. rewrite (wf_key_hash _ _ Hwf). apply HashValue_in_range. Qed.

Lemma same_prefix_extend d d' h1 h2 :
  (d ≤ d')%nat → same_prefix d h1 h2 →
  (∀ i, (d ≤ i < d')%nat → hash_bit h1 i = hash_bit h2 i) →
  same_prefix d' h1 h2.
Proof.
  intros Hle Hp Hb i Hi. destruct (decide (i < d)%nat); [by apply Hp|].
  apply Hb. lia.
Qed.

Lemma FindHash_path_loop_spec n zone h tree level path_out :
  wf_zone zone → in_range h → (33 ≤ n + level)%nat → (level ≤ 32)%nat →
  List.length path_out = 32%nat →
  (∀ a, tree = Some a →
        ∃ t, zone !! a = Some t ∧ same_prefix level h (key_hash t)) →
  ∃ old path' len,
    FindHash_path_loop n zone h tree level path_out = Some (old, path', len) ∧
    find_from zone h tree level = Some old ∧
    (level ≤ len ≤ 32)%nat ∧ List.length path' = 32%nat ∧
    (∀ i, (i < level)%nat → path' !! i = path_out !! i) ∧
    (∀ a, old = Some a → ∃ t, zone !! a = Some t ∧ key_hash t = h) ∧
    (∀ i c, (level ≤ i < len)%nat → path' !! i = Some (Some c) →
       ∃ tc, zone !! c = Some tc ∧ same_prefix i (key_hash tc) h ∧
             hash_bit (key_hash tc) i ≠ hash_bit h i) ∧
    (∀ h2 i, (level ≤ i < len)%nat → same_prefix i h2 h →
       hash_bit h2 i ≠ hash_bit h i →
       ∃ p, path' !! i = Some p ∧
            find_from zone h2 p (S i) = find_from zone h2 tree level) ∧
    (∀ h2, in_range h2 → h2 ≠ h → same_prefix len h2 h →
       find_from zone h2 tree level = Some None).
Proof.
  intros Hzone Rh. revert tree level path_out.
  induction n as [|n IH]; intros tree level path_out Hn Hlevel Hlen Htree;
    [lia|].
  destruct tree as [a|]; simpl.
  2:{ exists None, path_out, level. rewrite find_from_null.
      split_and!; try done; try lia; try (intros; lia).
      intros. apply find_from_null. }
  destruct (Htree a eq_refl) as (t & Ht & Hpre). rewrite Ht. simpl.
  pose proof (Hzone _ _ Ht) as Hwf.
  destruct (hash_eq h (key_hash t)) eqn:Heq.
  - apply hash_eq_true in Heq. subst h.
    destruct (record_rest_spec (Z.to_nat kHashBits - level) t level path_out)
      as (path' & -> & Hl & Hsame & Hin).
    { apply Hwf. }
    { pose proof (wf_length_max _ _ Hwf). unfold kHashBits. lia. }
    { unfold kHashBits. lia. }
    simpl. pose proof (wf_length_max _ _ Hwf) as Hmax.
    exists (Some a), path', (Nat.max level (List.length (path_array t))).
    split_and!; try done; try lia.
    + rewrite find_from_unfold, Ht. simpl.
      by rewrite (proj2 (hash_eq_true _ _) eq_refl).
    + intros i Hi. apply Hsame. lia.
    + intros ? [= <-]. eauto.
    + intros i c Hi Hc. rewrite Hin in Hc by lia.
      by apply (wf_side _ _ Hwf).
    + intros h2 i Hi Hp Hb. rewrite Hin by lia.
      destruct (lookup_lt_is_Some_2 (path_array t) i ltac:(lia)) as [p Hp'].
      exists p. split; [done|].
      rewrite (find_from_unfold _ _ a), Ht. simpl.
      assert (h2 ≠ key_hash t) as Hne by (intros ->; done).
      rewrite (proj2 (hash_eq_false _ _) Hne).
      rewrite (first_diff_intro _ _ level i); [|lia| |done].
      2:{ intros i' Hi'. apply Hp. lia. }
      simpl. unfold path_or_null, path.
      rewrite (proj2 (Z.ltb_lt _ _)) by (rewrite (wf_length _ _ Hwf); lia).
      by rewrite Hp'.
    + intros h2 R2 Hne Hp. rewrite find_from_unfold, Ht. simpl.
      rewrite (proj2 (hash_eq_false _ _) Hne).
      destruct (first_diff_total h2 (key_hash t) level) as [j Hj];
        [done|by eapply wf_in_range|done| |].
      { eapply same_prefix_le; [|done]. lia. }
      rewrite Hj. simpl. apply first_diff_bits in Hj as (Hj & _ & Hd).
      assert (Nat.max level (List.length (path_array t)) ≤ j)%nat.
      { destruct (decide (j < Nat.max level (List.length (path_array t)))%nat);
          [|lia]. destruct Hd. by apply Hp. }
      unfold path_or_null.
      rewrite (proj2 (Z.ltb_ge _ _)) by (rewrite (wf_length _ _ Hwf); lia).
      simpl. apply find_from_null.
  - apply hash_eq_false in Heq.
    destruct (first_diff_total h (key_hash t) level) as [j Hj];
      [done|by eapply wf_in_range|done|done|].
    pose proof (record_common_spec (Z.to_nat kHashBits - level) t
                  (hash_xor h (key_hash t)) level path_out
                  (λ i, wf_path_or_null zone t i Hwf)) as Hrc.
    unfold first_diff in Hj. rewrite Hj in Hrc.
    destruct (Hrc ltac:(unfold kHashBits; lia))
      as (path1 & -> & Hl1 & Hout1 & Hin1).
    fold (first_diff (hash_xor h (key_hash t)) level) in Hj.
    pose proof Hj as Hj'. apply first_diff_bits in Hj' as (Hjr & Hjb & Hjd).
    simpl. destruct (wf_path_or_null zone t j Hwf) as [next Hnext].
    rewrite Hnext. simpl.
    assert (same_prefix j h (key_hash t)) as Hpre_j
      by (apply (same_prefix_extend level); [lia|done|done]).
    destruct (IH next (S j) (<[j := Some a]> path1)) as
      (old & path' & len & -> & Hfind & Hlen' & Hl' & Hlow & Hold & Hwfp & Hc & Hd).
    { lia. } { lia. } { by rewrite length_insert, Hl1. }
    { intros c ->. unfold path_or_null, path in Hnext.
      case_match; [|done].
      destruct (wf_side _ _ Hwf _ _ Hnext) as (tc & Htc & Hptc & Hbtc).
      exists tc. split; [done|]. apply same_prefix_S. split.
      - eapply same_prefix_trans; [done|]. by apply same_prefix_sym.
      - by eapply Bit_ne_flip. }
    assert (find_from zone h (Some a) level = find_from zone h next (S j))
      as Hstep.
    { rewrite find_from_unfold, Ht. simpl.
      rewrite (proj2 (hash_eq_false _ _) Heq), Hj. simpl. by rewrite Hnext. }
    assert (∀ h2, same_prefix (S j) h2 h →
              find_from zone h2 (Some a) level = find_from zone h2 next (S j))
      as Hstep2.
    { intros h2 [Hp2 Hb2]%same_prefix_S.
      rewrite find_from_unfold, Ht. simpl.
      assert (h2 ≠ key_hash t) as Hne2 by (intros ->; done).
      rewrite (proj2 (hash_eq_false _ _) Hne2).
      rewrite (first_diff_intro _ _ level j); [|lia| |congruence].
      2:{ intros i Hi. rewrite Hp2 by lia. by apply Hjb. }
      simpl. by rewrite Hnext. }
    exists old, path', len. split_and!; try done; try lia.
    + by rewrite Hstep.
    + intros i Hi. rewrite Hlow by lia.
      rewrite list_lookup_insert_ne by lia. apply Hout1. lia.
    + intros i c Hi Hpc.
      destruct (decide (i < j)%nat) as [Hij|Hij];
        [|destruct (decide (i = j)) as [->|Hij']].
      * rewrite Hlow in Hpc by lia. rewrite list_lookup_insert_ne in Hpc by lia.
        rewrite Hin1 in Hpc by lia. unfold path_or_null, path in Hpc.
        case_match; [|done].
        destruct (wf_side _ _ Hwf _ _ Hpc) as (tc & Htc & Hptc & Hbtc).
        exists tc. split_and!; [done| |].
        -- eapply same_prefix_trans; [done|]. apply same_prefix_sym.
           eapply same_prefix_le; [|done]. lia.
        -- rewrite Hjb by lia. done.
      * rewrite Hlow in Hpc by lia.
        rewrite list_lookup_insert_eq in Hpc by lia.
        injection Hpc as <-. exists t. split_and!; [done| |].
        -- by apply same_prefix_sym.
        -- congruence.
      * apply Hwfp; [lia|done].
    + intros h2 i Hi Hp2 Hb2.
      destruct (decide (i < j)%nat) as [Hij|Hij];
        [|destruct (decide (i = j)) as [->|Hij']].
      * rewrite Hlow by lia. rewrite list_lookup_insert_ne by lia.
        rewrite Hin1 by lia.
        destruct (wf_path_or_null zone t i Hwf) as [p Hp]. rewrite Hp.
        exists p. split; [done|].
        rewrite (find_from_unfold _ _ a), Ht. simpl.
        assert (h2 ≠ key_hash t) as Hne2.
        { intros ->. apply Hb2. symmetry. apply Hjb. lia. }
        rewrite (proj2 (hash_eq_false _ _) Hne2).
        rewrite (first_diff_intro _ _ level i); [|lia| |].
        -- simpl. by rewrite Hp.
        -- intros i' Hi'. rewrite Hp2 by lia. apply Hjb. lia.
        -- rewrite <- Hjb by lia. done.
      * rewrite Hlow by lia. rewrite list_lookup_insert_eq by lia.
        exists (Some a). split; [done|]. symmetry.
        apply (find_from_same_side _ _ _ t); [done|lia|].
        intros i Hi'. destruct (decide (i = j)) as [->|].
        -- eapply Bit_ne_flip; [done|]. congruence.
        -- rewrite Hp2 by lia. apply Hjb. lia.
      * destruct (Hc h2 i) as (p & Hp & Hfp); [lia|done|done|].
        exists p. split; [done|]. rewrite Hfp. symmetry. apply Hstep2.
        eapply same_prefix_le; [|done]. lia.
    + intros h2 R2 Hne2 Hp2. rewrite Hstep2.
      * by apply Hd.
      * eapply same_prefix_le; [|done]. lia.
Qed.

(** ** Add *)

Lemma hash_of_in_range key : in_range (hash_of key).
Proof. apply HashValue_in_range. Qed.

Lemma wf_node_app zone ext t : wf_node zone t → wf_node (zone ++ ext) t.
Proof.
  intros [H1 H2 H3 H4 H5]. split; try done.
  intros i c Hc. destruct (H4 i c Hc) as (tc & Htc & ?).
  exists tc. split; [|done]. by apply lookup_app_l_Some.
Qed.

Lemma wf_map_app zone ext m : wf_map zone m → wf_map (zone ++ ext) m.
Proof.
  intros H a Ha. destruct (H a Ha) as [t Ht]. exists t.
  by apply lookup_app_l_Some.
Qed.

Lemma wf_zone_alloc zone t : wf_zone zone → wf_node zone t → wf_zone (zone ++ [t]).
Proof.
  intros Hz Ht a t' [Ha|[_ Ha]]%lookup_app_Some.
  - apply wf_node_app. by eapply Hz.
  - apply list_lookup_singleton_Some in Ha as [_ <-]. by apply wf_node_app.
Qed.

Lemma FindHash_path_spec zone m h :
  wf_zone zone → wf_map zone m → in_range h →
  ∃ old path' len,
    FindHash_path zone m h unwritten_path = Some (old, path', len) ∧
    FindHash zone m h = Some old ∧
    (len ≤ 32)%nat ∧ List.length path' = 32%nat ∧
    (∀ a, old = Some a → ∃ t, zone !! a = Some t ∧ key_hash t = h) ∧
    (∀ i c, (i < len)%nat → path' !! i = Some (Some c) →
       ∃ tc, zone !! c = Some tc ∧ same_prefix i (key_hash tc) h ∧
             hash_bit (key_hash tc) i ≠ hash_bit h i) ∧
    (∀ h2 i, (i < len)%nat → same_prefix i h2 h →
       hash_bit h2 i ≠ hash_bit h i →
       ∃ p, path' !! i = Some p ∧
            find_from zone h2 p (S i) = FindHash zone m h2) ∧
    (∀ h2, in_range h2 → h2 ≠ h → same_prefix len h2 h →
       FindHash zone m h2 = Some None).
Proof.
  intros Hz Hm Rh.
  destruct (FindHash_path_loop_spec 33 zone h (tree_ m) 0 unwritten_path)
    as (old & path' & len & H1 & H2 & H3 & H4 & _ & H6 & H7 & H8 & H9);
    [done|done|lia|lia|done| |].
  { intros a Ha. destruct (Hm a Ha) as [t Ht]. exists t. split; [done|].
    intros i Hi. lia. }
  exists old, path', len. split_and!; try done; try lia.
  - intros i c Hi. apply H7. lia.
  - intros h2 i Hi. apply H8. lia.
Qed.

Lemma FindHash_total zone m h :
  wf_zone zone → wf_map zone m → in_range h →
  ∃ old, FindHash zone m h = Some old ∧
    ∀ a, old = Some a → ∃ t, zone !! a = Some t ∧ key_hash t = h.
Proof.
  intros Hz Hm Rh.
  destruct (FindHash_path_spec zone m h Hz Hm Rh)
    as (old & _ & _ & _ & ? & _ & _ & ? & _). eauto.
Qed.

Lemma Get_total zone m key :
  wf_zone zone → wf_map zone m → is_Some (Get zone m key).
Proof.
  intros Hz Hm. unfold Get.
  destruct (FindHash_total zone m (hash_of key) Hz Hm (hash_of_in_range _))
    as (old & Hf & Hold).
  fold (hash_of key). rewrite Hf. simpl. destruct old as [a|]; simpl; [|done].
  destruct (Hold a eq_refl) as (t & -> & _). done.
Qed.

Lemma to_int8_small z : 0 ≤ z ≤ 32 → to_int8 z = z.
Proof. intros H. unfold to_int8. rewrite Z.mod_small; lia. Qed.

Lemma single_bucket_find key k v :
  zm_find key [(k, v)] = if decide (key = k) then Some v else None.
Proof.
  simpl. case_decide as Hk.
  - subst. by rewrite key_less_irrefl.
  - destruct (key_less key k) eqn:H1; [done|].
    destruct (key_less k key) eqn:H2; [done|].
    destruct Hk. by apply key_less_total.
Qed.

Lemma new_more_spec zone old key value :
  wf_zone zone →
  (∀ a, old = Some a → ∃ t, zone !! a = Some t ∧ key_hash t = hash_of key) →
  ∃ more,
    new_more zone old key value = Some more ∧
    (∀ bucket, more = Some bucket → bucket_ok (hash_of key) bucket) ∧
    (∀ def_value len path_out,
       focused_value def_value (new_tree key value len more path_out) key
         = value) ∧
    (∀ m key2 v2 len path_out, key2 ≠ key →
       GetFocusedValue zone m old key2 = Some v2 →
       focused_value (def_value_ m) (new_tree key value len more path_out) key2
         = v2).
Proof.
  intros Hz Hold. destruct old as [a|]; simpl.
  2:{ exists None. split_and!; [done|done| |].
      - intros. unfold focused_value. simpl. by rewrite decide_True.
      - intros m key2 v2 len path_out Hne [= <-]. unfold focused_value. simpl.
        by rewrite decide_False. }
  destruct (Hold a eq_refl) as (to & Hto & Hh). rewrite Hto. simpl.
  pose proof (Hz _ _ Hto) as Hwf.
  case_bool_decide as Hcase.
  - destruct Hcase as [Hmore Hkey].
    exists None. split_and!; [done|done| |].
    + intros. unfold focused_value. simpl. by rewrite decide_True.
    + intros m key2 v2 len path_out Hne [= <-]. unfold focused_value. simpl.
      rewrite Hmore, Hkey. by rewrite !decide_False.
  - eexists. split_and!; [done| | |].
    + intros bucket [= <-]. split_and!.
      * apply zm_set_nonempty.
      * apply zm_set_sorted. destruct (more to) as [b|] eqn:Hb.
        -- by apply (wf_more _ _ Hwf).
        -- simpl. repeat constructor.
      * intros kv Hkv.
        apply zm_set_elem in Hkv as [->|[Hkv|(_ & _ & ->)]]; [done| |done].
        destruct (more to) as [b|] eqn:Hb.
        -- rewrite <- Hh. by apply (wf_more _ _ Hwf b).
        -- simpl in Hkv. apply list_elem_of_singleton in Hkv as ->. simpl.
           rewrite <- Hh. symmetry. apply Hwf.
    + intros. unfold focused_value. simpl. by rewrite zm_find_set_eq.
    + intros m key2 v2 len path_out Hne [= <-]. unfold focused_value at 1.
      cbn [more new_tree]. rewrite zm_find_set_ne; [|done|].
      * unfold focused_value. destruct (more to) as [b|] eqn:Hb; [done|].
        rewrite single_bucket_find. by case_decide.
      * destruct (more to) as [b|] eqn:Hb.
        -- by apply (wf_more _ _ Hwf).
        -- simpl. repeat constructor.
Qed.

Lemma new_tree_wf zone key value len more path_out :
  (len ≤ 32)%nat → List.length path_out = 32%nat →
  (∀ bucket, more = Some bucket → bucket_ok (hash_of key) bucket) →
  (∀ i c, (i < len)%nat → path_out !! i = Some (Some c) →
     ∃ tc, zone !! c = Some tc ∧ same_prefix i (key_hash tc) (hash_of key) ∧
           hash_bit (key_hash tc) i ≠ hash_bit (hash_of key) i) →
  wf_node zone (new_tree key value len more path_out).
Proof.
  intros Hlen Hpath Hmore Hside. split; simpl.
  - done.
  - rewrite to_int8_small by lia. rewrite length_take. lia.
  - rewrite length_take. lia.
  - intros i c Hc. apply lookup_take_Some in Hc as [Hc Hi]. by apply Hside.
  - done.
Qed.

(** What [Add] does on a well-formed zone: nothing when the key is bound
    to the value already; otherwise it allocates one node, the new root. *)
Lemma Add_spec zone m key value :
  wf_zone zone → wf_map zone m →
  ∃ cur, Get zone m key = Some cur ∧
    ((cur = value ∧ Add zone m key value = Some (zone, m)) ∨
     (cur ≠ value ∧
      ∃ t, Add zone m key value =
             Some (zone ++ [t],
                   {| tree_ := Some (List.length zone);
                      def_value_ := def_value_ m |}) ∧
           wf_node zone t ∧ key_hash t = hash_of key ∧
           focused_value (def_value_ m) t key = value ∧
           ∀ key2 v2, key2 ≠ key → Get zone m key2 = Some v2 →
             Get (zone ++ [t])
                 {| tree_ := Some (List.length zone);
                    def_value_ := def_value_ m |} key2 = Some v2)).
Proof.
  intros Hz Hm.
  destruct (FindHash_path_spec zone m (hash_of key) Hz Hm (hash_of_in_range _))
    as (old & path' & len & Hfp & Hf & Hlen & Hpl & Hold & Hside & Hc & Hd).
  assert (∃ cur, GetFocusedValue zone m old key = Some cur) as [cur Hcur].
  { destruct old as [a|]; simpl; [|by eauto].
    destruct (Hold a eq_refl) as (t & -> & _). simpl. eauto. }
  exists cur. split.
  { unfold Get. fold (hash_of key). by rewrite Hf. }
  unfold Add. fold (hash_of key). rewrite Hfp. simpl. rewrite Hcur. simpl.
  case_decide as Hv; [by left|right]. split; [done|].
  destruct (new_more_spec zone old key value Hz Hold)
    as (more & -> & Hbucket & Hfocus & Hother).
  simpl. fold (new_tree key value len more path').
  set (t := new_tree key value len more path').
  exists t. split_and!; [done| |done|apply Hfocus|].
  { by apply new_tree_wf. }
  intros key2 v2 Hne Hget2. unfold Get in *. fold (hash_of key2) in *.
  assert ((zone ++ [t]) !! List.length zone = Some t) as Hnew
    by (by apply list_lookup_middle).
  rewrite FindHash_find_from. simpl. rewrite find_from_unfold.
  rewrite Hnew. simpl.
  destruct (FindHash zone m (hash_of key2)) as [r|] eqn:Hr; [|done].
  simpl in Hget2.
  destruct (hash_eq (hash_of key2) (hash_of key)) eqn:Heq.
  - apply hash_eq_true in Heq. simpl. rewrite Hnew.
    simpl. f_equal. apply Hother; [done|].
    rewrite Heq, Hf in Hr. by injection Hr as ->.
  - apply hash_eq_false in Heq.
    destruct (first_diff_total (hash_of key2) (hash_of key) 0) as [j Hj];
      [apply hash_of_in_range..|done|intros i Hi; lia|].
    rewrite Hj. simpl. apply first_diff_bits in Hj as (Hjr & Hjb & Hjd).
    assert (same_prefix j (hash_of key2) (hash_of key)) as Hpre.
    { intros i Hi. apply Hjb. lia. }
    assert (GetFocusedValue (zone ++ [t])
              {| tree_ := Some (List.length zone); def_value_ := def_value_ m |}
              r key2 = Some v2) as Hget'.
    { by apply (GetFocusedValue_app zone [t] m). }
    unfold path_or_null, path. simpl. rewrite to_int8_small by lia.
    case_match eqn:Hlt.
    + apply Z.ltb_lt in Hlt.
      destruct (Hc (hash_of key2) j) as (p & Hp & Hfind); [lia|done|done|].
      rewrite lookup_take_lt by lia. rewrite Hp. simpl.
      rewrite Hr in Hfind. by rewrite (find_from_app _ _ _ _ _ _ Hfind).
    + apply Z.ltb_ge in Hlt. simpl. rewrite find_from_null. simpl.
      rewrite Hd in Hr; [|apply hash_of_in_range|done|].
      * by injection Hr as <-.
      * eapply same_prefix_le; [|done]. lia.
Qed.

(** ** Reachable states are well formed *)

Lemma Add_wf zone m key value zone' m' :
  wf_zone zone → wf_map zone m → Add zone m key value = Some (zone', m') →
  wf_zone zone' ∧ wf_map zone' m' ∧ ∃ ext, zone' = zone ++ ext.
Proof.
  intros Hz Hm HA.
  destruct (Add_spec zone m key value Hz Hm)
    as (cur & _ & [[_ HA']|(_ & t & HA' & Hwf & _)]);
    rewrite HA' in HA; injection HA as <- <-.
  - split_and!; [done|done|]. exists []. by rewrite app_nil_r.
  - split_and!; [by apply wf_zone_alloc| |by eexists].
    intros a [= <-]. exists t. by apply list_lookup_middle.
Qed.

Lemma reachable_wf zone maps :
  reachable zone maps → wf_zone zone ∧ ∀ m, m ∈ maps → wf_map zone m.
Proof.
  induction 1 as [|zone maps def_value _ [IHz IHm]
                  |zone maps m key value zone' m' _ [IHz IHm] Hin HA].
  - split; [intros a t Ha; by rewrite lookup_nil in Ha|].
    intros m Hm. by apply elem_of_nil in Hm.
  - split; [done|]. intros m [->|Hm]%elem_of_cons; [|by apply IHm].
    intros a Ha. done.
  - destruct (Add_wf _ _ _ _ _ _ IHz (IHm _ Hin) HA) as (Hz' & Hm' & ext & ->).
    split; [done|]. intros m0 [->|Hm0]%elem_of_cons; [done|].
    apply wf_map_app. by apply IHm.
Qed.

Lemma node_of_wf zone root a :
  wf_zone zone → (∀ r, root = Some r → is_Some (zone !! r)) →
  node_of zone root a → is_Some (zone !! a).
Proof.
  intros Hz Hroot. induction 1 as [a|root a t i c _ IH Ht Hi Hc].
  - by apply Hroot.
  - destruct (wf_side _ _ (Hz _ _ Ht) i c Hc) as (tc & Htc & _). by exists tc.
Qed.

(** ** The leaves of a tree *)

Lemma leaves_at_null zone level : leaves_at zone None level = [].
Proof. unfold leaves_at. by destruct (32 - level)%nat. Qed.

Lemma leaves_at_unfold zone a t level :
  zone !! a = Some t → wf_node zone t →
  leaves_at zone (Some a) level =
    if Z.of_nat level <? length t then
      let side := default None (path t level) in
      match hash_bit (key_hash t) level with
      | kLeft => leaves_at zone (Some a) (S level) ++ leaves_at zone side (S level)
      | kRight => leaves_at zone side (S level) ++ leaves_at zone (Some a) (S level)
      end
    else [a].
Proof.
  intros Ht Hwf. unfold leaves_at.
  pose proof (wf_length _ _ Hwf). pose proof (wf_length_max _ _ Hwf).
  destruct (Z.of_nat level <? length t) eqn:Hlt.
  - apply Z.ltb_lt in Hlt.
    replace (32 - level)%nat with (S (32 - S level)) by lia.
    simpl. rewrite Ht. by rewrite (proj2 (Z.ltb_lt _ _) Hlt).
  - destruct (32 - level)%nat; simpl; by rewrite Ht, Hlt.
Qed.

Lemma hash_at_lookup zone a t : zone !! a = Some t → hash_at zone a = key_hash t.
Proof. unfold hash_at. by intros ->. Qed.

Lemma wf_side_lookup zone t level c :
  wf_node zone t → default None (path t level) = Some c →
  ∃ tc, zone !! c = Some tc ∧ same_prefix level (key_hash tc) (key_hash t) ∧
        hash_bit (key_hash tc) level ≠ hash_bit (key_hash t) level.
Proof.
  intros Hwf Hc. unfold path in Hc.
  destruct (path_array t !! level) as [p|] eqn:Hp; simpl in Hc; [|done].
  subst p. by apply (wf_side _ _ Hwf).
Qed.

(** Every leaf below a node seen at [level] is a node of the zone and
    shares the first [level] hash bits with it. *)
Lemma leaves_prefix zone c tc level b :
  wf_zone zone → zone !! c = Some tc → (level ≤ 32)%nat →
  b ∈ leaves_at zone (Some c) level →
  ∃ tb, zone !! b = Some tb ∧ same_prefix level (key_hash tb) (key_hash tc).
Proof.
  intros Hz. remember (32 - level)%nat as n eqn:Hn.
  revert b c tc level Hn. induction n as [|n IH]; intros b c tc level Hn Htc Hl.
  - assert (level = 32%nat) as -> by lia.
    rewrite (leaves_at_unfold _ _ _ _ Htc (Hz _ _ Htc)).
    pose proof (wf_length _ _ (Hz _ _ Htc)).
    pose proof (wf_length_max _ _ (Hz _ _ Htc)).
    rewrite (proj2 (Z.ltb_ge _ _)) by lia.
    intros ->%list_elem_of_singleton. exists tc. split; [done|].
    apply same_prefix_refl.
  - rewrite (leaves_at_unfold _ _ _ _ Htc (Hz _ _ Htc)).
    case_match eqn:Hlt.
    2:{ intros ->%list_elem_of_singleton. exists tc. split; [done|].
        apply same_prefix_refl. }
    assert (∀ b, b ∈ leaves_at zone (Some c) (S level) →
              ∃ tb, zone !! b = Some tb ∧
                    same_prefix level (key_hash tb) (key_hash tc)) as Hself.
    { intros b' Hb'. destruct (IH b' c tc (S level))
        as (tb & ? & Hp); [lia|done|lia|done|].
      exists tb. split; [done|]. eapply same_prefix_le; [|done]. lia. }
    assert (∀ b, b ∈ leaves_at zone (default None (path tc level)) (S level) →
              ∃ tb, zone !! b = Some tb ∧
                    same_prefix level (key_hash tb) (key_hash tc)) as Hside.
    { intros b' Hb'.
      destruct (default None (path tc level)) as [s|] eqn:Hs;
        [|by rewrite leaves_at_null in Hb'; apply elem_of_nil in Hb'].
      destruct (wf_side_lookup _ _ _ _ (Hz _ _ Htc) Hs) as (ts & Hts & Hps & _).
      destruct (IH b' s ts (S level))
        as (tb & ? & Hp); [lia|done|lia|done|].
      exists tb. split; [done|].
      eapply same_prefix_trans; [|done].
      eapply same_prefix_le; [|done]. lia. }
    simpl. destruct (hash_bit (key_hash tc) level);
      intros [?|?]%elem_of_app; eauto.
Qed.

Lemma leaves_self zone c tc level :
  wf_zone zone → zone !! c = Some tc → c ∈ leaves_at zone (Some c) level.
Proof.
  intros Hz Htc. remember (32 - level)%nat as n eqn:Hn.
  revert level Hn. induction n as [|n IH]; intros level Hn.
  - rewrite (leaves_at_unfold _ _ _ _ Htc (Hz _ _ Htc)).
    pose proof (wf_length _ _ (Hz _ _ Htc)).
    pose proof (wf_length_max _ _ (Hz _ _ Htc)).
    rewrite (proj2 (Z.ltb_ge _ _)) by lia. by left.
  - rewrite (leaves_at_unfold _ _ _ _ Htc (Hz _ _ Htc)).
    case_match; [|by left]. simpl.
    destruct (hash_bit (key_hash tc) level); apply elem_of_app;
      [left|right]; apply IH; lia.
Qed.

(** The leaves are in strictly increasing hash order. *)
Lemma leaves_sorted zone c tc level :
  wf_zone zone → zone !! c = Some tc → (level ≤ 32)%nat →
  StronglySorted (leaf_lt zone) (leaves_at zone (Some c) level).
Proof.
  intros Hz. remember (32 - level)%nat as n eqn:Hn.
  revert c tc level Hn. induction n as [|n IH]; intros c tc level Hn Htc Hl.
  - assert (level = 32%nat) as -> by lia.
    rewrite (leaves_at_unfold _ _ _ _ Htc (Hz _ _ Htc)).
    pose proof (wf_length _ _ (Hz _ _ Htc)).
    pose proof (wf_length_max _ _ (Hz _ _ Htc)).
    rewrite (proj2 (Z.ltb_ge _ _)) by lia. repeat constructor.
  - rewrite (leaves_at_unfold _ _ _ _ Htc (Hz _ _ Htc)).
    case_match eqn:Hlt; [|repeat constructor]. simpl.
    assert (StronglySorted (leaf_lt zone) (leaves_at zone (Some c) (S level)))
      as Hs1 by (eapply IH; [lia|done|lia]).
    destruct (default None (path tc level)) as [s|] eqn:Hs.
    2:{ rewrite leaves_at_null.
        destruct (hash_bit (key_hash tc) level); by rewrite ?app_nil_r. }
    destruct (wf_side_lookup _ _ _ _ (Hz _ _ Htc) Hs) as (ts & Hts & Hps & Hbs).
    assert (StronglySorted (leaf_lt zone) (leaves_at zone (Some s) (S level)))
      as Hs2 by (eapply IH; [lia|done|lia]).
    assert (∀ x y, x ∈ leaves_at zone (Some c) (S level) →
                   y ∈ leaves_at zone (Some s) (S level) →
              ∃ tx ty, zone !! x = Some tx ∧ zone !! y = Some ty ∧
                same_prefix level (key_hash tx) (key_hash ty) ∧
                hash_bit (key_hash tx) level = hash_bit (key_hash tc) level ∧
                hash_bit (key_hash ty) level = hash_bit (key_hash ts) level)
      as Hcross.
    { intros x y Hx Hy.
      destruct (leaves_prefix zone c tc (S level) x Hz Htc ltac:(lia) Hx)
        as (tx & Htx & [Hpx Hbx]%same_prefix_S).
      destruct (leaves_prefix zone s ts (S level) y Hz Hts ltac:(lia) Hy)
        as (ty & Hty & [Hpy Hby]%same_prefix_S).
      exists tx, ty. split_and!; [done|done| |done|done].
      eapply same_prefix_trans; [done|]. apply same_prefix_sym.
      by eapply same_prefix_trans. }
    destruct (hash_bit (key_hash tc) level) eqn:Hb;
      apply StronglySorted_app; (split_and!; [|done|done]).
    + intros x y Hx Hy.
      destruct (Hcross x y Hx Hy) as (tx & ty & Htx & Hty & Hp & Hbx & Hby).
      unfold leaf_lt. rewrite (hash_at_lookup _ _ _ Htx), (hash_at_lookup _ _ _ Hty).
      eapply (hash_lt_of_prefix level); [by eapply wf_in_range, Hz..|lia|done|done|].
      rewrite Hby. by destruct (hash_bit (key_hash ts) level).
    + intros y x Hy Hx.
      destruct (Hcross x y Hx Hy) as (tx & ty & Htx & Hty & Hp & Hbx & Hby).
      unfold leaf_lt. rewrite (hash_at_lookup _ _ _ Htx), (hash_at_lookup _ _ _ Hty).
      eapply (hash_lt_of_prefix level); [by eapply wf_in_range, Hz..|lia| | |done].
      * by apply same_prefix_sym.
      * rewrite Hby. by destruct (hash_bit (key_hash ts) level).
Qed.

(** [FindHash] finds the leaf with the hash searched for, if there is
    one. *)
Lemma find_from_leaves n zone h c tc level :
  wf_zone zone → zone !! c = Some tc → in_range h →
  (32 - level ≤ n)%nat → (level ≤ 32)%nat →
  same_prefix level h (key_hash tc) →
  ∃ r, find_from zone h (Some c) level = Some r ∧
    match r with
    | Some a => a ∈ leaves_at zone (Some c) level ∧ hash_at zone a = h
    | None => ∀ a, a ∈ leaves_at zone (Some c) level → hash_at zone a ≠ h
    end.
Proof.
  intros Hz. revert c tc level.
  induction n as [|n IH]; intros c tc level Htc Rh Hn Hl Hp;
    pose proof (Hz _ _ Htc) as Hwf;
    pose proof (wf_length _ _ Hwf) as Hlen;
    pose proof (wf_length_max _ _ Hwf) as Hmax.
  - assert (level = 32%nat) as -> by lia.
    rewrite (same_prefix_32_eq h (key_hash tc)); [|done|by eapply wf_in_range|done].
    exists (Some c). rewrite find_from_unfold, Htc. simpl.
    rewrite (proj2 (hash_eq_true _ _) eq_refl). split; [done|].
    split; [by eapply leaves_self|by apply hash_at_lookup].
  - destruct (decide (h = key_hash tc)) as [->|Hne].
    { exists (Some c). rewrite find_from_unfold, Htc. simpl.
      rewrite (proj2 (hash_eq_true _ _) eq_refl). split; [done|].
      split; [by eapply leaves_self|by apply hash_at_lookup]. }
    destruct (first_diff_total h (key_hash tc) level) as [j Hj];
      [done|by eapply wf_in_range|done|done|].
    pose proof Hj as Hj'. apply first_diff_bits in Hj' as (Hjr & Hjb & Hjd).
    assert (∀ a, a ∈ leaves_at zone (Some c) (S level) →
              hash_bit (hash_at zone a) level = hash_bit (key_hash tc) level)
      as Hown.
    { intros a Ha.
      destruct (leaves_prefix zone c tc (S level) a Hz Htc ltac:(lia) Ha)
        as (ta & Hta & [_ Hba]%same_prefix_S).
      by rewrite (hash_at_lookup _ _ _ Hta). }
    assert (∀ s a, default None (path tc level) = Some s →
              a ∈ leaves_at zone (Some s) (S level) →
              hash_bit (hash_at zone a) level ≠ hash_bit (key_hash tc) level)
      as Hside.
    { intros s a Hs Ha.
      destruct (wf_side_lookup _ _ _ _ Hwf Hs) as (ts & Hts & Hps & Hbs).
      destruct (leaves_prefix zone s ts (S level) a Hz Hts ltac:(lia) Ha)
        as (ta & Hta & [_ Hba]%same_prefix_S).
      rewrite (hash_at_lookup _ _ _ Hta). congruence. }
    rewrite (leaves_at_unfold _ _ _ _ Htc Hwf).
    destruct (decide (j = level)) as [->|Hjl].
    + (* the search leaves the focused path at this level *)
      rewrite find_from_unfold, Htc. simpl.
      rewrite (proj2 (hash_eq_false _ _) Hne), Hj. simpl.
      unfold path_or_null. destruct (Z.of_nat level <? length tc) eqn:Hlt.
      2:{ simpl. rewrite find_from_null. exists None. split; [done|].
          intros a ->%list_elem_of_singleton.
          by rewrite (hash_at_lookup _ _ _ Htc). }
      apply Z.ltb_lt in Hlt. unfold path.
      destruct (lookup_lt_is_Some_2 (path_array tc) level ltac:(lia)) as [p Hp'].
      rewrite Hp'. simpl.
      assert (∀ a, a ∈ leaves_at zone (Some c) (S level) → hash_at zone a ≠ h)
        as Hnot.
      { intros a Ha <-. apply Hjd. by apply Hown. }
      destruct p as [s|].
      2:{ rewrite find_from_null. exists None. split; [done|].
          rewrite leaves_at_null.
          destruct (hash_bit (key_hash tc) level);
            rewrite ?app_nil_r, ?app_nil_l; done. }
      destruct (wf_side _ _ Hwf _ _ Hp') as (ts & Hts & Hps & Hbs).
      destruct (IH s ts (S level)) as (r & -> & Hr); [done|done|lia|lia| |].
      { apply same_prefix_S. split.
        - eapply same_prefix_trans; [done|]. by apply same_prefix_sym.
        - by eapply Bit_ne_flip. }
      exists r. split; [done|]. destruct r as [a|].
      * destruct Hr as [Ha ?]. split; [|done].
        destruct (hash_bit (key_hash tc) level); apply elem_of_app; eauto.
      * intros a Ha. destruct (hash_bit (key_hash tc) level);
          apply elem_of_app in Ha as [Ha|Ha]; eauto.
    + (* the search stays on the focused path *)
      rewrite (find_from_same_side _ _ _ tc level (S level)); [|done|lia|].
      2:{ intros i Hi. apply Hjb. lia. }
      assert (hash_bit h level = hash_bit (key_hash tc) level) as Hbl
        by (apply Hjb; lia).
      destruct (IH c tc (S level)) as (r & -> & Hr); [done|done|lia|lia| |].
      { by apply same_prefix_S. }
      exists r. split; [done|].
      destruct (Z.of_nat level <? length tc) eqn:Hlt.
      2:{ apply Z.ltb_ge in Hlt.
          rewrite (leaves_at_unfold _ _ _ _ Htc Hwf) in Hr.
          by rewrite (proj2 (Z.ltb_ge _ _)) in Hr by lia. }
      simpl. destruct r as [a|].
      * destruct Hr as [Ha ?]. split; [|done].
        destruct (hash_bit (key_hash tc) level); apply elem_of_app; eauto.
      * intros a Ha.
        assert (a ∈ leaves_at zone (Some c) (S level) ∨
                a ∈ leaves_at zone (default None (path tc level)) (S level))
          as [Ha'|Ha'].
        { destruct (hash_bit (key_hash tc) level);
            apply elem_of_app in Ha as [Ha|Ha]; eauto. }
        -- by apply Hr.
        -- destruct (default None (path tc level)) as [s|] eqn:Hs;
             [|by rewrite leaves_at_null in Ha'; apply elem_of_nil in Ha'].
           intros <-. by eapply Hside.
Qed.

(** ** FindLeftmost *)

Lemma pending_ext zone h h' path_a path_b level :
  same_prefix level h h' →
  (∀ i, (i < level)%nat → path_a !! i = path_b !! i) →
  pending zone h path_a level = pending zone h' path_b level.
Proof.
  induction level as [|l IH]; intros Hp Hpath; cbn [pending]; [done|].
  apply same_prefix_S in Hp as [Hp Hb].
  rewrite Hb, (Hpath l) by lia. f_equal. apply IH; [done|].
  intros i Hi. apply Hpath. lia.
Qed.

Lemma GetChild_same zone c tc level :
  zone !! c = Some tc →
  GetChild zone c level (hash_bit (key_hash tc) level) = Some (Some c).
Proof. intros Htc. unfold GetChild. rewrite Htc. simpl. by rewrite decide_True. Qed.

Lemma GetChild_other zone c tc level bit :
  zone !! c = Some tc → hash_bit (key_hash tc) level ≠ bit →
  GetChild zone c level bit = path_or_null tc level.
Proof. intros Htc Hb. unfold GetChild. rewrite Htc. simpl. by rewrite decide_False. Qed.

Lemma FindLeftmost_unfold n zone c tc level path_in :
  zone !! c = Some tc →
  FindLeftmost (S n) zone (Some c) level path_in =
    if Z.of_nat level <? length tc then
      l ← GetChild zone c level kLeft;
      r ← GetChild zone c level kRight;
      match l, r with
      | Some child, _ =>
          FindLeftmost n zone (Some child) (S level) (<[level := r]> path_in)
      | None, Some child =>
          FindLeftmost n zone (Some child) (S level) (<[level := l]> path_in)
      | None, None => None
      end
    else Some (c, level, path_in).
Proof. intros Htc. simpl. by rewrite Htc. Qed.

Lemma FindLeftmost_spec zone c tc level path_in :
  wf_zone zone → zone !! c = Some tc → (level ≤ 32)%nat →
  List.length path_in = 32%nat →
  ∃ b tb L path' rest,
    FindLeftmost (32 - level) zone (Some c) level path_in = Some (b, L, path') ∧
    zone !! b = Some tb ∧ (level ≤ L ≤ 32)%nat ∧ List.length path' = 32%nat ∧
    (∀ i, (i < level)%nat → path' !! i = path_in !! i) ∧
    same_prefix level (key_hash tb) (key_hash tc) ∧
    leaves_at zone (Some c) level = b :: rest ∧
    pending zone (key_hash tb) path' L =
      rest ++ pending zone (key_hash tb) path' level ∧
    (∀ i c', (level ≤ i < L)%nat → hash_bit (key_hash tb) i = kLeft →
       path' !! i = Some (Some c') →
       ∃ tc', zone !! c' = Some tc' ∧
              same_prefix i (key_hash tc') (key_hash tb) ∧
              hash_bit (key_hash tc') i = kRight).
Proof.
  intros Hz. remember (32 - level)%nat as n eqn:Hn.
  revert c tc level path_in Hn.
  induction n as [|n IH]; intros c tc level path_in Hn Htc Hl Hlen;
    pose proof (Hz _ _ Htc) as Hwf;
    pose proof (wf_length _ _ Hwf) as Hlent;
    pose proof (wf_length_max _ _ Hwf) as Hmax;
    rewrite (leaves_at_unfold _ _ _ _ Htc Hwf).
  - simpl. rewrite Htc. simpl.
    rewrite (proj2 (Z.ltb_ge _ _)) by lia.
    exists c, tc, level, path_in, [].
    split_and!; try done; try lia; try apply same_prefix_refl; intros; lia.
  - rewrite (FindLeftmost_unfold _ _ _ tc) by done.
    destruct (Z.of_nat level <? length tc) eqn:Hlt.
    2:{ exists c, tc, level, path_in, [].
        split_and!; try done; try lia; try apply same_prefix_refl;
          intros; lia. }
    apply Z.ltb_lt in Hlt.
    destruct (lookup_lt_is_Some_2 (path_array tc) level ltac:(lia)) as [p Hp].
    assert (path_or_null tc level = Some p) as Hpn.
    { unfold path_or_null, path. by rewrite (proj2 (Z.ltb_lt _ _) Hlt). }
    assert (default None (path tc level) = p) as Hside
      by (unfold path; by rewrite Hp).
    rewrite Hside. cbn zeta.
    pose proof (GetChild_same _ _ _ level Htc) as Hsame.
    destruct (hash_bit (key_hash tc) level) eqn:Hb.
    + (* the focused path goes left *)
      rewrite Hsame, (GetChild_other _ _ tc) by (done || congruence).
      rewrite Hpn. simpl.
      destruct (IH c tc (S level) (<[level := p]> path_in))
        as (b & tb & L & path' & rest & -> & Htb & HL & Hlen' & Hlow & Hpre
            & -> & Hpend & Hinv);
        [lia|done|lia|by rewrite length_insert|].
      apply same_prefix_S in Hpre as [Hpre Hbit].
      assert (path' !! level = Some p) as Hlev.
      { rewrite Hlow by lia. apply list_lookup_insert_eq. lia. }
      exists b, tb, L, path', (rest ++ leaves_at zone p (S level)).
      split_and!; try done; try lia.
      * intros i Hi. rewrite Hlow by lia. apply list_lookup_insert_ne. lia.
      * rewrite Hpend. simpl. rewrite Hbit, Hb, Hlev. simpl.
        by rewrite app_assoc.
      * intros i c' Hi Hbi Hc'. destruct (decide (i = level)) as [->|].
        -- rewrite Hlev in Hc'. injection Hc' as ->.
           destruct (wf_side _ _ Hwf _ _ Hp) as (tc' & Htc' & Hpc' & Hbc').
           exists tc'. split_and!; [done| |].
           ++ eapply same_prefix_trans; [done|]. by apply same_prefix_sym.
           ++ rewrite Hb in Hbc'. by destruct (hash_bit (key_hash tc') level).
        -- apply Hinv; [lia|done|done].
    + (* the focused path goes right *)
      rewrite Hsame, (GetChild_other _ _ tc) by (done || congruence).
      rewrite Hpn. simpl.
      destruct p as [s|].
      * destruct (wf_side _ _ Hwf _ _ Hp) as (ts & Hts & Hps & Hbs).
        destruct (IH s ts (S level) (<[level := Some c]> path_in))
          as (b & tb & L & path' & rest & -> & Htb & HL & Hlen' & Hlow & Hpre
              & -> & Hpend & Hinv);
          [lia|done|lia|by rewrite length_insert|].
        apply same_prefix_S in Hpre as [Hpre Hbit].
        assert (path' !! level = Some (Some c)) as Hlev.
        { rewrite Hlow by lia. apply list_lookup_insert_eq. lia. }
        assert (hash_bit (key_hash tb) level = kLeft) as Hbl.
        { rewrite Hbit. rewrite Hb in Hbs.
          by destruct (hash_bit (key_hash ts) level). }
        assert (same_prefix level (key_hash tb) (key_hash tc)) as Hptc
          by (by eapply same_prefix_trans).
        exists b, tb, L, path', (rest ++ leaves_at zone (Some c) (S level)).
        split_and!; try done; try lia.
        -- intros i Hi. rewrite Hlow by lia. apply list_lookup_insert_ne. lia.
        -- rewrite Hpend. simpl. rewrite Hbl, Hlev. simpl.
           by rewrite app_assoc.
        -- intros i c' Hi Hbi Hc'. destruct (decide (i = level)) as [->|].
           ++ rewrite Hlev in Hc'. injection Hc' as <-.
              exists tc. split_and!; [done|by apply same_prefix_sym|done].
           ++ apply Hinv; [lia|done|done].
      * destruct (IH c tc (S level) (<[level := None]> path_in))
          as (b & tb & L & path' & rest & -> & Htb & HL & Hlen' & Hlow & Hpre
              & Hleaves & Hpend & Hinv);
          [lia|done|lia|by rewrite length_insert|].
        apply same_prefix_S in Hpre as [Hpre Hbit].
        rewrite leaves_at_null. simpl.
        exists b, tb, L, path', rest.
        split_and!; try done; try lia.
        -- intros i Hi. rewrite Hlow by lia. apply list_lookup_insert_ne. lia.
        -- rewrite Hpend. simpl. by rewrite Hbit, Hb.
        -- intros i c' Hi Hbi Hc'. destruct (decide (i = level)) as [->|].
           ++ congruence.
           ++ apply Hinv; [lia|done|done].
Qed.

(** ** operator++ *)

Lemma pop_levels_unfold h path_in level :
  pop_levels h path_in level =
    let skip :=
      match level with
      | O => Some None
      | S level' => pop_levels h path_in level'
      end in
    if decide (hash_bit h level = kRight) then skip
    else
      p ← path_in !! level;
      match p with
      | None => skip
      | Some _ => Some (Some level)
      end.
Proof. by destruct level. Qed.

Lemma pop_levels_spec zone h path_in l :
  List.length path_in = 32%nat → (l < 32)%nat →
  ∃ found, pop_levels h path_in l = Some found ∧
    match found with
    | None => pending zone h path_in (S l) = []
    | Some i =>
        (i ≤ l)%nat ∧ hash_bit h i = kLeft ∧
        ∃ c, path_in !! i = Some (Some c) ∧
             pending zone h path_in (S l) =
               leaves_at zone (Some c) (S i) ++ pending zone h path_in i
    end.
Proof.
  intros Hlen. induction l as [|l IH]; intros Hl.
  - rewrite pop_levels_unfold. cbn zeta. cbn [pending].
    case_decide as Hb.
    + exists None. by rewrite Hb.
    + destruct (lookup_lt_is_Some_2 path_in 0 ltac:(lia)) as [p Hp].
      rewrite Hp. simpl. destruct (hash_bit h 0) eqn:Hb'; [|done].
      destruct p as [c|].
      * exists (Some 0%nat). split_and!; [done|done|done|].
        by exists c.
      * exists None. split; [done|]. cbn [default from_option id].
        by rewrite leaves_at_null.
  - destruct (IH ltac:(lia)) as (found & Hfound & Hspec).
    rewrite pop_levels_unfold. cbn zeta. cbn [pending].
    assert (∃ found', pop_levels h path_in l = Some found' ∧
              match found' with
              | None => [] ++ pending zone h path_in (S l) = []
              | Some i =>
                  (i ≤ S l)%nat ∧ hash_bit h i = kLeft ∧
                  ∃ c, path_in !! i = Some (Some c) ∧
                       [] ++ pending zone h path_in (S l) =
                         leaves_at zone (Some c) (S i) ++ pending zone h path_in i
              end) as Hskip.
    { exists found. split; [done|]. destruct found as [i|]; [|done].
      destruct Hspec as (? & ? & ?). split_and!; [lia|done|done]. }
    case_decide as Hb.
    + rewrite Hb. done.
    + destruct (lookup_lt_is_Some_2 path_in (S l) ltac:(lia)) as [p Hp].
      rewrite Hp. cbn [mbind option_bind].
      destruct (hash_bit h (S l)) eqn:Hb'; [|done].
      destruct p as [c|].
      * exists (Some (S l)). split_and!; [done|done|done|].
        exists c. split; [done|]. cbn [default from_option id]. done.
      * cbn [default from_option id]. by rewrite leaves_at_null.
Qed.

Lemma entries_of_cons zone b tb l :
  zone !! b = Some tb → entries_of zone (b :: l) = entries tb ++ entries_of zone l.
Proof. intros Hb. unfold entries_of. simpl. by rewrite Hb. Qed.

(** The move of [operator++] to the next leaf, from an iterator whose
    current leaf is exhausted. *)
Lemma next_leaf_spec zone it a t l :
  wf_zone zone → it_ok zone it → current_ it = Some a → zone !! a = Some t →
  level_ it = S l →
  ∃ found, pop_levels (key_hash t) (path_ it) l = Some found ∧
    match found with
    | None => pending zone (key_hash t) (path_ it) (S l) = []
    | Some i =>
        ∃ c b tb L path',
          path_ it !! i = Some (Some c) ∧
          FindLeftmost (Z.to_nat kHashBits - S i) zone (Some c) (S i) (path_ it)
            = Some (b, L, path') ∧
          zone !! b = Some tb ∧
          entries_of zone (pending zone (key_hash t) (path_ it) (S l)) =
            entries tb ++ entries_of zone (pending zone (key_hash tb) path' L) ∧
          ∀ mi,
            (∀ bucket, more tb = Some bucket → (mi < List.length bucket)%nat) →
            it_ok zone {| level_ := L; more_iter_ := mi; current_ := Some b;
                          path_ := path'; it_def_value_ := it_def_value_ it |}
    end.
Proof.
  intros Hz Hok Ha Ht Hlevel.
  destruct (Hok a Ha) as (t' & Ht' & Hlen & Hle & Hmi & Hinv).
  rewrite Ht in Ht'. injection Ht' as <-. rewrite Hlevel in *.
  destruct (pop_levels_spec zone (key_hash t) (path_ it) l Hlen ltac:(lia))
    as (found & Hfound & Hspec).
  exists found. split; [done|]. destruct found as [i|]; [|done].
  destruct Hspec as (Hi & Hbi & c & Hc & Hpend).
  destruct (Hinv i c ltac:(lia) Hbi Hc) as (tc & Htc & Hptc & Hbtc).
  destruct (FindLeftmost_spec zone c tc (S i) (path_ it) Hz Htc ltac:(lia) Hlen)
    as (b & tb & L & path' & rest & HFL & Htb & HL & Hlen' & Hlow & Hpre
        & Hleaves & Hpend' & Hinv').
  exists c, b, tb, L, path'. split_and!; [done|done|done| |].
  - rewrite Hpend, Hleaves, <- app_comm_cons, (entries_of_cons _ _ _ _ Htb).
    f_equal. f_equal. rewrite Hpend'. f_equal. cbn [pending].
    apply same_prefix_S in Hpre as [Hpre Hbit].
    rewrite Hbit, Hbtc. simpl. symmetry. apply pending_ext.
    + eapply same_prefix_trans; [done|done].
    + intros j Hj. apply Hlow. lia.
  - intros mi Hmi' ? [= <-]. exists tb. simpl.
    split_and!; [done|done|lia|done|].
    apply same_prefix_S in Hpre as [Hpre Hbit].
    assert (same_prefix i (key_hash tb) (key_hash t)) as Hpt
      by (by eapply same_prefix_trans).
    intros j c' Hj Hbj Hc'.
    destruct (decide (j < i)%nat) as [Hji|Hji];
      [|destruct (decide (j = i)) as [->|Hji']].
    + rewrite Hlow in Hc' by lia. rewrite (Hpt j Hji) in Hbj.
      destruct (Hinv j c' ltac:(lia) Hbj Hc') as (tc' & Htc' & Hp' & Hb').
      exists tc'. split_and!; [done| |done].
      eapply same_prefix_trans; [done|]. apply same_prefix_sym.
      eapply same_prefix_le; [|done]. lia.
    + congruence.
    + apply Hinv'; [lia|done|done].
Qed.

Lemma cur_entries_deref zone it a t :
  wf_zone zone → it_ok zone it → current_ it = Some a → zone !! a = Some t →
  ∃ kv, deref zone it = Some kv ∧ hash_of kv.1 = key_hash t ∧
    cur_entries it t =
      kv :: match more t with
            | Some bucket => drop (S (more_iter_ it)) bucket
            | None => []
            end.
Proof.
  intros Hz Hok Ha Ht. destruct (Hok a Ha) as (t' & Ht' & _ & _ & Hmi & _).
  rewrite Ht in Ht'. injection Ht' as <-.
  unfold deref, cur_entries. rewrite Ha. simpl. rewrite Ht. simpl.
  pose proof (wf_more _ _ (Hz _ _ Ht)) as Hmore.
  destruct (more t) as [bucket|].
  - destruct (lookup_lt_is_Some_2 bucket (more_iter_ it) (Hmi _ eq_refl))
      as [kv Hkv].
    exists kv. split_and!; [done| |by apply drop_S].
    destruct (Hmore bucket eq_refl) as (_ & _ & Hh). apply Hh.
    by eapply list_elem_of_lookup_2.
  - exists (key_value t). split_and!; [done| |done].
    symmetry. apply (Hz _ _ Ht).
Qed.

Lemma it_ok_end zone def_value : it_ok zone (iterator_end def_value).
Proof. intros a Ha. done. Qed.

Lemma incr_spec n zone it :
  wf_zone zone → it_ok zone it → is_end it = false →
  (List.length (it_all zone it) ≤ n)%nat →
  ∃ it' skipped,
    incr n zone it = Some it' ∧ it_ok zone it' ∧
    it_def_value_ it' = it_def_value_ it ∧
    tail (it_all zone it) = skipped ++ it_all zone it' ∧
    (∀ e, e ∈ skipped → e.2 = it_def_value_ it).
Proof.
  intros Hz. revert it. induction n as [|n IH]; intros it Hok Hend Hn.
  - exfalso. unfold is_end in Hend. apply bool_decide_eq_false in Hend.
    destruct (current_ it) as [a|] eqn:Ha; [|done].
    destruct (Hok a Ha) as (t & Ht & _).
    destruct (cur_entries_deref zone it a t Hz Hok Ha Ht) as (kv & _ & _ & Hcur).
    unfold it_all in Hn. rewrite Ha, Ht, Hcur in Hn. simpl in Hn. lia.
  - unfold is_end in Hend. apply bool_decide_eq_false in Hend.
    destruct (current_ it) as [a|] eqn:Ha; [|done]. clear Hend.
    destruct (Hok a Ha) as (t & Ht & Hlen & Hle & Hmi & Hinv).
    destruct (cur_entries_deref zone it a t Hz Hok Ha Ht)
      as (kv & Hderef & Hkvh & Hcur).
    assert (it_all zone it =
              cur_entries it t ++
              entries_of zone (pending zone (key_hash t) (path_ it) (level_ it)))
      as Hall by (unfold it_all; by rewrite Ha, Ht).
    cbn [incr]. rewrite Ha, Ht. cbn [mbind option_bind].
    set (more_iter := match more t with
                      | Some _ => S (more_iter_ it)
                      | None => more_iter_ it
                      end).
    assert (∃ in_bucket : bool,
              match more t with
              | Some bucket =>
                  if bool_decide (more_iter_ it < List.length bucket)%nat
                  then Some (bool_decide
                               (S (more_iter_ it) ≠ List.length bucket))
                  else None
              | None => Some false
              end = Some in_bucket ∧
              if in_bucket
              then ∃ bucket, more t = Some bucket ∧
                             (S (more_iter_ it) < List.length bucket)%nat
              else cur_entries it t = [kv]) as (in_bucket & -> & Hin).
    { destruct (more t) as [bucket|] eqn:Hmore.
      - rewrite bool_decide_eq_true_2 by by apply Hmi.
        eexists. split; [done|]. case_bool_decide as Hs.
        + exists bucket. split; [done|]. specialize (Hmi _ eq_refl). lia.
        + rewrite Hcur. f_equal. apply drop_ge. lia.
      - exists false. by rewrite Hcur. }
    cbn [mbind option_bind]. destruct in_bucket.
    { (* the next pair of the bucket *)
      destruct Hin as (bucket & Hmore & Hlt).
      eexists _, []. split_and!; [done| |done| |by intros e ?%elem_of_nil].
      - intros ? [= <-]. exists t. simpl. split_and!; try done.
        intros bucket' Hb. rewrite Hmore in Hb. injection Hb as <-.
        unfold more_iter. by rewrite Hmore.
      - rewrite Hall, Hcur. unfold it_all. simpl. rewrite ?Ha, Ht.
        unfold cur_entries. simpl. unfold more_iter. by rewrite Hmore. }
    assert (tail (it_all zone it) =
              entries_of zone (pending zone (key_hash t) (path_ it) (level_ it)))
      as Htail by (by rewrite Hall, Hin).
    destruct (level_ it) as [|l] eqn:Hlevel.
    { eexists _, []. split_and!; [done|apply it_ok_end|done| |by intros e ?%elem_of_nil].
      by rewrite Htail. }
    destruct (next_leaf_spec zone it a t l Hz Hok Ha Ht Hlevel)
      as (found & -> & Hfound).
    cbn [mbind option_bind]. destruct found as [i|].
    2:{ eexists _, []. split_and!; [done|apply it_ok_end|done| |by intros e ?%elem_of_nil].
        by rewrite Htail, Hfound. }
    destruct Hfound as (c & b & tb & L & path' & Hpi & HFL & Htb & Hent & Hok2).
    rewrite Hpi. cbn [mbind option_bind]. rewrite HFL.
    cbn [mbind option_bind]. rewrite Htb. cbn [mbind option_bind].
    set (it2 := {| level_ := L;
                   more_iter_ := match more tb with
                                 | Some _ => 0%nat
                                 | None => more_iter
                                 end;
                   current_ := Some b; path_ := path';
                   it_def_value_ := it_def_value_ it |}).
    assert (it_ok zone it2) as Hit2.
    { apply Hok2. intros bucket Hb. rewrite Hb.
      destruct (wf_more _ _ (Hz _ _ Htb) bucket Hb) as (Hne & _).
      destruct bucket; [done|simpl; lia]. }
    destruct (cur_entries_deref zone it2 b tb Hz Hit2 eq_refl Htb)
      as (kv2 & Hderef2 & _ & Hcur2).
    assert (it_all zone it2 = tail (it_all zone it)) as Hall2.
    { rewrite Htail, Hent. unfold it_all. simpl. rewrite Htb. f_equal.
      unfold cur_entries, entries. simpl. by destruct (more tb). }
    rewrite Hderef2. cbn [mbind option_bind].
    case_decide as Hdef.
    + (* a default value: the loop goes on *)
      destruct (IH it2 Hit2) as (it' & skipped & Hincr & Hok' & Hdef' & Hrest & Hskip).
      { done. }
      { rewrite Hall2. destruct (it_all zone it); simpl in *; lia. }
      exists it', (kv2 :: skipped). split_and!; [done|done|done| |].
      * rewrite <- Hall2. simpl. rewrite <- Hrest.
        unfold it_all. simpl. rewrite Htb, Hcur2. done.
      * intros e [->|He]%elem_of_cons; [done|by apply Hskip].
    + exists it2, []. split_and!; [done|done|done|by rewrite Hall2|].
      by intros e ?%elem_of_nil.
Qed.

Lemma incr_mono n n' zone it it' :
  incr n zone it = Some it' → (n ≤ n')%nat → incr n' zone it = Some it'.
Proof.
  revert n' it. induction n as [|n IH]; intros n' it; [done|].
  destruct n' as [|n']; [lia|]. intros H Hn. cbn [incr] in *.
  destruct (current_ it) as [a|]; [|done].
  destruct (zone !! a) as [t|]; [|done]. cbn [mbind option_bind] in *.
  destruct (more t) as [bucket|]; cbn [mbind option_bind] in *;
    [destruct (bool_decide (more_iter_ it < List.length bucket)%nat);
       cbn [mbind option_bind] in *; [|done];
     destruct (bool_decide (S (more_iter_ it) ≠ List.length bucket));
       [done|]|];
    (destruct (level_ it) as [|l]; [done|];
     destruct (pop_levels _ _ l) as [[i|]|]; cbn [mbind option_bind] in *;
       [|done|done];
     destruct (path_ it !! i) as [fra|]; cbn [mbind option_bind] in *;
       [|done];
     destruct (FindLeftmost _ zone fra (S i) (path_ it)) as [[[b L] path']|];
       cbn [mbind option_bind] in *; [|done];
     destruct (zone !! b) as [tb|]; cbn [mbind option_bind] in *; [|done];
     destruct (deref zone _) as [kv|]; cbn [mbind option_bind] in *; [|done];
     case_decide; [|done]; apply IH; [done|lia]).
Qed.

(** ** begin and the pairs an iterator produces *)

Lemma begin_spec zone m :
  wf_zone zone → wf_map zone m →
  ∃ it, begin zone m = Some it ∧ it_ok zone it ∧
    it_def_value_ it = def_value_ m ∧
    it_all zone it = entries_of zone (leaves_at zone (tree_ m) 0).
Proof.
  intros Hz Hm. unfold begin. destruct (tree_ m) as [r|] eqn:Hr.
  2:{ eexists. split_and!; [done|apply it_ok_end|done|].
      by rewrite leaves_at_null. }
  destruct (Hm r Hr) as [tr Htr].
  destruct (FindLeftmost_spec zone r tr 0 unwritten_path Hz Htr ltac:(lia) eq_refl)
    as (b & tb & L & path' & rest & HFL & Htb & HL & Hlen' & Hlow & Hpre
        & Hleaves & Hpend & Hinv).
  unfold iterator_begin.
  change (Z.to_nat kHashBits) with (32 - 0)%nat. rewrite HFL.
  cbn [mbind option_bind]. rewrite Htb. cbn [mbind option_bind].
  eexists. split_and!; [done| |done|].
  - intros ? [= <-]. exists tb. simpl. split_and!; [done|done|lia| |].
    + intros bucket Hb.
      destruct (wf_more _ _ (Hz _ _ Htb) bucket Hb) as (Hne & _).
      destruct bucket; [done|simpl; lia].
    + intros i c Hi. apply Hinv. lia.
  - unfold it_all. simpl. rewrite Htb, Hleaves, Hpend.
    rewrite (entries_of_cons _ _ _ _ Htb). simpl. rewrite app_nil_r.
    by f_equal.
Qed.

Lemma it_produces zone it :
  wf_zone zone → it_ok zone it →
  ∃ l, produces zone it l ∧ l `sublist_of` it_all zone it ∧
    ∀ e, e ∈ it_all zone it → e.2 ≠ it_def_value_ it → e ∈ l.
Proof.
  intros Hz. remember (List.length (it_all zone it)) as n eqn:Hn.
  revert it Hn. induction (lt_wf n) as [n _ IH]. intros it Hn Hok.
  destruct (is_end it) eqn:Hend.
  { exists []. split_and!; [by constructor|apply sublist_nil_l|].
    unfold is_end in Hend. apply bool_decide_eq_true in Hend.
    unfold it_all. rewrite Hend. by intros e ?%elem_of_nil. }
  destruct (incr_spec n zone it Hz Hok Hend ltac:(lia))
    as (it' & skipped & Hincr & Hok' & Hdef & Htail & Hskip).
  pose proof Hend as Hend'.
  unfold is_end in Hend'. apply bool_decide_eq_false in Hend'.
  destruct (current_ it) as [a|] eqn:Ha; [|done].
  destruct (Hok a Ha) as (t & Ht & _).
  destruct (cur_entries_deref zone it a t Hz Hok Ha Ht)
    as (kv & Hderef & Hkvh & Hcur).
  assert (it_all zone it = kv :: skipped ++ it_all zone it') as Hall.
  { rewrite <- Htail. unfold it_all. rewrite Ha, Ht, Hcur. done. }
  destruct (IH (List.length (it_all zone it'))) with (it := it')
    as (l & Hprod & Hsub & Hin); [|done|done|].
  { rewrite Hn, Hall. simpl. rewrite length_app. lia. }
  exists (kv :: l). split_and!.
  - eapply (produces_step _ _ a t kv n); try done.
    intros n' Hn'. by eapply incr_mono.
  - rewrite Hall. apply sublist_skip. by apply sublist_inserts_l.
  - intros e He Hne. rewrite Hall in He.
    apply elem_of_cons in He as [->|He]; [by left|right].
    apply elem_of_app in He as [He|He].
    + by destruct Hne; apply Hskip.
    + apply Hin; [done|]. by rewrite Hdef.
Qed.

Lemma iterator_eq_end zone it def_value :
  iterator_eq zone it (iterator_end def_value) = Some (is_end it).
Proof. unfold iterator_eq. by destruct (is_end it). Qed.

Lemma produces_collect zone it l def_value :
  produces zone it l →
  ∃ n0, ∀ n, (n0 ≤ n)%nat →
    collect n zone it (iterator_end def_value) = Some l.
Proof.
  induction 1 as [it Hend|it a t kv n0 it' l Ha Ht Hh Hderef Hincr Hdef _ [n1 IH]].
  - exists 0%nat. intros n _. destruct n; simpl;
      by rewrite iterator_eq_end, Hend.
  - exists (S (n0 `max` n1)). intros [|n] Hn; [lia|]. cbn [collect].
    rewrite iterator_eq_end. unfold is_end at 1. rewrite Ha.
    rewrite bool_decide_eq_false_2 by done. cbn [mbind option_bind].
    rewrite Hderef. cbn [mbind option_bind].
    rewrite Hincr by lia. cbn [mbind option_bind].
    rewrite IH by lia. done.
Qed.

(** ** The order of the pairs *)

Lemma StronglySorted_sublist {A} (R : relation A) (l1 l2 : list A) :
  l1 `sublist_of` l2 → StronglySorted R l2 → StronglySorted R l1.
Proof.
  induction 1 as [|x l1 l2 Hsub IH|x l1 l2 Hsub IH];
    intros Hs; [constructor|..];
    apply StronglySorted_inv in Hs as [Hs Hall].
  - constructor; [by apply IH|].
    apply Forall_forall. intros y Hy.
    apply (proj1 (Forall_forall _ _) Hall). by eapply sublist_subseteq.
  - by apply IH.
Qed.

Lemma elem_of_entries_of zone ls e :
  e ∈ entries_of zone ls ↔
  ∃ b tb, b ∈ ls ∧ zone !! b = Some tb ∧ e ∈ entries tb.
Proof.
  unfold entries_of. rewrite list_elem_of_bind. split.
  - intros (b & He & Hb). destruct (zone !! b) as [tb|] eqn:Htb; simpl in He.
    + by exists b, tb.
    + by apply elem_of_nil in He.
  - intros (b & tb & Hb & Htb & He). exists b. by rewrite Htb.
Qed.

Lemma entries_hash zone t e :
  wf_node zone t → e ∈ entries t → hash_of e.1 = key_hash t.
Proof.
  intros Hwf. unfold entries. destruct (more t) as [bucket|] eqn:Hb.
  - intros He. by apply (wf_more _ _ Hwf bucket Hb).
  - intros ->%list_elem_of_singleton. symmetry. apply Hwf.
Qed.

Lemma entries_sorted zone t : wf_node zone t → StronglySorted entry_lt (entries t).
Proof.
  intros Hwf. pose proof (λ e, entries_hash zone t e Hwf) as Hh.
  unfold entries in *. destruct (more t) as [bucket|] eqn:Hb;
    [|repeat constructor].
  destruct (wf_more _ _ Hwf bucket Hb) as (_ & Hs & _).
  clear Hb. induction Hs as [|x l Hs IH Hall]; constructor.
  - apply IH. intros e He. apply Hh. by right.
  - apply Forall_forall. intros y Hy. right. split.
    + rewrite (Hh x), (Hh y); [done|by right|by left].
    + by apply (proj1 (Forall_forall _ _) Hall).
Qed.

Lemma entries_of_sorted zone ls :
  wf_zone zone → StronglySorted (leaf_lt zone) ls →
  StronglySorted entry_lt (entries_of zone ls).
Proof.
  intros Hz. induction 1 as [|b ls Hs IH Hall]; [constructor|].
  unfold entries_of. simpl. fold (entries_of zone ls).
  destruct (zone !! b) as [tb|] eqn:Htb; simpl; [|done].
  apply StronglySorted_app. split_and!; [|by eapply entries_sorted, Hz|done].
  intros x y Hx (b' & tb' & Hb' & Htb' & Hy)%elem_of_entries_of. left.
  rewrite (entries_hash zone tb x), (entries_hash zone tb' y);
    [|by eapply Hz|done|by eapply Hz|done].
  pose proof (proj1 (Forall_forall _ _) Hall b' Hb') as Hlt.
  unfold leaf_lt in Hlt.
  by rewrite (hash_at_lookup _ _ _ Htb), (hash_at_lookup _ _ _ Htb') in Hlt.
Qed.

Lemma leaves_root_sorted zone m :
  wf_zone zone → wf_map zone m →
  StronglySorted (leaf_lt zone) (leaves_at zone (tree_ m) 0).
Proof.
  intros Hz Hm. destruct (tree_ m) as [r|] eqn:Hr.
  - destruct (Hm r Hr) as [tr Htr]. eapply leaves_sorted; [done|done|lia].
  - rewrite leaves_at_null. constructor.
Qed.

Lemma sorted_leaves_unique zone ls a b :
  StronglySorted (leaf_lt zone) ls → a ∈ ls → b ∈ ls →
  hash_at zone a = hash_at zone b → a = b.
Proof.
  induction 1 as [|x l Hs IH Hall]; [by intros ?%elem_of_nil|].
  intros [->|Ha]%elem_of_cons [->|Hb]%elem_of_cons Hh; [done|..].
  - pose proof (proj1 (Forall_forall _ _) Hall _ Hb) as Hlt.
    unfold leaf_lt in Hlt. lia.
  - pose proof (proj1 (Forall_forall _ _) Hall _ Ha) as Hlt.
    unfold leaf_lt in Hlt. lia.
  - by apply IH.
Qed.

(** ** Get and the pairs of the leaves *)

Lemma zm_find_elem key value m :
  StronglySorted entry_key_lt m → (key, value) ∈ m → zm_find key m = Some value.
Proof.
  induction 1 as [|[k v] l Hs IH Hall]; [by intros ?%elem_of_nil|].
  intros [[= <- <-]|Hin]%elem_of_cons; simpl.
  - by rewrite key_less_irrefl.
  - pose proof (proj1 (Forall_forall _ _) Hall _ Hin) as Hlt.
    unfold entry_key_lt in Hlt. simpl in Hlt.
    rewrite (key_less_asym _ _ Hlt), Hlt. by apply IH.
Qed.

Lemma zm_find_Some key value m : zm_find key m = Some value → (key, value) ∈ m.
Proof.
  induction m as [|[k v] m IH]; simpl; [done|].
  destruct (key_less key k) eqn:H1; [done|].
  destruct (key_less k key) eqn:H2.
  - intros H. right. by apply IH.
  - intros [= <-]. assert (key = k) as -> by by apply key_less_total.
    by left.
Qed.

Lemma focused_value_elem zone t key value def_value :
  wf_node zone t → (key, value) ∈ entries t →
  focused_value def_value t key = value.
Proof.
  intros Hwf. unfold entries, focused_value.
  destruct (more t) as [bucket|] eqn:Hb.
  - intros Hin. destruct (wf_more _ _ Hwf bucket Hb) as (_ & Hs & _).
    by rewrite (zm_find_elem _ _ _ Hs Hin).
  - intros Heq%list_elem_of_singleton. rewrite <- Heq. simpl.
    by rewrite decide_True.
Qed.

Lemma focused_value_not_default t key def_value :
  focused_value def_value t key ≠ def_value →
  (key, focused_value def_value t key) ∈ entries t.
Proof.
  unfold entries, focused_value. destruct (more t) as [bucket|].
  - destruct (zm_find key bucket) as [v|] eqn:Hf; [|done].
    intros _. by apply zm_find_Some.
  - case_decide as Hk; [|done]. intros _. subst key.
    destruct (key_value t). by left.
Qed.

Lemma FindHash_leaves zone m h :
  wf_zone zone → wf_map zone m → in_range h →
  ∃ r, FindHash zone m h = Some r ∧
    match r with
    | Some a => a ∈ leaves_at zone (tree_ m) 0 ∧ hash_at zone a = h
    | None => ∀ a, a ∈ leaves_at zone (tree_ m) 0 → hash_at zone a ≠ h
    end.
Proof.
  intros Hz Hm Rh. rewrite FindHash_find_from.
  destruct (tree_ m) as [r|] eqn:Hr.
  - destruct (Hm r Hr) as [tr Htr].
    apply (find_from_leaves 32 zone h r tr 0); try done; try lia.
    intros i Hi. lia.
  - exists None. rewrite find_from_null, leaves_at_null.
    split; [done|]. by intros a ?%elem_of_nil.
Qed.

Lemma Get_entries_in zone m key value :
  wf_zone zone → wf_map zone m →
  (key, value) ∈ entries_of zone (leaves_at zone (tree_ m) 0) →
  Get zone m key = Some value.
Proof.
  intros Hz Hm (b & tb & Hb & Htb & He)%elem_of_entries_of.
  pose proof (entries_hash zone tb _ (Hz _ _ Htb) He) as Hh. simpl in Hh.
  destruct (FindHash_leaves zone m (hash_of key) Hz Hm (hash_of_in_range _))
    as (r & Hr & Hspec).
  unfold Get. fold (hash_of key). rewrite Hr. simpl.
  destruct r as [a|].
  - destruct Hspec as [Ha Hah].
    assert (a = b) as ->.
    { eapply sorted_leaves_unique; [by apply leaves_root_sorted|done|done|].
      by rewrite Hah, (hash_at_lookup _ _ _ Htb). }
    simpl. rewrite Htb. simpl. f_equal.
    eapply focused_value_elem; [by eapply Hz|done].
  - destruct (Hspec b Hb). by rewrite (hash_at_lookup _ _ _ Htb).
Qed.

Lemma Get_entries_out zone m key value :
  wf_zone zone → wf_map zone m →
  Get zone m key = Some value → value ≠ def_value_ m →
  (key, value) ∈ entries_of zone (leaves_at zone (tree_ m) 0).
Proof.
  intros Hz Hm Hget Hne.
  destruct (FindHash_leaves zone m (hash_of key) Hz Hm (hash_of_in_range _))
    as (r & Hr & Hspec).
  unfold Get in Hget. fold (hash_of key) in Hget. rewrite Hr in Hget.
  simpl in Hget. destruct r as [a|]; simpl in Hget; [|congruence].
  destruct Hspec as [Ha Hah].
  destruct (zone !! a) as [t|] eqn:Ht; simpl in Hget; [|done].
  injection Hget as <-. apply elem_of_entries_of. exists a, t.
  split_and!; [done|done|]. by apply focused_value_not_default.
Qed.

(** What iterating over a map gives: the list produced is in strictly
    increasing order, every pair of it is a binding of the map, and every
    binding with a value other than the default is in it. *)
Lemma begin_produces zone m :
  wf_zone zone → wf_map zone m →
  ∃ it l, begin zone m = Some it ∧ it_def_value_ it = def_value_ m ∧
    produces zone it l ∧ StronglySorted entry_lt l ∧
    (∀ key value, (key, value) ∈ l → Get zone m key = Some value) ∧
    (∀ key value, Get zone m key = Some value → value ≠ def_value_ m →
                  (key, value) ∈ l).
Proof.
  intros Hz Hm.
  destruct (begin_spec zone m Hz Hm) as (it & Hbegin & Hok & Hdef & Hall).
  destruct (it_produces zone it Hz Hok) as (l & Hprod & Hsub & Hin).
  exists it, l. split_and!; [done|done|done| | |].
  - eapply StronglySorted_sublist; [done|]. rewrite Hall.
    apply entries_of_sorted; [done|]. by apply leaves_root_sorted.
  - intros key value Hkv. apply Get_entries_in; [done|done|].
    rewrite <- Hall. by eapply sublist_subseteq.
  - intros key value Hget Hne. apply (Hin (key, value)).
    + rewrite Hall. by apply Get_entries_out.
    + simpl. by rewrite Hdef.
Qed.

Lemma sorted_keys_NoDup (l : list (Key * Value)) :
  StronglySorted entry_lt l → NoDup l.*1.
Proof.
  induction 1 as [|kv l Hs IH Hall]; simpl; constructor; [|done].
  intros (kv' & Hk & Hin)%list_elem_of_fmap.
  pose proof (proj1 (Forall_forall _ _) Hall kv' Hin) as Hlt.
  destruct Hlt as [Hlt|[_ Hlt]]; rewrite Hk in Hlt; [lia|].
  by rewrite key_less_irrefl in Hlt.
Qed.

(** ** The double iterator and operator== *)

Ltac dbl_simpl :=
  cbn [first_ second_ first_current_ second_current_ mbind option_bind
       fst snd].

Lemma entry_lt_total p q : p.1 ≠ q.1 → entry_lt p q ∨ entry_lt q p.
Proof.
  intros Hne. unfold entry_lt.
  destruct (Z.lt_total (hash_of p.1) (hash_of q.1)) as [?|[Heq|?]];
    [left; by left| |right; by left].
  destruct (key_less p.1 q.1) eqn:H1; [left; by right|].
  destruct (key_less q.1 p.1) eqn:H2; [right; by right|].
  destruct Hne. by apply key_less_total.
Qed.

Lemma entry_lt_irrefl p q : entry_lt p q → p.1 ≠ q.1.
Proof.
  intros [Hlt|[_ Hlt]] Heq; rewrite Heq in Hlt; [lia|].
  by rewrite key_less_irrefl in Hlt.
Qed.

Lemma entry_lt_trans p q r : entry_lt p q → entry_lt q r → entry_lt p r.
Proof.
  unfold entry_lt. intros [?|[? ?]] [?|[? ?]]; try (left; lia).
  right. split; [lia|]. by eapply key_less_trans.
Qed.

Lemma value_in_cons_eq k v l def_value :
  value_in ((k, v) :: l) def_value k = v.
Proof. simpl. by rewrite decide_True. Qed.

Lemma value_in_cons_ne k v l def_value key :
  key ≠ k → value_in ((k, v) :: l) def_value key = value_in l def_value key.
Proof. intros. simpl. by rewrite decide_False. Qed.

Lemma value_in_not_in l def_value key :
  (∀ e, e ∈ l → e.1 ≠ key) → value_in l def_value key = def_value.
Proof.
  induction l as [|[k v] l IH]; intros Hnot; simpl; [done|].
  rewrite decide_False.
  - apply IH. intros e He. apply Hnot. by right.
  - intros ->. by apply (Hnot (k, v)); [left|].
Qed.

Lemma value_in_sorted_head kv l def_value :
  StronglySorted entry_lt (kv :: l) → value_in l def_value kv.1 = def_value.
Proof.
  intros [_ Hall]%StronglySorted_inv. apply value_in_not_in.
  intros e He Heq. pose proof (proj1 (Forall_forall _ _) Hall e He) as Hlt.
  by apply entry_lt_irrefl in Hlt.
Qed.

Lemma value_in_sorted_below kv l def_value key :
  StronglySorted entry_lt (kv :: l) → (key = kv.1 ∨ entry_lt (key, def_value) kv) →
  value_in l def_value key = def_value.
Proof.
  intros Hs [->|Hlt]; [by eapply value_in_sorted_head|].
  apply StronglySorted_inv in Hs as [_ Hall]. apply value_in_not_in.
  intros e He Heq. pose proof (proj1 (Forall_forall _ _) Hall e He) as Hlt'.
  assert (entry_lt (key, def_value) e) as Hlt'' by (by eapply entry_lt_trans).
  apply entry_lt_irrefl in Hlt''. simpl in Hlt''. congruence.
Qed.

Lemma value_in_elem l def_value key :
  (key, value_in l def_value key) ∈ l ∨
  (value_in l def_value key = def_value ∧ ∀ e, e ∈ l → e.1 ≠ key).
Proof.
  induction l as [|[k v] l IH]; simpl.
  - right. split; [done|]. by intros e ?%elem_of_nil.
  - case_decide as Hk.
    + subst. left. by left.
    + destruct IH as [IH|[IH Hnot]]; [left; by right|right].
      split; [done|]. intros e [->|He]%elem_of_cons; [simpl; congruence|].
      by apply Hnot.
Qed.

(** [Get] reads the list that the iterator of the map produces. *)
Lemma Get_value_in zone m l key :
  wf_zone zone → wf_map zone m →
  (∀ key value, (key, value) ∈ l → Get zone m key = Some value) →
  (∀ key value, Get zone m key = Some value → value ≠ def_value_ m →
                (key, value) ∈ l) →
  Get zone m key = Some (value_in l (def_value_ m) key).
Proof.
  intros Hz Hm Hin Hout.
  destruct (value_in_elem l (def_value_ m) key) as [He|[-> Hnot]].
  - by apply Hin.
  - destruct (Get_total zone m key Hz Hm) as [g Hg]. rewrite Hg. f_equal.
    destruct (decide (g = def_value_ m)) as [|Hne]; [done|].
    destruct (Hnot _ (Hout _ _ Hg Hne)). done.
Qed.

Lemma entry_ltb_spec p q : entry_ltb p q = true ↔ entry_lt p q.
Proof.
  unfold entry_ltb, entry_lt, hash_lt, hash_eq.
  destruct (Z.ltb_spec (hash_of p.1) (hash_of q.1)); [by split; [left|]|].
  destruct (Z.eqb_spec (hash_of p.1) (hash_of q.1)).
  - split; [by right|]. intros [?|[_ ?]]; [lia|done].
  - split; [done|]. intros [?|[? _]]; lia.
Qed.

Lemma produces_nil_inv zone it : produces zone it [] → is_end it = true.
Proof. by inversion 1. Qed.

Lemma produces_cons_inv zone it kv l :
  produces zone it (kv :: l) →
  is_end it = false ∧ deref zone it = Some kv ∧
  (∃ a t, current_ it = Some a ∧ zone !! a = Some t ∧
          key_hash t = hash_of kv.1) ∧
  ∃ n0 it', (∀ n, (n0 ≤ n)%nat → incr n zone it = Some it') ∧
            it_def_value_ it' = it_def_value_ it ∧ produces zone it' l.
Proof.
  inversion 1 as [|? a t ? n0 it' ? Ha Ht Hh Hderef Hincr Hdef Hprod]; subst.
  split_and!; [|done|by eauto|by eauto].
  unfold is_end. rewrite Ha. by apply bool_decide_eq_false_2.
Qed.

Lemma iterator_compare_produces zone ia ib kva la kvb lb :
  produces zone ia (kva :: la) → produces zone ib (kvb :: lb) →
  iterator_eq zone ia ib = Some (bool_decide (kva.1 = kvb.1)) ∧
  iterator_lt zone ia ib = Some (entry_ltb kva kvb).
Proof.
  intros (Ha & Hda & (a & ta & Hca & Hta & Hha) & _)%produces_cons_inv
         (Hb & Hdb & (b & tb & Hcb & Htb & Hhb) & _)%produces_cons_inv.
  unfold iterator_eq, iterator_lt, entry_ltb.
  rewrite Ha, Hb, Hca, Hcb. simpl. rewrite Hta, Htb. simpl.
  rewrite Hda, Hdb, Hha, Hhb. simpl. split.
  - destruct (hash_eq (hash_of kva.1) (hash_of kvb.1)) eqn:Heq; simpl; [done|].
    apply hash_eq_false in Heq. rewrite bool_decide_eq_false_2; [done|].
    congruence.
  - destruct (hash_lt _ _); [done|]. by destruct (hash_eq _ _).
Qed.

Lemma iterator_eq_at_end zone it last :
  is_end last = true → iterator_eq zone it last = Some (is_end it).
Proof. intros Hl. unfold iterator_eq. rewrite Hl. by destruct (is_end it). Qed.

(** *** Merging two sorted lists of pairs *)

Lemma sorted_head_not_in kv l :
  Forall (entry_lt kv) l → kv.1 ∉ l.*1.
Proof.
  intros Hall (e & Hk & He)%list_elem_of_fmap.
  pose proof (proj1 (Forall_forall _ _) Hall e He) as Hlt.
  by apply entry_lt_irrefl in Hlt.
Qed.

Lemma value_in_above kv l def_value :
  Forall (entry_lt kv) l → value_in l def_value kv.1 = def_value.
Proof.
  intros Hall. apply value_in_not_in. intros e He Hk.
  apply (sorted_head_not_in kv l Hall). apply list_elem_of_fmap. eauto.
Qed.

Lemma zip_ok_nil da db : zip_ok da db [] [] [].
Proof.
  split_and!; [|intros k [?%elem_of_nil|?%elem_of_nil]; done|constructor].
  by intros k va vb ?%elem_of_nil.
Qed.

Lemma key_above kv la lb k :
  Forall (entry_lt kv) la → Forall (entry_lt kv) lb →
  k ∈ la.*1 ∨ k ∈ lb.*1 → k ≠ kv.1 ∧ ∀ v w, entry_lt (kv.1, v) (k, w).
Proof.
  intros Ha Hb Hk.
  assert (∃ e, e.1 = k ∧ entry_lt kv e) as (e & <- & Hlt).
  { destruct Hk as [(e & -> & He)%list_elem_of_fmap
                   |(e & -> & He)%list_elem_of_fmap].
    - exists e. split; [done|]. by apply (proj1 (Forall_forall _ _) Ha).
    - exists e. split; [done|]. by apply (proj1 (Forall_forall _ _) Hb). }
  split; [|done]. apply entry_lt_irrefl in Hlt. congruence.
Qed.

(** The first list is behind, or the second one is exhausted. *)
Lemma zip_ok_first da db ka va la lb l :
  Forall (entry_lt (ka, va)) la → Forall (entry_lt (ka, va)) lb →
  zip_ok da db la lb l →
  zip_ok da db ((ka, va) :: la) lb ((ka, va, db) :: l).
Proof.
  intros Ha Hb (Hval & Hcov & Hs). split_and!.
  - intros k xa xb [[= -> -> ->]|Hin]%elem_of_cons.
    + split_and!; [left; by left|by rewrite value_in_cons_eq|].
      symmetry. by apply (value_in_above (ka, va)).
    + destruct (Hval _ _ _ Hin) as (Hk & -> & ->).
      destruct (key_above (ka, va) la lb k Ha Hb Hk) as [Hne _].
      split_and!; [|by rewrite value_in_cons_ne|done].
      destruct Hk; [left; by right|by right].
  - intros k [[->|Hk]%elem_of_cons|Hk]; simpl; [by left|right; auto..].
  - constructor; [done|]. apply Forall_forall. intros [[k xa] xb] Hin.
    destruct (Hval _ _ _ Hin) as (Hk & _).
    by apply (key_above (ka, va) la lb k Ha Hb Hk).
Qed.

(** The second list is behind, or the first one is exhausted. *)
Lemma zip_ok_second da db kb vb la lb l :
  Forall (entry_lt (kb, vb)) la → Forall (entry_lt (kb, vb)) lb →
  zip_ok da db la lb l →
  zip_ok da db la ((kb, vb) :: lb) ((kb, da, vb) :: l).
Proof.
  intros Ha Hb (Hval & Hcov & Hs). split_and!.
  - intros k xa xb [[= -> -> ->]|Hin]%elem_of_cons.
    + split_and!; [right; by left| |by rewrite value_in_cons_eq].
      symmetry. by apply (value_in_above (kb, vb)).
    + destruct (Hval _ _ _ Hin) as (Hk & -> & ->).
      destruct (key_above (kb, vb) la lb k Ha Hb Hk) as [Hne _].
      split_and!; [|done|by rewrite value_in_cons_ne].
      destruct Hk; [by left|right; by right].
  - intros k [Hk|[->|Hk]%elem_of_cons]; simpl; [right; auto|by left|right; auto].
  - constructor; [done|]. apply Forall_forall. intros [[k xa] xb] Hin.
    destruct (Hval _ _ _ Hin) as (Hk & _).
    by apply (key_above (kb, vb) la lb k Ha Hb Hk).
Qed.

(** Both lists are at the same key. *)
Lemma zip_ok_both da db k va vb la lb l :
  Forall (entry_lt (k, va)) la → Forall (entry_lt (k, vb)) lb →
  zip_ok da db la lb l →
  zip_ok da db ((k, va) :: la) ((k, vb) :: lb) ((k, va, vb) :: l).
Proof.
  intros Ha Hb (Hval & Hcov & Hs). split_and!.
  - intros k' xa xb [[= -> -> ->]|Hin]%elem_of_cons.
    + split_and!; [left; by left|by rewrite value_in_cons_eq..].
    + destruct (Hval _ _ _ Hin) as (Hk & -> & ->).
      destruct (key_above (k, va) la lb k' Ha Hb Hk) as [Hne _].
      split_and!; [|by rewrite value_in_cons_ne..].
      destruct Hk; [left; by right|right; by right].
  - intros k' [[->|Hk]%elem_of_cons|[->|Hk]%elem_of_cons]; simpl;
      [by left|right; auto|by left|right; auto].
  - constructor; [done|]. apply Forall_forall. intros [[k' xa] xb] Hin.
    destruct (Hval _ _ _ Hin) as (Hk & _).
    by apply (key_above (k, va) la lb k' Ha Hb Hk).
Qed.

Lemma sorted_above kv kv' l :
  entry_lt kv kv' → StronglySorted entry_lt (kv' :: l) →
  Forall (entry_lt kv) (kv' :: l).
Proof.
  intros Hlt [_ Hall]%StronglySorted_inv. constructor; [done|].
  eapply Forall_impl; [done|]. intros e He. by eapply entry_lt_trans.
Qed.

(** *** The double iterator over two iterators *)

Lemma zip_collect_done n zone d last :
  is_end (first_ last) = true → is_end (second_ last) = true →
  is_end (first_ d) = true → is_end (second_ d) = true →
  zip_collect n zone d last = Some [].
Proof.
  intros H1 H2 H3 H4.
  destruct n; simpl; unfold double_ne;
    rewrite !iterator_eq_at_end, H3, H4 by done; done.
Qed.

Lemma zip_collect_step n zone d last triple :
  is_end (first_ last) = true → is_end (second_ last) = true →
  is_end (first_ d) && is_end (second_ d) = false →
  double_deref zone d = Some triple →
  zip_collect (S n) zone d last =
    d' ← double_incr (S n) zone d;
    rest ← zip_collect n zone d' last;
    Some (triple :: rest).
Proof.
  intros H1 H2 H3 Hd. cbn [zip_collect]. unfold double_ne.
  rewrite !iterator_eq_at_end by done.
  destruct (is_end (first_ d)); simpl in *; [rewrite H3|]; simpl;
    by rewrite Hd.
Qed.

(** The triples of a run of the double iterator, from two iterators that
    produce the sorted lists [la] and [lb]. *)
Lemma zip_collect_spec zone da db la :
  ∀ lb ia ib,
  produces zone ia la → produces zone ib lb →
  it_def_value_ ia = da → it_def_value_ ib = db →
  StronglySorted entry_lt la → StronglySorted entry_lt lb →
  ∃ d l n0, double_iterator_new zone ia ib = Some d ∧
    (∀ n last, (n0 ≤ n)%nat →
       is_end (first_ last) = true → is_end (second_ last) = true →
       zip_collect n zone d last = Some l) ∧
    zip_ok da db la lb l.
Proof.
  induction la as [|[ka va] la IHa]; intros lb;
    induction lb as [|[kb vb] lb IHb]; intros ia ib Hpa Hpb Hda Hdb Hsa Hsb.
  - (* both iterators are at the end *)
    apply produces_nil_inv in Hpa, Hpb.
    eexists _, [], 0%nat. split_and!.
    + unfold double_iterator_new, iterator_eq. by rewrite Hpa, Hpb.
    + intros n last _ H1 H2. by apply zip_collect_done.
    + apply zip_ok_nil.
  - (* only the second iterator has pairs left *)
    apply produces_nil_inv in Hpa.
    apply produces_cons_inv in Hpb
      as (Hb & Hdb' & _ & n0b & ib' & Hincr & Hdef' & Hpb').
    pose proof Hsb as [Hsb' Hall]%StronglySorted_inv.
    destruct (IHb ia ib') as (d' & l' & n0' & Hnew' & Hrun' & Hok');
      [by constructor|done|done|congruence|done|done|].
    eexists _, ((kb, da, vb) :: l'), (S (n0b `max` n0')). split_and!.
    + unfold double_iterator_new, iterator_eq, iterator_lt.
      by rewrite Hpa, Hb.
    + intros [|n] last Hn H1 H2; [lia|].
      erewrite zip_collect_step; [|done|done|by simpl; rewrite Hpa, Hb|].
      2:{ unfold double_deref. dbl_simpl. rewrite Hdb'. dbl_simpl.
          by rewrite Hda. }
      unfold double_incr. dbl_simpl. rewrite Hincr by lia. dbl_simpl.
      rewrite Hnew'. dbl_simpl. by rewrite Hrun' by (done || lia).
    + by apply zip_ok_second.
  - (* only the first iterator has pairs left *)
    apply produces_nil_inv in Hpb.
    apply produces_cons_inv in Hpa
      as (Ha & Hda' & _ & n0a & ia' & Hincr & Hdef' & Hpa').
    pose proof Hsa as [Hsa' Hall]%StronglySorted_inv.
    destruct (IHa [] ia' ib) as (d' & l' & n0' & Hnew' & Hrun' & Hok');
      [done|by constructor|congruence|done|done|done|].
    eexists _, ((ka, va, db) :: l'), (S (n0a `max` n0')). split_and!.
    + unfold double_iterator_new, iterator_eq, iterator_lt.
      by rewrite Ha, Hpb.
    + intros [|n] last Hn H1 H2; [lia|].
      erewrite zip_collect_step; [|done|done|by simpl; rewrite Ha|].
      2:{ unfold double_deref. dbl_simpl. rewrite Hda'. dbl_simpl.
          by rewrite Hdb. }
      unfold double_incr. dbl_simpl. rewrite Hincr by lia. dbl_simpl.
      rewrite Hnew'. dbl_simpl. by rewrite Hrun' by (done || lia).
    + by apply zip_ok_first.
  - (* both iterators have pairs left *)
    pose proof Hpa as Hpa0. pose proof Hpb as Hpb0.
    destruct (iterator_compare_produces _ _ _ _ _ _ _ Hpa Hpb) as [Heq Hlt].
    apply produces_cons_inv in Hpa
      as (Ha & Hda' & _ & n0a & ia' & Hincra & Hdefa & Hpa').
    apply produces_cons_inv in Hpb
      as (Hb & Hdb' & _ & n0b & ib' & Hincrb & Hdefb & Hpb').
    pose proof Hsa as [Hsa' Halla]%StronglySorted_inv.
    pose proof Hsb as [Hsb' Hallb]%StronglySorted_inv.
    simpl in Heq, Hlt.
    destruct (decide (ka = kb)) as [->|Hkne].
    + (* the same key on both sides *)
      rewrite bool_decide_eq_true_2 in Heq by done.
      destruct (IHa lb ia' ib') as (d' & l' & n0' & Hnew' & Hrun' & Hok');
        [done|done|congruence|congruence|done|done|].
      eexists _, ((kb, va, vb) :: l'), (S ((n0a `max` n0b) `max` n0')).
      split_and!.
      * unfold double_iterator_new. by rewrite Heq.
      * intros [|n] last Hn H1 H2; [lia|].
        erewrite zip_collect_step; [|done|done|by simpl; rewrite Ha|].
        2:{ unfold double_deref. dbl_simpl. rewrite Hda'. dbl_simpl.
            by rewrite Hdb'. }
        unfold double_incr. dbl_simpl.
        rewrite Hincra by lia. dbl_simpl. rewrite Hincrb by lia. dbl_simpl.
        rewrite Hnew'. dbl_simpl. by rewrite Hrun' by (done || lia).
      * by apply zip_ok_both.
    + rewrite bool_decide_eq_false_2 in Heq by done.
      destruct (entry_ltb (ka, va) (kb, vb)) eqn:Hltb.
      * (* the first iterator is behind *)
        apply entry_ltb_spec in Hltb.
        destruct (IHa ((kb, vb) :: lb) ia' ib)
          as (d' & l' & n0' & Hnew' & Hrun' & Hok');
          [done|done|congruence|congruence|done|done|].
        eexists _, ((ka, va, db) :: l'), (S (n0a `max` n0')). split_and!.
        -- unfold double_iterator_new. by rewrite Heq, Hlt.
        -- intros [|n] last Hn H1 H2; [lia|].
           erewrite zip_collect_step; [|done|done|by simpl; rewrite Ha|].
           2:{ unfold double_deref. dbl_simpl. rewrite Hda'. dbl_simpl.
               by rewrite Hdb. }
           unfold double_incr. dbl_simpl. rewrite Hincra by lia. dbl_simpl.
           rewrite Hnew'. dbl_simpl. by rewrite Hrun' by (done || lia).
        -- apply zip_ok_first; [done| |done]. by apply sorted_above.
      * (* the second iterator is behind *)
        assert (entry_lt (kb, vb) (ka, va)) as Hgt.
        { destruct (entry_lt_total (ka, va) (kb, vb)) as [Hl|Hl]; [done| |done].
          apply entry_ltb_spec in Hl. congruence. }
        destruct (IHb ia ib')
          as (d' & l' & n0' & Hnew' & Hrun' & Hok');
          [done|done|congruence|congruence|done|done|].
        eexists _, ((kb, da, vb) :: l'), (S (n0b `max` n0')). split_and!.
        -- unfold double_iterator_new. by rewrite Heq, Hlt.
        -- intros [|n] last Hn H1 H2; [lia|].
           erewrite zip_collect_step; [|done|done|by simpl; rewrite Ha|].
           2:{ unfold double_deref. dbl_simpl. rewrite Hdb'. dbl_simpl.
               by rewrite Hda. }
           unfold double_incr. dbl_simpl. rewrite Hincrb by lia. dbl_simpl.
           rewrite Hnew'. dbl_simpl. by rewrite Hrun' by (done || lia).
        -- apply zip_ok_second; [|done|done]. by apply sorted_above.
Qed.

(** The loop of [operator==] over the triples of the double iterator. *)
Lemma zip_all_equal_collect n zone d last l :
  zip_collect n zone d last = Some l →
  ∃ r, zip_all_equal n zone d last = Some r ∧
       (r = true ↔ ∀ triple, triple ∈ l → triple.1.2 = triple.2).
Proof.
  revert d l. induction n as [|n IH]; intros d l; simpl.
  - destruct (double_ne zone d last) as [[]|]; simpl; [done| |done].
    intros [= <-]. exists true. split; [done|].
    split; [|done]. by intros _ t ?%elem_of_nil.
  - destruct (double_ne zone d last) as [[]|]; simpl; [| |done].
    2:{ intros [= <-]. exists true. split; [done|].
        split; [|done]. by intros _ t ?%elem_of_nil. }
    destruct (double_deref zone d) as [triple|]; simpl; [|done].
    destruct (double_incr (S n) zone d) as [d'|]; simpl;
      [|by intros ?].
    destruct (zip_collect n zone d' last) as [rest|] eqn:Hrest; simpl; [|done].
    intros [= <-]. destruct (IH d' rest Hrest) as (r & Hr & Hiff).
    case_decide as Hne.
    + exists false. split; [done|]. split; [done|]. intros Hall.
      destruct Hne. apply Hall. by left.
    + exists r. split; [done|].
      rewrite Hiff. split.
      * intros Hall t [->|Ht]%elem_of_cons; [done|by apply Hall].
      * intros Hall t Ht. apply Hall. by right.
Qed.

Lemma Zip_end_value zone a b :
  Zip_end zone a b =
    Some {| first_ := end_ a; second_ := end_ b;
            first_current_ := true; second_current_ := true |}.
Proof. done. Qed.

(** What zipping two maps gives: the triples are in strictly increasing
    key order, each holds the values of [Get] on both sides, and every
    key with a value other than the default on some side has its
    triple. *)
Lemma Zip_spec zone a b :
  wf_zone zone → wf_map zone a → wf_map zone b →
  ∃ d last l n0,
    Zip_begin zone a b = Some d ∧ Zip_end zone a b = Some last ∧
    (∀ n, (n0 ≤ n)%nat → zip_collect n zone d last = Some l) ∧
    (∀ key va vb, (key, va, vb) ∈ l →
       Get zone a key = Some va ∧ Get zone b key = Some vb) ∧
    (∀ key va vb, Get zone a key = Some va → Get zone b key = Some vb →
       va ≠ def_value_ a ∨ vb ≠ def_value_ b → (key, va, vb) ∈ l) ∧
    StronglySorted triple_lt l.
Proof.
  intros Hz Ha Hb.
  destruct (begin_produces zone a Hz Ha)
    as (ia & la & Hbegin_a & Hdef_a & Hprod_a & Hsort_a & Hin_a & Hout_a).
  destruct (begin_produces zone b Hz Hb)
    as (ib & lb & Hbegin_b & Hdef_b & Hprod_b & Hsort_b & Hin_b & Hout_b).
  destruct (zip_collect_spec zone (def_value_ a) (def_value_ b) la lb ia ib)
    as (d & l & n0 & Hnew & Hrun & Hval & Hcov & Hs); [done..|].
  eexists d, _, l, n0. split_and!; [|apply Zip_end_value| | | |done].
  - unfold Zip_begin. rewrite Hbegin_a, Hbegin_b. by cbn [mbind option_bind].
  - intros n Hn. by apply Hrun.
  - intros key va vb Hin. destruct (Hval _ _ _ Hin) as (_ & -> & ->).
    split; by apply Get_value_in.
  - intros key va vb Hva Hvb Hnd.
    assert (key ∈ l.*1.*1)
      as (p & Hk & (t & Hp & Ht)%list_elem_of_fmap)%list_elem_of_fmap.
    { apply Hcov. destruct Hnd as [Hnd|Hnd]; [left|right];
        apply list_elem_of_fmap; eexists (key, _); eauto. }
    destruct t as [[k xa] xb]. simpl in Hp. subst p. simpl in Hk. subst k.
    destruct (Hval _ _ _ Ht) as (_ & Hxa & Hxb).
    rewrite (Get_value_in zone a la key) in Hva by done.
    rewrite (Get_value_in zone b lb key) in Hvb by done.
    congruence.
Qed.

(** [operator==] on well-formed maps: with enough turns it returns, and it
    returns [true] exactly when the roots are the same pointer, or the
    defaults are equal and [Get] agrees on every key. *)
Lemma map_equal_spec zone a b :
  wf_zone zone → wf_map zone a → wf_map zone b →
  ∃ r n0, (∀ n, (n0 ≤ n)%nat → map_equal n zone a b = Some r) ∧
    (r = true ↔
     tree_ a = tree_ b ∨
     (def_value_ a = def_value_ b ∧
      ∀ key, Get zone a key = Get zone b key)).
Proof.
  intros Hz Ha Hb. unfold map_equal.
  destruct (decide (tree_ a = tree_ b)) as [Hroot|Hroot].
  { exists true, 0%nat. split; [done|]. split; [by left|done]. }
  destruct (decide (def_value_ a ≠ def_value_ b)) as [Hdef|Hdef].
  { exists false, 0%nat. split; [done|].
    split; [done|]. intros [?|[? _]]; done. }
  apply dec_stable in Hdef.
  destruct (Zip_spec zone a b Hz Ha Hb)
    as (d & last & l & n0 & Hbegin & Hend & Hrun & Hsound & Hcomplete & _).
  destruct (zip_all_equal_collect n0 zone d last l (Hrun n0 ltac:(lia)))
    as (r & Hr & Hiff).
  exists r, n0. split.
  - intros n Hn. rewrite Hbegin, Hend. cbn [mbind option_bind].
    destruct (zip_all_equal_collect n zone d last l (Hrun n Hn))
      as (r' & Hr' & Hiff').
    rewrite Hr'. f_equal. apply eq_bool_prop_intro.
    rewrite !Is_true_true. by rewrite Hiff, Hiff'.
  - rewrite Hiff. split.
    + intros Hall. right. split; [done|]. intros key.
      destruct (Get_total zone a key Hz Ha) as [va Hva].
      destruct (Get_total zone b key Hz Hb) as [vb Hvb].
      rewrite Hva, Hvb. f_equal.
      destruct (decide (va = def_value_ a ∧ vb = def_value_ b))
        as [[-> ->]|Hnd]; [done|].
      apply (Hall (key, va, vb)). apply Hcomplete; [done|done|].
      destruct (decide (va = def_value_ a)) as [->|Hva'];
        [right; intros ->; by apply Hnd|by left].
    + intros [?|[_ Hall]] [[key va] vb] Hin; [done|]. simpl.
      destruct (Hsound _ _ _ Hin) as [Hva Hvb].
      rewrite Hall in Hva. congruence.
Qed.

(** ** The properties of Get and Add *)

Lemma Add_then_Get zone m key value :
  wf_zone zone → wf_map zone m →
  ∃ zone' m', Add zone m key value = Some (zone', m') ∧
              Get zone' m' key = Some value.
Proof.
  intros Hz Hm.
  destruct (Add_spec zone m key value Hz Hm)
    as (cur & Hget & [[-> HA]|(_ & t & HA & Hwf & Hh & Hfocus & _)]).
  - by exists zone, m.
  - eexists _, _. split; [done|].
    unfold Get. rewrite FindHash_find_from. cbn [tree_].
    rewrite find_from_unfold.
    rewrite list_lookup_middle by done. simpl.
    fold (hash_of key). rewrite Hh.
    rewrite (proj2 (hash_eq_true _ _) eq_refl). simpl.
    rewrite list_lookup_middle by done. simpl. by rewrite Hfocus.
Qed.

(** C1, Get-after-Add: on every map of a reachable zone, [Add key value]
    returns a map, and [Get] of [key] on that map is [value]. *)
Theorem Get_after_Add zone maps m key value :
  reachable zone maps → m ∈ maps →
  ∃ zone' m', Add zone m key value = Some (zone', m') ∧
              Get zone' m' key = Some value.
Proof.
  intros [Hz Hm]%reachable_wf Hin. by apply Add_then_Get, Hm.
Qed.

(** C2, persistence: when [value] differs from what [m1] binds [key] to,
    [Add key value] on [m1] returns a new map, and afterwards, in the zone
    as the call left it, [Get] of [key] on the old handle [m1] still is
    the previous value. *)
Theorem Add_persistent zone maps m1 key value previous :
  reachable zone maps → m1 ∈ maps →
  Get zone m1 key = Some previous → value ≠ previous →
  ∃ zone' m2, Add zone m1 key value = Some (zone', m2) ∧
              Get zone' m1 key = Some previous.
Proof.
  intros Hr Hin Hget Hne.
  destruct (reachable_wf _ _ Hr) as [Hz Hm]. specialize (Hm _ Hin).
  destruct (Add_spec zone m1 key value Hz Hm)
    as (cur & Hget' & [[_ HA]|(_ & t & HA & _)]).
  - by exists zone, m1.
  - eexists _, _. split; [done|]. by apply Get_app.
Qed.

(** C5, no-op insert: when [m] binds [key] to [value] already,
    [Add key value] returns a handle with the root pointer of [m]; so a
    second [Add key value] on the result of a first one returns the root
    pointer of the first result. *)
Theorem Add_same_value_same_root zone maps m key value :
  reachable zone maps → m ∈ maps →
  (Get zone m key = Some value →
   ∃ zone' m', Add zone m key value = Some (zone', m') ∧
               tree_ m' = tree_ m) ∧
  (∃ zone1 m1 zone2 m2,
     Add zone m key value = Some (zone1, m1) ∧
     Add zone1 m1 key value = Some (zone2, m2) ∧
     tree_ m2 = tree_ m1).
Proof.
  intros Hr Hin.
  assert (∀ zone maps m, reachable zone maps → m ∈ maps →
            Get zone m key = Some value →
            Add zone m key value = Some (zone, m)) as Hsame.
  { clear zone maps m Hr Hin.
    intros zone maps m [Hz Hm]%reachable_wf Hin Hget.
    destruct (Add_spec zone m key value Hz (Hm _ Hin))
      as (cur & Hget' & [[_ HA]|(Hne & _)]); [done|congruence]. }
  split.
  - intros Hget. exists zone, m. split; [by eapply Hsame|done].
  - destruct (reachable_wf _ _ Hr) as [Hz Hm].
    destruct (Add_then_Get zone m key value Hz (Hm _ Hin))
      as (zone1 & m1 & HA & Hget).
    exists zone1, m1, zone1, m1. split_and!; [done| |done].
    apply (Hsame zone1 (m1 :: maps)); [|left|done].
    by eapply reach_add.
Qed.

(** C6, Get-other: [Add key1 value] leaves every other key [key2] as it
    was: [Get] of [key2] on the map returned is [Get] of [key2] on the
    original map. *)
Theorem Get_other_after_Add zone maps m key1 key2 value :
  reachable zone maps → m ∈ maps → key1 ≠ key2 →
  ∃ zone' m' v2, Add zone m key1 value = Some (zone', m') ∧
                 Get zone m key2 = Some v2 ∧
                 Get zone' m' key2 = Some v2.
Proof.
  intros [Hz Hm]%reachable_wf Hin Hne. specialize (Hm _ Hin).
  destruct (Get_total zone m key2 Hz Hm) as [v2 Hv2].
  destruct (Add_spec zone m key1 value Hz Hm)
    as (cur & Hget & [[_ HA]|(_ & t & HA & _ & _ & _ & Hother)]).
  - by exists zone, m, v2.
  - eexists _, _, v2. split_and!; [done|done|]. apply Hother; [|done].
    congruence.
Qed.

(** C9, the structural invariant: in a reachable zone, every node [n] of
    every map has a [length] between 0 and 32, and behind every side
    pointer [path(i)] that is not null there is a node whose hash bit [i]
    differs from that of [n]. *)
Theorem Add_preserves_structure zone maps m a :
  reachable zone maps → m ∈ maps → node_of zone (tree_ m) a →
  ∃ n, zone !! a = Some n ∧ 0 ≤ length n ≤ 32 ∧
    ∀ i c, Z.of_nat i < length n → path n i = Some (Some c) →
      ∃ cn, zone !! c = Some cn ∧
            hash_bit (key_hash cn) i ≠ hash_bit (key_hash n) i.
Proof.
  intros [Hz Hm]%reachable_wf Hin Hnode. specialize (Hm _ Hin).
  destruct (node_of_wf zone (tree_ m) a Hz Hm Hnode) as [n Hn].
  exists n. pose proof (Hz _ _ Hn) as Hwf. split; [done|].
  pose proof (wf_length _ _ Hwf). pose proof (wf_length_max _ _ Hwf).
  split; [lia|]. intros i c _ Hc.
  destruct (wf_side _ _ Hwf i c Hc) as (tc & Htc & _ & Hb). eauto.
Qed.

(** ** The properties of the iterators *)

(** C7, iteration order: iterating over a map of a reachable zone comes to
    an end, and the pairs it yields are in strictly increasing order: by
    the 32-bit hash of the key, compared as an unsigned integer, and by
    the key among equal hashes. *)
Theorem iteration_strictly_increasing zone maps m :
  reachable zone maps → m ∈ maps →
  ∃ l n0, (∀ n, (n0 ≤ n)%nat → elements n zone m = Some l) ∧
          StronglySorted entry_lt l.
Proof.
  intros [Hz Hm]%reachable_wf Hin. specialize (Hm _ Hin).
  destruct (begin_produces zone m Hz Hm)
    as (it & l & Hbegin & _ & Hprod & Hsort & _).
  destruct (produces_collect zone it l (def_value_ m) Hprod) as [n0 Hn0].
  exists l, n0. split; [|done]. intros n Hn. unfold elements.
  rewrite Hbegin. simpl. by apply Hn0.
Qed.

(** What the iteration does guarantee: it comes to an end, no key is
    yielded twice, every pair yielded is a binding of the map, and every
    binding whose value is not the default is yielded. *)
Theorem iteration_yields_bindings zone maps m :
  reachable zone maps → m ∈ maps →
  ∃ l n0, (∀ n, (n0 ≤ n)%nat → elements n zone m = Some l) ∧
    NoDup l.*1 ∧
    (∀ key value, (key, value) ∈ l → Get zone m key = Some value) ∧
    (∀ key value, Get zone m key = Some value → value ≠ def_value_ m →
                  (key, value) ∈ l).
Proof.
  intros [Hz Hm]%reachable_wf Hin. specialize (Hm _ Hin).
  destruct (begin_produces zone m Hz Hm)
    as (it & l & Hbegin & _ & Hprod & Hsort & Hsound & Hcomplete).
  destruct (produces_collect zone it l (def_value_ m) Hprod) as [n0 Hn0].
  exists l, n0. split_and!; [|by apply sorted_keys_NoDup|done|done].
  intros n Hn. unfold elements. rewrite Hbegin. simpl. by apply Hn0.
Qed.

(** What zipping two maps does guarantee: it comes to an end, the triples
    are in strictly increasing key order, each triple holds the values of
    [Get] in both maps, and every key whose value is not the default in
    one of the maps has its triple. *)
Theorem zip_yields_bindings zone maps a b :
  reachable zone maps → a ∈ maps → b ∈ maps →
  ∃ l n0, (∀ n, (n0 ≤ n)%nat → zip_elements n zone a b = Some l) ∧
    StronglySorted triple_lt l ∧
    (∀ key va vb, (key, va, vb) ∈ l →
       Get zone a key = Some va ∧ Get zone b key = Some vb) ∧
    (∀ key va vb, Get zone a key = Some va → Get zone b key = Some vb →
       va ≠ def_value_ a ∨ vb ≠ def_value_ b → (key, va, vb) ∈ l).
Proof.
  intros [Hz Hm]%reachable_wf Ha Hb.
  destruct (Zip_spec zone a b Hz (Hm _ Ha) (Hm _ Hb))
    as (d & last & l & n0 & Hbegin & Hend & Hrun & Hsound & Hcomplete & Hs).
  exists l, n0. split_and!; [|done..].
  intros n Hn. unfold zip_elements. rewrite Hbegin, Hend.
  cbn [mbind option_bind]. by apply Hrun.
Qed.

(** C3, as the code has it: on two maps of a reachable zone [operator==]
    returns, and it returns [true] exactly when the two root pointers are
    identical, or the defaults are equal and [Get] agrees on every key. *)
Theorem equality_coherence zone maps a b :
  reachable zone maps → a ∈ maps → b ∈ maps →
  ∃ r n0, (∀ n, (n0 ≤ n)%nat → map_equal n zone a b = Some r) ∧
    (r = true ↔
     tree_ a = tree_ b ∨
     (def_value_ a = def_value_ b ∧
      ∀ key, Get zone a key = Get zone b key)).
Proof.
  intros [Hz Hm]%reachable_wf Ha Hb. apply map_equal_spec; auto.
Qed.

(** C10: [operator++] on an iterator that is past the end returns, leaves
    the iterator as it is, and the iterator still is equal to [end()]. *)
Theorem incr_past_the_end n zone it m :
  is_end it = true →
  incr (S n) zone it = Some it ∧ iterator_eq zone it (end_ m) = Some true.
Proof.
  intros Hend. split.
  - unfold is_end in Hend. apply bool_decide_eq_true in Hend.
    simpl. by rewrite Hend.
  - unfold end_. rewrite iterator_eq_end. by f_equal.
Qed.

(** ** The hash values *)

(** [HashValue::operator<] compares two hash values as the code reads
    their bits, from the high end: the smaller one is the one with
    [kLeft] at the first position where the two differ. *)
Theorem HashValue_order_is_bit_order (x y : Z) :
  hash_lt (HashValue x) (HashValue y) = true ↔
  ∃ pos, (pos < 32)%nat ∧
    same_prefix pos (HashValue x) (HashValue y) ∧
    hash_bit (HashValue x) pos = kLeft ∧
    hash_bit (HashValue y) pos = kRight.
Proof.
  pose proof (HashValue_in_range x) as Hx.
  pose proof (HashValue_in_range y) as Hy.
  unfold hash_lt. rewrite Z.ltb_lt. split.
  - intros Hlt.
    destruct (first_diff_total (HashValue x) (HashValue y) 0) as [j Hj];
      [done|done|lia|intros i Hi; lia|].
    apply first_diff_bits in Hj as (Hjr & Hjb & Hjd).
    assert (same_prefix j (HashValue x) (HashValue y)) as Hpre.
    { intros i Hi. apply Hjb. lia. }
    exists j. split; [lia|]. split; [done|].
    destruct (hash_bit (HashValue x) j) eqn:Ex,
             (hash_bit (HashValue y) j) eqn:Ey; try done.
    exfalso.
    pose proof (hash_lt_of_prefix j _ _ Hy Hx ltac:(lia)
                  (same_prefix_sym _ _ _ Hpre) Ey Ex).
    lia.
  - intros (pos & Hpos & Hpre & Ex & Ey). by eapply hash_lt_of_prefix.
Qed.

(** [HashValue::operator==] holds exactly when [operator[]] gives the
    same bit at each of the 32 positions. *)
Theorem HashValue_eq_iff_bits (x y : Z) :
  hash_eq (HashValue x) (HashValue y) = true ↔
  ∀ pos, (pos < 32)%nat →
    hash_bit (HashValue x) pos = hash_bit (HashValue y) pos.
Proof.
  rewrite hash_eq_true. split; [by intros ->|].
  intros Hbits. apply same_prefix_32_eq; [apply HashValue_in_range..|done].
Qed.

(** The inner loop of [FindHash], [while ((hash ^ tree->key_hash)[level]
    == 0) ++level], stops at the first level from [level] on where the
    two hashes differ; when they agree at every level below 32 it reads
    bit 32 of the hash, which the bitset does not have. *)
Theorem first_diff_is_first_differing_bit (h t : Z) (level : nat) :
  match first_diff (hash_xor h t) level with
  | Some j =>
      (level ≤ j < 32)%nat ∧
      (∀ i, (level ≤ i < j)%nat → hash_bit h i = hash_bit t i) ∧
      hash_bit h j ≠ hash_bit t j
  | None => ∀ i, (level ≤ i < 32)%nat → hash_bit h i = hash_bit t i
  end.
Proof.
  destruct (first_diff (hash_xor h t) level) as [j|] eqn:Hj.
  - by apply first_diff_bits.
  - intros i Hi. apply hash_bit_xor; [lia|].
    apply (skip_common_None _ _ _ Hj). unfold kHashBits. lia.
Qed.

(** ** The two versions of FindHash *)

(** On a map of a reachable zone the path-recording [FindHash], which
    [Add] calls, returns the node that the [FindHash] of [Get] returns,
    whatever the path array held before; the length it reports is at most
    32, and a node that is found has the hash that was looked for. *)
Theorem FindHash_versions_agree zone maps m (hash : Z) (garbage : list ptr) :
  reachable zone maps → m ∈ maps → List.length garbage = 32%nat →
  ∃ tree path_out len,
    FindHash_path zone m (HashValue hash) garbage
      = Some (tree, path_out, len) ∧
    FindHash zone m (HashValue hash) = Some tree ∧
    (len ≤ 32)%nat ∧ List.length path_out = 32%nat ∧
    ∀ a, tree = Some a →
      ∃ t, zone !! a = Some t ∧ key_hash t = HashValue hash.
Proof.
  intros [Hz Hm]%reachable_wf Hin Hlen. specialize (Hm _ Hin).
  destruct (FindHash_path_loop_spec 33 zone (HashValue hash) (tree_ m) 0
              garbage Hz (HashValue_in_range _) ltac:(lia) ltac:(lia) Hlen)
    as (old & path' & len & Hfp & Hf & Hl & Hpl & _ & Hold & _).
  { intros a Ha. destruct (Hm a Ha) as [t Ht]. exists t.
    split; [done|]. intros i Hi. lia. }
  exists old, path', len. split_and!; [done| |lia|done|done].
  by rewrite FindHash_find_from.
Qed.

(** ** What Add builds *)

Lemma Add_cases zone m key value :
  wf_zone zone → wf_map zone m →
  ∃ old path' len cur,
    FindHash_path zone m (hash_of key) unwritten_path
      = Some (old, path', len) ∧
    (len ≤ 32)%nat ∧ List.length path' = 32%nat ∧
    (∀ i c, (i < len)%nat → path' !! i = Some (Some c) →
            is_Some (zone !! c)) ∧
    (∀ a, old = Some a → ∃ t, zone !! a = Some t ∧ key_hash t = hash_of key) ∧
    Get zone m key = Some cur ∧
    ((cur = value ∧ Add zone m key value = Some (zone, m)) ∨
     (cur ≠ value ∧ ∃ more,
        new_more zone old key value = Some more ∧
        Add zone m key value =
          Some (zone ++ [new_tree key value len more path'],
                {| tree_ := Some (List.length zone);
                   def_value_ := def_value_ m |}))).
Proof.
  intros Hz Hm.
  destruct (FindHash_path_spec zone m (hash_of key) Hz Hm (hash_of_in_range _))
    as (old & path' & len & Hfp & Hf & Hlen & Hpl & Hold & Hside & _).
  assert (∃ cur, GetFocusedValue zone m old key = Some cur) as [cur Hcur].
  { destruct old as [a|]; simpl; [|by eauto].
    destruct (Hold a eq_refl) as (t & -> & _). simpl. eauto. }
  exists old, path', len, cur. split_and!; [done|done|done| |done| |].
  { intros i c Hi Hc. destruct (Hside i c Hi Hc) as (tc & Htc & _). eauto. }
  { unfold Get. fold (hash_of key). by rewrite Hf. }
  unfold Add. fold (hash_of key). rewrite Hfp. simpl. rewrite Hcur. simpl.
  case_decide as Hv; [by left|right]. split; [done|].
  destruct (new_more_spec zone old key value Hz Hold) as (more & -> & _).
  by exists more.
Qed.

Lemma Add_Get zone m key value :
  wf_zone zone → wf_map zone m →
  ∃ zone' m', Add zone m key value = Some (zone', m') ∧
    wf_zone zone' ∧ wf_map zone' m' ∧ (∃ ext, zone' = zone ++ ext) ∧
    def_value_ m' = def_value_ m ∧
    Get zone' m' key = Some value ∧
    ∀ key2 v, key2 ≠ key → Get zone m key2 = Some v →
              Get zone' m' key2 = Some v.
Proof.
  intros Hz Hm.
  destruct (Add_then_Get zone m key value Hz Hm) as (zone' & m' & HA & Hget).
  destruct (Add_wf _ _ _ _ _ _ Hz Hm HA) as (Hz' & Hm' & Hext).
  exists zone', m'. split_and!; [done..| | |].
  - destruct (Add_spec zone m key value Hz Hm)
      as (cur & _ & [[_ HA']|(_ & t & HA' & _)]);
      rewrite HA' in HA; by injection HA as <- <-.
  - done.
  - intros key2 v Hne Hget2.
    destruct (Add_spec zone m key value Hz Hm)
      as (cur & _ & [[_ HA']|(_ & t & HA' & _ & _ & _ & Hother)]);
      rewrite HA' in HA; injection HA as <- <-; [done|].
    by apply Hother.
Qed.

(** An [Add] that changes the binding of the key allocates one node, at
    the end of the zone, and nothing else: the node holds the pair and
    the 32-bit hash of the key, its [length] is the number of its side
    pointers, which is at most 32, and the root pointer of the map
    returned is the address of this node, which no handle had before. *)
Theorem Add_allocates_one_node zone maps m key value :
  reachable zone maps → m ∈ maps → Get zone m key ≠ Some value →
  ∃ t, Add zone m key value =
         Some (zone ++ [t],
               {| tree_ := Some (List.length zone);
                  def_value_ := def_value_ m |}) ∧
    key_value t = (key, value) ∧ key_hash t = HashValue (Hasher key) ∧
    0 ≤ length t ≤ 32 ∧ length t = Z.of_nat (List.length (path_array t)) ∧
    ∀ m0, m0 ∈ maps → tree_ m0 ≠ Some (List.length zone).
Proof.
  intros [Hz Hm]%reachable_wf Hin Hne.
  destruct (Add_cases zone m key value Hz (Hm _ Hin))
    as (old & path' & len & cur & _ & Hlen & Hpl & _ & _ & Hget &
        [[-> _]|(_ & more & _ & HA)]); [done|].
  eexists. split; [exact HA|]. simpl.
  rewrite length_take_le by lia. rewrite to_int8_small by lia.
  split_and!; [done|done|lia|lia|done|].
  intros m0 Hm0 Hroot. destruct (Hm m0 Hm0 _ Hroot) as [t Ht].
  apply lookup_lt_Some in Ht. lia.
Qed.

(** ** Invariants of the nodes of a reachable zone *)

(** A node only points to nodes that were allocated before it: the side
    pointers of the node at address [a] are addresses below [a]. *)
Theorem nodes_point_to_older_nodes zone maps a t i c :
  reachable zone maps → zone !! a = Some t → path t i = Some (Some c) →
  (c < a)%nat.
Proof.
  intros Hr. revert a t i c.
  induction Hr as [|zone maps def_value Hr IH
                   |zone maps m key value zone' m' Hr IH Hin HA];
    intros a t i c Ha Hc.
  - by rewrite lookup_nil in Ha.
  - eauto.
  - destruct (reachable_wf _ _ Hr) as [Hz Hm].
    destruct (Add_cases zone m key value Hz (Hm _ Hin))
      as (old & path' & len & cur & _ & _ & _ & Hside & _ & _ &
          [[_ HA']|(_ & more & _ & HA')]);
      rewrite HA' in HA; injection HA as <- <-; [eauto|].
    apply lookup_app_Some in Ha as [Ha|[Hge Ha]]; [eauto|].
    apply list_lookup_singleton_Some in Ha as [Ha0 <-].
    unfold path, new_tree in Hc. simpl in Hc.
    apply lookup_take_Some in Hc as [Hc Hi].
    destruct (Hside i c Hi Hc) as [tc Htc].
    apply lookup_lt_Some in Htc. lia.
Qed.

Lemma zm_set_length key value m :
  (List.length m ≤ List.length (zm_set key value m))%nat.
Proof.
  induction m as [|[k v] m IH]; simpl; [lia|].
  destruct (key_less key k); simpl; [lia|].
  destruct (key_less k key); simpl; lia.
Qed.

Lemma zm_set_In key value m : (key, value) ∈ zm_set key value m.
Proof.
  induction m as [|[k v] m IH]; simpl; [by left|].
  destruct (key_less key k) eqn:E1; [by left|].
  destruct (key_less k key) eqn:E2; [by right|].
  rewrite (key_less_total _ _ E1 E2). by left.
Qed.

Lemma zm_set_single key value k v :
  k ≠ key → List.length (zm_set key value [(k, v)]) = 2%nat.
Proof.
  intros Hne. simpl.
  destruct (key_less key k) eqn:E1; [done|].
  destruct (key_less k key) eqn:E2; [done|].
  by rewrite (key_less_total _ _ E1 E2) in Hne.
Qed.

Lemma bucket_keys_NoDup (bucket : ZoneMap) :
  StronglySorted entry_key_lt bucket → NoDup bucket.*1.
Proof.
  induction 1 as [|kv l _ IH Hall]; simpl; constructor; [|done].
  intros (e & Hk & He)%list_elem_of_fmap.
  pose proof (proj1 (Forall_forall _ _) Hall e He) as Hlt.
  unfold entry_key_lt in Hlt. rewrite Hk, key_less_irrefl in Hlt. done.
Qed.

Lemma bucket_inv zone maps a t bucket :
  reachable zone maps → zone !! a = Some t → more t = Some bucket →
  (2 ≤ List.length bucket)%nat ∧ key_value t ∈ bucket.
Proof.
  intros Hr. revert a t bucket.
  induction Hr as [|zone maps def_value Hr IH
                   |zone maps m key value zone' m' Hr IH Hin HA];
    intros a t bucket Ha Hb.
  - by rewrite lookup_nil in Ha.
  - eauto.
  - destruct (reachable_wf _ _ Hr) as [Hz Hm].
    destruct (Add_cases zone m key value Hz (Hm _ Hin))
      as (old & path' & len & cur & _ & _ & _ & _ & Hold & _ &
          [[_ HA']|(_ & more & Hmore & HA')]);
      rewrite HA' in HA; injection HA as <- <-; [eauto|].
    apply lookup_app_Some in Ha as [Ha|[Hge Ha]]; [eauto|].
    apply list_lookup_singleton_Some in Ha as [Ha0 <-].
    simpl in Hb. subst more. simpl.
    unfold new_more in Hmore. destruct old as [a0|]; [|done].
    destruct (Hold a0 eq_refl) as (t0 & Ht0 & _).
    rewrite Ht0 in Hmore. simpl in Hmore.
    case_bool_decide as Hcase; [done|]. injection Hmore as <-.
    split; [|apply zm_set_In].
    destruct (more t0) as [bucket0|] eqn:Hb0.
    + destruct (IH a0 t0 bucket0 Ht0 Hb0) as [Hlen _].
      pose proof (zm_set_length key value bucket0). lia.
    + rewrite zm_set_single; [done|]. intros Hk. by apply Hcase.
Qed.

(** A node has a collision bucket only for two keys or more: the bucket
    holds at least two pairs, the pair of the node is one of them, no key
    is in it twice, and each of its keys has the hash of the node. *)
Theorem collision_buckets_hold_two_keys zone maps a t bucket :
  reachable zone maps → zone !! a = Some t → more t = Some bucket →
  (2 ≤ List.length bucket)%nat ∧ key_value t ∈ bucket ∧
  NoDup bucket.*1 ∧
  ∀ kv, kv ∈ bucket → HashValue (Hasher kv.1) = key_hash t.
Proof.
  intros Hr Ha Hb.
  destruct (bucket_inv zone maps a t bucket Hr Ha Hb) as [Hlen Hkv].
  destruct (reachable_wf _ _ Hr) as [Hz _].
  destruct (wf_more _ _ (Hz _ _ Ha) bucket Hb) as (_ & Hsorted & Hhash).
  split_and!; [done|done|by apply bucket_keys_NoDup|done].
Qed.

(** [last_depth] of a map of a reachable zone is between 0 and 32, and it
    is 0 for a map without a root. *)
Theorem last_depth_bounded zone maps m :
  reachable zone maps → m ∈ maps →
  ∃ depth, last_depth zone m = Some depth ∧ 0 ≤ depth ≤ 32 ∧
           (tree_ m = None → depth = 0).
Proof.
  intros [Hz Hm]%reachable_wf Hin. specialize (Hm _ Hin).
  unfold last_depth. destruct (tree_ m) as [a|] eqn:Hroot; [|by exists 0].
  destruct (Hm a Hroot) as [t Ht]. rewrite Ht. simpl.
  exists (length t). pose proof (Hz _ _ Ht) as Hwf.
  pose proof (wf_length _ _ Hwf). pose proof (wf_length_max _ _ Hwf).
  split_and!; [done|lia|lia|done].
Qed.

(** ** Runs of Set *)

Lemma value_in_app l1 l2 def_value key :
  value_in (l1 ++ l2) def_value key =
  value_in l1 (value_in l2 def_value key) key.
Proof.
  induction l1 as [|[k v] l1 IH]; simpl; [done|]. by case_decide.
Qed.

Lemma Set_all_spec l :
  ∀ zone m, wf_zone zone → wf_map zone m →
  ∃ zone' m', Set_all zone m l = Some (zone', m') ∧
    wf_zone zone' ∧ wf_map zone' m' ∧ (∃ ext, zone' = zone ++ ext) ∧
    def_value_ m' = def_value_ m ∧
    ∀ key v0, Get zone m key = Some v0 →
      Get zone' m' key = Some (value_in (reverse l) v0 key).
Proof.
  induction l as [|[k v] l IH]; intros zone m Hz Hm.
  - exists zone, m. split_and!; [done..| |done|done].
    exists []. by rewrite app_nil_r.
  - destruct (Add_Get zone m k v Hz Hm)
      as (zone1 & m1 & HA & Hz1 & Hm1 & [ext1 ->] & Hd1 & Hk & Hother).
    destruct (IH _ m1 Hz1 Hm1)
      as (zone' & m' & HS & Hz' & Hm' & [ext' ->] & Hd' & Hget).
    exists ((zone ++ ext1) ++ ext'), m'. split_and!; [|done|done| | |].
    + cbn [Set_all]. unfold Set_. rewrite HA. by cbn [mbind option_bind].
    + exists (ext1 ++ ext'). by rewrite app_assoc.
    + congruence.
    + intros key v0 Hv0. rewrite reverse_cons, value_in_app.
      apply Hget. simpl. case_decide as Hkey; [by subst|].
      by apply Hother.
Qed.

(** [Get] after a run of [Set] calls on a handle: every [Set] returns,
    and afterwards a key has the value of the last [Set] of this key in
    the run, or, when the run has none, the value it had before; on a new
    map this value is the default. *)
Theorem Get_after_Set_all zone maps m l :
  reachable zone maps → m ∈ maps →
  ∃ zone' m', Set_all zone m l = Some (zone', m') ∧
    ∀ key, ∃ v0, Get zone m key = Some v0 ∧
      Get zone' m' key = Some (value_in (reverse l) v0 key) ∧
      (tree_ m = None → v0 = def_value_ m).
Proof.
  intros [Hz Hm]%reachable_wf Hin. specialize (Hm _ Hin).
  destruct (Set_all_spec l zone m Hz Hm)
    as (zone' & m' & HS & _ & _ & _ & _ & Hget).
  exists zone', m'. split; [done|]. intros key.
  destruct (Get_total zone m key Hz Hm) as [v0 Hv0].
  exists v0. split_and!; [done|by apply Hget|].
  intros Hroot. unfold Get, FindHash in Hv0. rewrite Hroot in Hv0.
  simpl in Hv0. congruence.
Qed.

(** ** operator== and operator!= *)

Lemma same_handle (a b : PersistentMap) :
  tree_ a = tree_ b → def_value_ a = def_value_ b → a = b.
Proof. destruct a, b; simpl; by intros -> ->. Qed.

Lemma map_equal_of_Get zone a b :
  wf_zone zone → wf_map zone a → wf_map zone b →
  def_value_ a = def_value_ b →
  (∀ key, Get zone a key = Get zone b key) →
  ∃ n0, ∀ n, (n0 ≤ n)%nat → map_equal n zone a b = Some true.
Proof.
  intros Hz Ha Hb Hdef Hget.
  destruct (map_equal_spec zone a b Hz Ha Hb) as (r & n0 & Hrun & Hiff).
  exists n0. intros n Hn. rewrite (Hrun n Hn). f_equal.
  apply Hiff. by right.
Qed.

(** For two maps with the same default value [operator==] decides
    whether [Get] gives the same value on both for every key. *)
Theorem equality_with_one_default zone maps a b :
  reachable zone maps → a ∈ maps → b ∈ maps →
  def_value_ a = def_value_ b →
  ∃ r n0, (∀ n, (n0 ≤ n)%nat → map_equal n zone a b = Some r) ∧
    (r = true ↔ ∀ key, Get zone a key = Get zone b key).
Proof.
  intros [Hz Hm]%reachable_wf Ha Hb Hdef.
  destruct (map_equal_spec zone a b Hz (Hm _ Ha) (Hm _ Hb))
    as (r & n0 & Hrun & Hiff).
  exists r, n0. split; [done|]. rewrite Hiff. split.
  - intros [Hroot|[_ Hget]]; [|done].
    intros key. by rewrite (same_handle a b Hroot Hdef).
  - intros Hget. by right.
Qed.

(** [operator==] is symmetric: [a == b] and [b == a] return the same. *)
Theorem equality_symmetric zone maps a b :
  reachable zone maps → a ∈ maps → b ∈ maps →
  ∃ r n0, ∀ n, (n0 ≤ n)%nat →
    map_equal n zone a b = Some r ∧ map_equal n zone b a = Some r.
Proof.
  intros [Hz Hm]%reachable_wf Ha Hb.
  destruct (map_equal_spec zone a b Hz (Hm _ Ha) (Hm _ Hb))
    as (r & n0 & Hrun & Hiff).
  destruct (map_equal_spec zone b a Hz (Hm _ Hb) (Hm _ Ha))
    as (r' & n0' & Hrun' & Hiff').
  exists r, (n0 `max` n0')%nat. intros n Hn.
  rewrite Hrun, Hrun' by lia. split; [done|]. f_equal.
  apply eq_bool_prop_intro. rewrite !Is_true_true, Hiff, Hiff'.
  split; (intros [Hroot|[Hdef Hget]]; [by left|right; by split]).
Qed.

(** [operator!=] returns [true] only for maps that differ: then the two
    roots are different pointers, and the defaults differ or [Get] differs
    on some key; and it returns [true] for any two maps with the same
    default on which [Get] differs. *)
Theorem inequality_reports_difference zone maps a b :
  reachable zone maps → a ∈ maps → b ∈ maps →
  ∃ r n0, (∀ n, (n0 ≤ n)%nat → map_not_equal n zone a b = Some r) ∧
    (r = true →
       tree_ a ≠ tree_ b ∧
       (def_value_ a ≠ def_value_ b ∨
        ¬ ∀ key, Get zone a key = Get zone b key)) ∧
    (def_value_ a = def_value_ b →
     (∃ key, Get zone a key ≠ Get zone b key) → r = true).
Proof.
  intros [Hz Hm]%reachable_wf Ha Hb.
  destruct (map_equal_spec zone a b Hz (Hm _ Ha) (Hm _ Hb))
    as (r & n0 & Hrun & Hiff).
  exists (negb r), n0. split_and!.
  - intros n Hn. unfold map_not_equal. by rewrite Hrun.
  - intros Hr. apply negb_true_iff in Hr. split.
    + intros Hroot. rewrite (proj2 Hiff) in Hr; [done|by left].
    + destruct (decide (def_value_ a = def_value_ b)) as [Hdef|Hdef];
        [right|by left].
      intros Hget. rewrite (proj2 Hiff) in Hr; [done|by right].
  - intros Hdef [key Hkey]. apply negb_true_iff.
    destruct r; [|done]. destruct Hkey.
    destruct (proj1 Hiff eq_refl) as [Hroot|[_ Hget]]; [|done].
    by rewrite (same_handle a b Hroot Hdef).
Qed.

(** Overwriting: [Add(key, v)] followed by [Add(key, w)] gives a map
    that [operator==] finds equal to the one that [Add(key, w)] alone
    gives. *)
Theorem Add_overwrite zone maps m key v w :
  reachable zone maps → m ∈ maps →
  ∃ zone1 m1 zone2 m2 zone3 m3 n0,
    Add zone m key v = Some (zone1, m1) ∧
    Add zone1 m1 key w = Some (zone2, m2) ∧
    Add zone2 m key w = Some (zone3, m3) ∧
    ∀ n, (n0 ≤ n)%nat → map_equal n zone3 m2 m3 = Some true.
Proof.
  intros [Hz Hm]%reachable_wf Hin. specialize (Hm _ Hin).
  destruct (Add_Get zone m key v Hz Hm)
    as (zone1 & m1 & HA1 & Hz1 & Hm1 & [ext1 ->] & Hd1 & Hk1 & Ho1).
  destruct (Add_Get _ m1 key w Hz1 Hm1)
    as (zone2 & m2 & HA2 & Hz2 & Hm2 & [ext2 ->] & Hd2 & Hk2 & Ho2).
  assert (wf_map ((zone ++ ext1) ++ ext2) m) as Hm'
    by (by do 2 apply wf_map_app).
  destruct (Add_Get _ m key w Hz2 Hm')
    as (zone3 & m3 & HA3 & Hz3 & Hm3 & [ext3 ->] & Hd3 & Hk3 & Ho3).
  destruct (map_equal_of_Get (((zone ++ ext1) ++ ext2) ++ ext3) m2 m3)
    as [n0 Hn0]; [done|by apply wf_map_app|done|congruence| |].
  { intros key2.
    destruct (Get_total zone m key2 Hz Hm) as [v0 Hv0].
    destruct (decide (key2 = key)) as [->|Hne].
    - rewrite Hk3. by apply Get_app.
    - rewrite (Ho3 key2 v0 Hne) by (by do 2 apply Get_app).
      apply Get_app. apply Ho2; [done|]. by apply Ho1. }
  by exists (zone ++ ext1), m1, ((zone ++ ext1) ++ ext2), m2,
            (((zone ++ ext1) ++ ext2) ++ ext3), m3, n0.
Qed.

(** Two [Add]s of different keys commute: the maps that the two orders
    give are equal for [operator==]. *)
Theorem Add_commute zone maps m key1 v1 key2 v2 :
  reachable zone maps → m ∈ maps → key1 ≠ key2 →
  ∃ zone1 m1 zone2 m2 zone3 m3 zone4 m4 n0,
    Add zone m key1 v1 = Some (zone1, m1) ∧
    Add zone1 m1 key2 v2 = Some (zone2, m2) ∧
    Add zone2 m key2 v2 = Some (zone3, m3) ∧
    Add zone3 m3 key1 v1 = Some (zone4, m4) ∧
    ∀ n, (n0 ≤ n)%nat → map_equal n zone4 m2 m4 = Some true.
Proof.
  intros [Hz Hm]%reachable_wf Hin Hkeys. specialize (Hm _ Hin).
  destruct (Add_Get zone m key1 v1 Hz Hm)
    as (zone1 & m1 & HA1 & Hz1 & Hm1 & [ext1 ->] & Hd1 & Hk1 & Ho1).
  destruct (Add_Get _ m1 key2 v2 Hz1 Hm1)
    as (zone2 & m2 & HA2 & Hz2 & Hm2 & [ext2 ->] & Hd2 & Hk2 & Ho2).
  assert (wf_map ((zone ++ ext1) ++ ext2) m) as Hm'
    by (by do 2 apply wf_map_app).
  destruct (Add_Get _ m key2 v2 Hz2 Hm')
    as (zone3 & m3 & HA3 & Hz3 & Hm3 & [ext3 ->] & Hd3 & Hk3 & Ho3).
  destruct (Add_Get _ m3 key1 v1 Hz3 Hm3)
    as (zone4 & m4 & HA4 & Hz4 & Hm4 & [ext4 ->] & Hd4 & Hk4 & Ho4).
  destruct (map_equal_of_Get
              ((((zone ++ ext1) ++ ext2) ++ ext3) ++ ext4) m2 m4)
    as [n0 Hn0]; [done|by do 2 apply wf_map_app|done|congruence| |].
  { intros key.
    destruct (Get_total zone m key Hz Hm) as [v0 Hv0].
    destruct (decide (key = key1)) as [->|Hne1].
    - rewrite Hk4. do 2 apply Get_app. by apply Ho2.
    - destruct (decide (key = key2)) as [->|Hne2].
      + rewrite (Ho4 key2 v2) by done. by do 2 apply Get_app.
      + rewrite (Ho4 key v0 Hne1)
          by (apply Ho3; [done|]; by do 2 apply Get_app).
        do 2 apply Get_app. apply Ho2; [done|]. by apply Ho1. }
  by exists (zone ++ ext1), m1, ((zone ++ ext1) ++ ext2), m2,
            (((zone ++ ext1) ++ ext2) ++ ext3), m3,
            ((((zone ++ ext1) ++ ext2) ++ ext3) ++ ext4), m4, n0.
Qed.

(** ** The empty map *)

(** A map without a root is empty in every zone: [Get] returns the
    default value for every key, the iteration over the map yields
    nothing, and so does zipping it with another map without a root. *)
Theorem empty_map_is_empty zone (m m' : PersistentMap) key n :
  tree_ m = None → tree_ m' = None →
  Get zone m key = Some (def_value_ m) ∧
  elements n zone m = Some [] ∧
  zip_elements n zone m m' = Some [].
Proof.
  intros Hm Hm'. split_and!.
  - unfold Get, FindHash. by rewrite Hm.
  - unfold elements, begin. rewrite Hm. simpl. by destruct n.
  - unfold zip_elements, Zip_begin, Zip_end, begin. rewrite Hm, Hm'.
    simpl. by destruct n.
Qed.

(** ** Comparing iterators *)

Lemma iterator_of_ok zone m it :
  wf_zone zone → wf_map zone m → iterator_of zone m it →
  it_ok zone it ∧ it_def_value_ it = def_value_ m.
Proof.
  intros Hz Hm. induction 1 as [it Hbegin| |n it it' _ [IH IHd] Hincr].
  - destruct (begin_spec zone m Hz Hm) as (it0 & Hb & Hok & Hd & _).
    rewrite Hbegin in Hb. by injection Hb as <-.
  - split; [apply it_ok_end|done].
  - destruct (is_end it) eqn:Hend.
    + destruct n; [done|]. simpl in Hincr.
      unfold is_end in Hend. apply bool_decide_eq_true in Hend.
      rewrite Hend in Hincr. by injection Hincr as <-.
    + destruct (incr_spec (n `max` List.length (it_all zone it)) zone it
                  Hz IH Hend ltac:(lia))
        as (it1 & skipped & Hincr1 & Hok1 & Hd1 & _).
      rewrite (incr_mono n (n `max` List.length (it_all zone it)) zone it it'
                 Hincr ltac:(lia)) in Hincr1.
      injection Hincr1 as <-. split; [done|congruence].
Qed.

Lemma entry_lt_asym p q : entry_lt p q → entry_lt q p → False.
Proof.
  intros H1 H2. by apply (entry_lt_irrefl p p (entry_lt_trans p q p H1 H2)).
Qed.

(** The position of two iterators: both at the end, one of them at the
    end, or both at a pair. *)
Lemma iterator_positions zone ia ib :
  wf_zone zone → it_ok zone ia → it_ok zone ib →
  (is_end ia = true ∧ is_end ib = true) ∨
  (is_end ia = true ∧ is_end ib = false ∧ is_Some (deref zone ib)) ∨
  (is_end ia = false ∧ is_end ib = true ∧ is_Some (deref zone ia)) ∨
  (is_end ia = false ∧ is_end ib = false ∧
   ∃ kva kvb, deref zone ia = Some kva ∧ deref zone ib = Some kvb ∧
     iterator_eq zone ia ib = Some (bool_decide (kva.1 = kvb.1)) ∧
     iterator_lt zone ia ib = Some (entry_ltb kva kvb) ∧
     iterator_lt zone ib ia = Some (entry_ltb kvb kva)).
Proof.
  intros Hz Hoka Hokb.
  destruct (it_produces zone ia Hz Hoka) as (la & Hpa & _).
  destruct (it_produces zone ib Hz Hokb) as (lb & Hpb & _).
  destruct la as [|kva la], lb as [|kvb lb].
  - left. split; by eapply produces_nil_inv.
  - right; left. apply produces_nil_inv in Hpa.
    apply produces_cons_inv in Hpb as (Hb & Hdb & _). eauto.
  - right; right; left. apply produces_nil_inv in Hpb.
    apply produces_cons_inv in Hpa as (Ha & Hda & _). eauto.
  - right; right; right.
    destruct (iterator_compare_produces _ _ _ _ _ _ _ Hpa Hpb) as [Heq Hlt].
    destruct (iterator_compare_produces _ _ _ _ _ _ _ Hpb Hpa) as [_ Hgt].
    apply produces_cons_inv in Hpa as (Ha & Hda & _).
    apply produces_cons_inv in Hpb as (Hb & Hdb & _).
    split_and!; [done|done|]. by exists kva, kvb.
Qed.

Lemma iterator_compare_ok zone ia ib :
  wf_zone zone → it_ok zone ia → it_ok zone ib →
  ∃ same less greater,
    iterator_eq zone ia ib = Some same ∧
    iterator_lt zone ia ib = Some less ∧
    iterator_lt zone ib ia = Some greater ∧
    (same = true ∧ less = false ∧ greater = false ∨
     same = false ∧ less = true ∧ greater = false ∨
     same = false ∧ less = false ∧ greater = true).
Proof.
  intros Hz Hoka Hokb.
  destruct (iterator_positions zone ia ib Hz Hoka Hokb)
    as [[Ha Hb]|[(Ha & Hb & _)|[(Ha & Hb & _)|
        (Ha & Hb & kva & kvb & _ & _ & Heq & Hlt & Hgt)]]].
  - exists true, false, false. unfold iterator_eq, iterator_lt.
    rewrite Ha, Hb. split_and!; [done..|]. by left.
  - exists false, false, true. unfold iterator_eq, iterator_lt.
    rewrite Ha, Hb. split_and!; [done..|]. right; by right.
  - exists false, true, false. unfold iterator_eq, iterator_lt.
    rewrite Ha, Hb. split_and!; [done..|]. right; by left.
  - eexists _, _, _. split_and!; [done..|].
    destruct (decide (kva.1 = kvb.1)) as [Hk|Hk].
    + left. rewrite bool_decide_eq_true_2 by done. split_and!; [done| |].
      * destruct (entry_ltb kva kvb) eqn:E; [|done].
        apply entry_ltb_spec, entry_lt_irrefl in E. done.
      * destruct (entry_ltb kvb kva) eqn:E; [|done].
        apply entry_ltb_spec, entry_lt_irrefl in E. done.
    + right. rewrite bool_decide_eq_false_2 by done.
      destruct (entry_lt_total kva kvb Hk) as [Hlt'|Hgt'].
      * left. split_and!; [done|by apply entry_ltb_spec|].
        destruct (entry_ltb kvb kva) eqn:E; [|done].
        apply entry_ltb_spec in E. destruct (entry_lt_asym _ _ Hlt' E).
      * right. split_and!; [done| |by apply entry_ltb_spec].
        destruct (entry_ltb kva kvb) eqn:E; [|done].
        apply entry_ltb_spec in E. destruct (entry_lt_asym _ _ Hgt' E).
Qed.

(** Two iterators over maps of one zone are comparable: [operator==] and
    [operator<] return on them, and exactly one of [ia == ib], [ia < ib]
    and [ib < ia] holds. *)
Theorem iterator_order_trichotomy zone maps a b ia ib :
  reachable zone maps → a ∈ maps → b ∈ maps →
  iterator_of zone a ia → iterator_of zone b ib →
  ∃ same less greater,
    iterator_eq zone ia ib = Some same ∧
    iterator_lt zone ia ib = Some less ∧
    iterator_lt zone ib ia = Some greater ∧
    (same = true ∧ less = false ∧ greater = false ∨
     same = false ∧ less = true ∧ greater = false ∨
     same = false ∧ less = false ∧ greater = true).
Proof.
  intros [Hz Hm]%reachable_wf Ha Hb Hia Hib.
  destruct (iterator_of_ok zone a ia Hz (Hm _ Ha) Hia) as [Hoka _].
  destruct (iterator_of_ok zone b ib Hz (Hm _ Hb) Hib) as [Hokb _].
  by apply iterator_compare_ok.
Qed.

(** The double iterator over two iterators of maps of one zone: the
    constructor returns, one of the two sides is current, and unless both
    iterators are at the end [operator*] returns a triple, without
    reading through an iterator that is at the end: the key and the value
    of a side that is current are those of its iterator, and the value of
    a side that is not current is the default value of its map. *)
Theorem double_iterator_deref_defined zone maps a b ia ib :
  reachable zone maps → a ∈ maps → b ∈ maps →
  iterator_of zone a ia → iterator_of zone b ib →
  ∃ d, double_iterator_new zone ia ib = Some d ∧
    (first_current_ d = true ∨ second_current_ d = true) ∧
    (double_is_end d = false →
     ∃ key va vb, double_deref zone d = Some (key, va, vb) ∧
       (if first_current_ d then deref zone ia = Some (key, va)
        else va = def_value_ a) ∧
       (if second_current_ d then deref zone ib = Some (key, vb)
        else vb = def_value_ b)).
Proof.
  intros [Hz Hm]%reachable_wf Ha Hb Hia Hib.
  destruct (iterator_of_ok zone a ia Hz (Hm _ Ha) Hia) as [Hoka Hda].
  destruct (iterator_of_ok zone b ib Hz (Hm _ Hb) Hib) as [Hokb Hdb].
  destruct (iterator_positions zone ia ib Hz Hoka Hokb)
    as [[Hea Heb]|[(Hea & Heb & [kvb Hkvb])|[(Hea & Heb & [kva Hkva])|
        (Hea & Heb & kva & kvb & Hkva & Hkvb & Heq & Hlt & Hgt)]]].
  - eexists. split.
    { unfold double_iterator_new, iterator_eq. by rewrite Hea, Heb. }
    split; [by left|]. unfold double_is_end. simpl. by rewrite Hea, Heb.
  - eexists. split.
    { unfold double_iterator_new, iterator_eq, iterator_lt.
      by rewrite Hea, Heb. }
    split; [by right|]. intros _. unfold double_deref. simpl.
    rewrite Hkvb. simpl. exists kvb.1, (it_def_value_ ia), kvb.2.
    split_and!; [done|done|by destruct kvb].
  - eexists. split.
    { unfold double_iterator_new, iterator_eq, iterator_lt.
      by rewrite Hea, Heb. }
    split; [by left|]. intros _. unfold double_deref. simpl.
    rewrite Hkva. simpl. exists kva.1, kva.2, (it_def_value_ ib).
    split_and!; [done|by destruct kva|done].
  - unfold double_iterator_new. rewrite Heq. simpl.
    case_bool_decide as Hk.
    + eexists. split; [done|]. split; [by left|]. intros _.
      unfold double_deref. simpl. rewrite Hkva, Hkvb. simpl.
      exists kva.1, kva.2, kvb.2.
      split_and!; [done|by destruct kva|]. rewrite Hk. by destruct kvb.
    + rewrite Hlt. simpl. destruct (entry_ltb kva kvb).
      * eexists. split; [done|]. split; [by left|]. intros _.
        unfold double_deref. simpl. rewrite Hkva. simpl.
        exists kva.1, kva.2, (it_def_value_ ib).
        split_and!; [done|by destruct kva|done].
      * eexists. split; [done|]. split; [by right|]. intros _.
        unfold double_deref. simpl. rewrite Hkvb. simpl.
        exists kvb.1, (it_def_value_ ia), kvb.2.
        split_and!; [done|done|by destruct kvb].
Qed.

(** ** Zip is symmetric *)

Lemma sorted_triples_NoDup (l : list (Key * Value * Value)) :
  StronglySorted triple_lt l → NoDup l.
Proof.
  induction 1 as [|t l _ IH Hall]; constructor; [|done].
  intros Hin. pose proof (proj1 (Forall_forall _ _) Hall t Hin) as Hlt.
  by apply entry_lt_irrefl in Hlt.
Qed.

Lemma zip_ok_incl da db la lb l1 l2 :
  zip_ok da db la lb l1 → zip_ok da db la lb l2 →
  ∀ triple, triple ∈ l1 → triple ∈ l2.
Proof.
  intros (Hv1 & _ & _) (Hv2 & Hc2 & _) [[key va] vb] Hin.
  destruct (Hv1 _ _ _ Hin) as (Hk & -> & ->).
  destruct (proj1 (list_elem_of_fmap _ _ _) (Hc2 key Hk)) as (p & Hkp & Hp).
  apply list_elem_of_fmap in Hp as ([[k xa] xb] & -> & Ht).
  simpl in Hkp. subst k.
  by destruct (Hv2 _ _ _ Ht) as (_ & -> & ->).
Qed.

Lemma zip_ok_unique da db la lb l1 l2 :
  zip_ok da db la lb l1 → zip_ok da db la lb l2 → l1 = l2.
Proof.
  intros H1 H2.
  apply (StronglySorted_unique_strong triple_lt);
    [|apply H1|apply H2|].
  - intros x1 x2 _ _ H12 H21. destruct (entry_lt_asym _ _ H12 H21).
  - apply NoDup_Permutation;
      [apply sorted_triples_NoDup, H1|apply sorted_triples_NoDup, H2|].
    intros x. split; by eapply zip_ok_incl.
Qed.

Lemma zip_ok_swap da db la lb l :
  zip_ok da db la lb l → zip_ok db da lb la (swap_values <$> l).
Proof.
  intros (Hv & Hc & Hs). split_and!.
  - intros key va vb ([[k xa] xb] & [= -> -> ->] & Ht)%list_elem_of_fmap.
    destruct (Hv _ _ _ Ht) as (Hk & -> & ->). split_and!; [|done..].
    destruct Hk; [by right|by left].
  - intros key Hk.
    assert (key ∈ l.*1.*1) as Hin by (apply Hc; destruct Hk; [by right|by left]).
    apply list_elem_of_fmap in Hin as (p & -> & Hp).
    apply list_elem_of_fmap in Hp as (t & -> & Ht).
    apply list_elem_of_fmap. exists (swap_values t).1. split; [done|].
    apply list_elem_of_fmap. exists (swap_values t). split; [done|].
    apply list_elem_of_fmap. by exists t.
  - eapply StronglySorted_fmap; [|done]. by intros [[? ?] ?] [[? ?] ?].
Qed.

(** Zipping [b] with [a] yields the triples that zipping [a] with [b]
    yields, in the same order, with the two values of every triple
    exchanged. *)
Theorem Zip_symmetric zone maps a b :
  reachable zone maps → a ∈ maps → b ∈ maps →
  ∃ l n0, ∀ n, (n0 ≤ n)%nat →
    zip_elements n zone a b = Some l ∧
    zip_elements n zone b a = Some (swap_values <$> l).
Proof.
  intros [Hz Hm]%reachable_wf Ha Hb.
  destruct (begin_produces zone a Hz (Hm _ Ha))
    as (ia & la & Hba & Hda & Hpa & Hsa & _).
  destruct (begin_produces zone b Hz (Hm _ Hb))
    as (ib & lb & Hbb & Hdb & Hpb & Hsb & _).
  destruct (zip_collect_spec zone (def_value_ a) (def_value_ b) la lb ia ib)
    as (d & l & n0 & Hnew & Hrun & Hok); [done..|].
  destruct (zip_collect_spec zone (def_value_ b) (def_value_ a) lb la ib ia)
    as (d' & l' & n0' & Hnew' & Hrun' & Hok'); [done..|].
  assert (l' = swap_values <$> l) as ->.
  { eapply zip_ok_unique; [done|]. by apply zip_ok_swap. }
  exists l, (n0 `max` n0')%nat. intros n Hn.
  unfold zip_elements, Zip_begin. rewrite Hba, Hbb.
  cbn [mbind option_bind]. rewrite Hnew, Hnew', !Zip_end_value.
  cbn [mbind option_bind]. split; [apply Hrun|apply Hrun']; (lia || done).
Qed.

(** ** Older handles after an allocation *)

Lemma deref_app zone ext it kv :
  deref zone it = Some kv → deref (zone ++ ext) it = Some kv.
Proof.
  unfold deref. destruct (current_ it) as [a|]; cbn [mbind option_bind]; [|done].
  destruct (zone !! a) as [t|] eqn:Ht; cbn [mbind option_bind]; [|done].
  by rewrite (lookup_app_l_Some _ ext _ _ Ht).
Qed.

Lemma GetChild_app zone ext tree level bit r :
  GetChild zone tree level bit = Some r →
  GetChild (zone ++ ext) tree level bit = Some r.
Proof.
  unfold GetChild.
  destruct (zone !! tree) as [t|] eqn:Ht; cbn [mbind option_bind]; [|done].
  by rewrite (lookup_app_l_Some _ ext _ _ Ht).
Qed.

Lemma FindLeftmost_app n zone ext start level path_in r :
  FindLeftmost n zone start level path_in = Some r →
  FindLeftmost n (zone ++ ext) start level path_in = Some r.
Proof.
  revert start level path_in.
  induction n as [|n IH]; intros start level path_in; cbn [FindLeftmost];
    (destruct start as [c|]; cbn [mbind option_bind]; [|done]);
    (destruct (zone !! c) as [t|] eqn:Ht; cbn [mbind option_bind]; [|done]);
    rewrite (lookup_app_l_Some _ ext _ _ Ht); cbn [mbind option_bind];
    (destruct (Z.of_nat level <? length t); [|done]); [done|].
  destruct (GetChild zone c level kLeft) as [l|] eqn:El;
    cbn [mbind option_bind]; [|done].
  destruct (GetChild zone c level kRight) as [rr|] eqn:Er;
    cbn [mbind option_bind]; [|done].
  rewrite (GetChild_app _ ext _ _ _ _ El), (GetChild_app _ ext _ _ _ _ Er).
  cbn [mbind option_bind]. destruct l, rr; try done; apply IH.
Qed.

Lemma incr_app n zone ext it it' :
  incr n zone it = Some it' → incr n (zone ++ ext) it = Some it'.
Proof.
  revert it. induction n as [|n IH]; intros it; [done|]. cbn [incr].
  destruct (current_ it) as [a|]; [|done].
  destruct (zone !! a) as [t|] eqn:Ht; cbn [mbind option_bind]; [|done].
  rewrite (lookup_app_l_Some _ ext _ _ Ht). cbn [mbind option_bind].
  match goal with
  | |- mbind _ ?e = _ → _ => destruct e as [[|]|]
  end; cbn [mbind option_bind]; [done| |done].
  destruct (level_ it) as [|level]; [done|].
  destruct (pop_levels (key_hash t) (path_ it) level) as [[level'|]|];
    cbn [mbind option_bind]; [|done|done].
  destruct (path_ it !! level') as [alternative|];
    cbn [mbind option_bind]; [|done].
  match goal with
  | |- mbind _ ?e = _ → _ => destruct e as [[[c l] p]|] eqn:EF
  end; cbn [mbind option_bind]; [|done].
  rewrite (FindLeftmost_app _ _ ext _ _ _ _ EF). cbn [mbind option_bind].
  destruct (zone !! c) as [t'|] eqn:Ht'; cbn [mbind option_bind]; [|done].
  rewrite (lookup_app_l_Some _ ext _ _ Ht'). cbn [mbind option_bind].
  match goal with
  | |- mbind _ ?e = _ → _ => destruct e as [kv|] eqn:Ed
  end; cbn [mbind option_bind]; [|done].
  rewrite (deref_app _ ext _ _ Ed). cbn [mbind option_bind].
  case_decide; [apply IH|done].
Qed.

Lemma iterator_eq_app zone ext a b r :
  iterator_eq zone a b = Some r → iterator_eq (zone ++ ext) a b = Some r.
Proof.
  unfold iterator_eq. destruct (is_end a); [done|]. destruct (is_end b); [done|].
  destruct (current_ a) as [ca|]; cbn [mbind option_bind]; [|done].
  destruct (zone !! ca) as [ta|] eqn:Hta; cbn [mbind option_bind]; [|done].
  rewrite (lookup_app_l_Some _ ext _ _ Hta). cbn [mbind option_bind].
  destruct (current_ b) as [cb|]; cbn [mbind option_bind]; [|done].
  destruct (zone !! cb) as [tb|] eqn:Htb; cbn [mbind option_bind]; [|done].
  rewrite (lookup_app_l_Some _ ext _ _ Htb). cbn [mbind option_bind].
  destruct (negb _); [done|].
  destruct (deref zone a) as [ka|] eqn:Hka; cbn [mbind option_bind]; [|done].
  destruct (deref zone b) as [kb|] eqn:Hkb; cbn [mbind option_bind]; [|done].
  by rewrite (deref_app _ ext _ _ Hka), (deref_app _ ext _ _ Hkb).
Qed.

Lemma collect_app n zone ext it last l :
  collect n zone it last = Some l → collect n (zone ++ ext) it last = Some l.
Proof.
  revert it l. induction n as [|n IH]; intros it l; cbn [collect];
    (destruct (iterator_eq zone it last) as [same|] eqn:Hsame;
       cbn [mbind option_bind]; [|done]);
    rewrite (iterator_eq_app _ ext _ _ _ Hsame); cbn [mbind option_bind];
    (destruct same; [done|]); [done|].
  destruct (deref zone it) as [kv|] eqn:Hkv; cbn [mbind option_bind]; [|done].
  rewrite (deref_app _ ext _ _ Hkv). cbn [mbind option_bind].
  destruct (incr (S n) zone it) as [it'|] eqn:Hincr;
    cbn [mbind option_bind]; [|done].
  rewrite (incr_app _ _ ext _ _ Hincr). cbn [mbind option_bind].
  destruct (collect n zone it' last) as [rest|] eqn:Hrest;
    cbn [mbind option_bind]; [|done].
  by rewrite (IH _ _ Hrest).
Qed.

Lemma begin_app zone ext m it :
  begin zone m = Some it → begin (zone ++ ext) m = Some it.
Proof.
  unfold begin. destruct (tree_ m) as [root|]; [|done].
  unfold iterator_begin.
  match goal with
  | |- mbind _ ?e = _ → _ => destruct e as [[[c l] p]|] eqn:EF
  end; cbn [mbind option_bind]; [|done].
  rewrite (FindLeftmost_app _ _ ext _ _ _ _ EF). cbn [mbind option_bind].
  destruct (zone !! c) as [t|] eqn:Ht; cbn [mbind option_bind]; [|done].
  by rewrite (lookup_app_l_Some _ ext _ _ Ht).
Qed.

Lemma elements_app n zone ext m l :
  elements n zone m = Some l → elements n (zone ++ ext) m = Some l.
Proof.
  unfold elements.
  destruct (begin zone m) as [it|] eqn:Hit; cbn [mbind option_bind]; [|done].
  rewrite (begin_app _ ext _ _ Hit). cbn [mbind option_bind].
  apply collect_app.
Qed.

(** Persistence of the iteration: an [Add] on a handle of the zone does
    not change what iterating over any handle [a] that was there before
    yields. *)
Theorem iteration_persistent zone maps a m key value :
  reachable zone maps → a ∈ maps → m ∈ maps →
  ∃ zone' m' l n0, Add zone m key value = Some (zone', m') ∧
    ∀ n, (n0 ≤ n)%nat →
      elements n zone a = Some l ∧ elements n zone' a = Some l.
Proof.
  intros [Hz Hm]%reachable_wf Ha Hin.
  destruct (Add_Get zone m key value Hz (Hm _ Hin))
    as (zone' & m' & HA & _ & _ & [ext ->] & _).
  destruct (begin_produces zone a Hz (Hm _ Ha))
    as (it & l & Hbegin & _ & Hprod & _).
  destruct (produces_collect zone it l (def_value_ a) Hprod) as [n0 Hn0].
  exists (zone ++ ext), m', l, n0. split; [done|]. intros n Hn.
  assert (elements n zone a = Some l) as Hel.
  { unfold elements. rewrite Hbegin. cbn [mbind option_bind]. by apply Hn0. }
  split; [done|]. by apply elements_app.
Qed.

(** Persistence of [operator==]: an [Add] on a handle of the zone does
    not change the result of comparing two handles that were there
    before. *)
Theorem equality_persistent zone maps a b m key value :
  reachable zone maps → a ∈ maps → b ∈ maps → m ∈ maps →
  ∃ zone' m' r n0, Add zone m key value = Some (zone', m') ∧
    ∀ n, (n0 ≤ n)%nat →
      map_equal n zone a b = Some r ∧ map_equal n zone' a b = Some r.
Proof.
  intros [Hz Hm]%reachable_wf Ha Hb Hin.
  destruct (Add_Get zone m key value Hz (Hm _ Hin))
    as (zone' & m' & HA & Hz' & _ & [ext ->] & _).
  destruct (map_equal_spec zone a b Hz (Hm _ Ha) (Hm _ Hb))
    as (r & n0 & Hrun & Hiff).
  destruct (map_equal_spec (zone ++ ext) a b Hz')
    as (r' & n0' & Hrun' & Hiff'); [by apply wf_map_app, Hm..|].
  exists (zone ++ ext), m', r, (n0 `max` n0')%nat. split; [done|].
  intros n Hn. rewrite Hrun, Hrun' by lia. split; [done|]. f_equal.
  apply eq_bool_prop_intro. rewrite !Is_true_true, Hiff, Hiff'.
  assert (∀ c key, c ∈ maps → Get (zone ++ ext) c key = Get zone c key)
    as Hsame.
  { intros c k Hc. destruct (Get_total zone c k Hz (Hm _ Hc)) as [v Hv].
    rewrite Hv. by apply Get_app. }
  split; (intros [Hroot|[Hdef Hget]]; [by left|right]); (split; [done|]);
    intros k.
  - rewrite <- !Hsame by done. apply Hget.
  - rewrite !Hsame by done. apply Hget.
Qed.

(** ** operator++ moves forward *)

Lemma iterator_of_sorted zone m it :
  wf_zone zone → wf_map zone m → iterator_of zone m it →
  StronglySorted entry_lt (it_all zone it).
Proof.
  intros Hz Hm Hit.
  assert (∃ skipped,
            entries_of zone (leaves_at zone (tree_ m) 0)
              = skipped ++ it_all zone it) as [skipped Hs].
  { induction Hit as [it Hbegin| |n it it' Hit [skipped IH] Hincr].
    - destruct (begin_spec zone m Hz Hm) as (it0 & Hb & _ & _ & Hall).
      rewrite Hbegin in Hb. injection Hb as <-. exists [].
      rewrite app_nil_l. by rewrite Hall.
    - exists (entries_of zone (leaves_at zone (tree_ m) 0)).
      change (it_all zone (end_ m)) with (@nil (Key * Value)).
      by rewrite app_nil_r.
    - destruct (iterator_of_ok zone m it Hz Hm Hit) as [Hok _].
      destruct (is_end it) eqn:Hend.
      + destruct n; [done|]. simpl in Hincr.
        unfold is_end in Hend. apply bool_decide_eq_true in Hend.
        rewrite Hend in Hincr. injection Hincr as <-. by exists skipped.
      + destruct (incr_spec (n `max` List.length (it_all zone it)) zone it
                    Hz Hok Hend ltac:(lia))
          as (it1 & skipped' & Hincr1 & _ & _ & Htail & _).
        rewrite (incr_mono n (n `max` List.length (it_all zone it)) zone it
                   it' Hincr ltac:(lia)) in Hincr1.
        injection Hincr1 as <-.
        destruct (it_all zone it) as [|e rest] eqn:Hall.
        * simpl in Htail. symmetry in Htail.
          apply app_eq_nil in Htail as [_ ->]. by exists skipped.
        * simpl in Htail. subst rest.
          exists (skipped ++ e :: skipped'). rewrite IH.
          by rewrite <- app_assoc. }
  assert (StronglySorted entry_lt
            (entries_of zone (leaves_at zone (tree_ m) 0))) as Hsorted.
  { apply entries_of_sorted; [done|]. by apply leaves_root_sorted. }
  rewrite Hs in Hsorted. by apply StronglySorted_app_1_r in Hsorted.
Qed.

(** [operator++] on an iterator of a map that is not at the end returns
    an iterator that is greater for [operator<]: the iterator at the end,
    or one at a pair that is later in the order of hash and key. *)
Theorem incr_moves_forward zone maps m it :
  reachable zone maps → m ∈ maps → iterator_of zone m it →
  is_end it = false →
  ∃ it' n0, (∀ n, (n0 ≤ n)%nat → incr n zone it = Some it') ∧
    iterator_of zone m it' ∧
    iterator_lt zone it it' = Some true ∧
    iterator_lt zone it' it = Some false ∧
    iterator_eq zone it it' = Some false.
Proof.
  intros [Hz Hm]%reachable_wf Hin Hit Hend. specialize (Hm _ Hin).
  destruct (iterator_of_ok zone m it Hz Hm Hit) as [Hok _].
  pose proof (iterator_of_sorted zone m it Hz Hm Hit) as Hsorted.
  destruct (it_produces zone it Hz Hok) as (l & Hp & Hsub & _).
  pose proof (StronglySorted_sublist _ _ _ Hsub Hsorted) as Hl.
  destruct l as [|kv l].
  { apply produces_nil_inv in Hp. congruence. }
  pose proof Hp as Hp0.
  apply produces_cons_inv in Hp as (_ & Hkv & _ & n0 & it' & Hincr & _ & Hp').
  exists it', n0. split; [done|].
  split; [by apply (iterator_of_incr zone m n0 it it' Hit), Hincr|].
  destruct l as [|kv' l].
  - apply produces_nil_inv in Hp'. unfold iterator_lt, iterator_eq.
    by rewrite Hend, Hp'.
  - destruct (iterator_compare_produces _ _ _ _ _ _ _ Hp0 Hp') as [Heq Hlt].
    destruct (iterator_compare_produces _ _ _ _ _ _ _ Hp' Hp0) as [_ Hgt].
    apply StronglySorted_inv in Hl as [_ Hall].
    apply Forall_cons in Hall as [Hlt' _].
    rewrite Hlt, Hgt, Heq. split_and!; f_equal.
    + by apply entry_ltb_spec.
    + destruct (entry_ltb kv' kv) eqn:E; [|done].
      apply entry_ltb_spec in E. destruct (entry_lt_asym _ _ Hlt' E).
    + apply bool_decide_eq_false. by apply entry_lt_irrefl.
Qed.

(** After an [Add] that changes the binding of the key, [last_depth] of
    the map returned is the length that [FindHash] reported for the key
    in the old map: the cast of the length to [int8_t] loses nothing. *)
Theorem last_depth_after_Add zone maps m key value :
  reachable zone maps → m ∈ maps → Get zone m key ≠ Some value →
  ∃ zone' m' old path_out len,
    Add zone m key value = Some (zone', m') ∧
    FindHash_path zone m (HashValue (Hasher key)) unwritten_path
      = Some (old, path_out, len) ∧
    last_depth zone' m' = Some (Z.of_nat len) ∧ (len ≤ 32)%nat.
Proof.
  intros [Hz Hm]%reachable_wf Hin Hne.
  destruct (Add_cases zone m key value Hz (Hm _ Hin))
    as (old & path' & len & cur & Hfp & Hlen & _ & _ & _ & Hget &
        [[-> _]|(_ & more & _ & HA)]); [done|].
  eexists _, _, old, path', len. split_and!; [exact HA|exact Hfp| |done].
  unfold last_depth. simpl. rewrite list_lookup_middle by done. simpl.
  by rewrite to_int8_small by lia.
Qed.

(** ** operator<< *)

Lemma string_app_assoc (s1 s2 s3 : string) :
  (s1 +:+ s2) +:+ s3 = s1 +:+ (s2 +:+ s3).
Proof.
  induction s1 as [|c s1 IH]; [reflexivity|].
  change (String c ((s1 +:+ s2) +:+ s3) = String c (s1 +:+ (s2 +:+ s3))).
  by rewrite IH.
Qed.

Lemma string_app_nil_r (s : string) : s +:+ "" = s.
Proof.
  induction s as [|c s IH]; [reflexivity|].
  change (String c (s +:+ "") = String c s). by rewrite IH.
Qed.

Lemma concat_cons_tail sep x l :
  String.concat sep (x :: l) = x +:+ concat_tail sep l.
Proof.
  revert x. induction l as [|y l IH]; intros x.
  - simpl. by rewrite string_app_nil_r.
  - change (String.concat sep (x :: y :: l))
      with (x +:+ sep +:+ String.concat sep (y :: l)).
    by rewrite IH.
Qed.

Lemma print_pairs_collect print_key print_value n zone last :
  ∀ it l, collect n zone it last = Some l →
  ∀ first os,
    print_pairs print_key print_value n zone it last first os =
      Some (os +:+
            (if first : bool
             then String.concat ", " (pair_text print_key print_value <$> l)
             else concat_tail ", " (pair_text print_key print_value <$> l))).
Proof.
  induction n as [|n IH]; intros it l; cbn [collect print_pairs];
    (destruct (iterator_eq zone it last) as [[]|];
       cbn [mbind option_bind]; [| |done]).
  - intros [= <-] [] os; simpl; by rewrite string_app_nil_r.
  - done.
  - intros [= <-] [] os; simpl; by rewrite string_app_nil_r.
  - destruct (deref zone it) as [kv|]; cbn [mbind option_bind]; [|done].
    destruct (incr (S n) zone it) as [it'|]; cbn [mbind option_bind]; [|done].
    destruct (collect n zone it' last) as [rest|] eqn:Hrest;
      cbn [mbind option_bind]; [|done].
    intros [= <-] first os. rewrite (IH _ _ Hrest). f_equal.
    rewrite fmap_cons. destruct first.
    + rewrite concat_cons_tail. unfold pair_text.
      by rewrite !string_app_assoc.
    + cbn [concat_tail foldr]. unfold pair_text.
      by rewrite !string_app_assoc.
Qed.

(** [os << map] appends to the stream an opening brace, the pairs that
    the iteration over the map yields, each as key, colon, space and
    value and separated by a comma and a space, and a closing brace. *)
Theorem print_map_lists_the_iteration zone maps m print_key print_value os :
  reachable zone maps → m ∈ maps →
  ∃ l n0, ∀ n, (n0 ≤ n)%nat →
    elements n zone m = Some l ∧
    print_map print_key print_value n zone os m =
      Some (os +:+ "{" +:+
            String.concat ", " (pair_text print_key print_value <$> l) +:+
            "}").
Proof.
  intros [Hz Hm]%reachable_wf Hin. specialize (Hm _ Hin).
  destruct (begin_produces zone m Hz Hm)
    as (it & l & Hbegin & _ & Hprod & _).
  destruct (produces_collect zone it l (def_value_ m) Hprod) as [n0 Hn0].
  exists l, n0. intros n Hn. unfold elements, print_map.
  rewrite Hbegin. cbn [mbind option_bind]. split; [by apply Hn0|].
  unfold end_. rewrite (print_pairs_collect _ _ _ _ _ _ _ (Hn0 n Hn)).
  cbn [mbind option_bind]. by rewrite !string_app_assoc.
Qed.

(** ** Insert, then iterate *)

(** After [Add(key, value)] with a value other than the default, the
    iteration over the map returned yields the pair of [key] and [value];
    and a pair of another key with a value other than the default is
    yielded exactly when the map before the [Add] binds the key to the
    value. *)
Theorem Add_then_iterate zone maps m key value :
  reachable zone maps → m ∈ maps → value ≠ def_value_ m →
  ∃ zone' m' l n0, Add zone m key value = Some (zone', m') ∧
    (∀ n, (n0 ≤ n)%nat → elements n zone' m' = Some l) ∧
    (key, value) ∈ l ∧
    ∀ key2 value2, key2 ≠ key → value2 ≠ def_value_ m →
      ((key2, value2) ∈ l ↔ Get zone m key2 = Some value2).
Proof.
  intros [Hz Hm]%reachable_wf Hin Hv. specialize (Hm _ Hin).
  destruct (Add_Get zone m key value Hz Hm)
    as (zone' & m' & HA & Hz' & Hm' & _ & Hd & Hk & Hother).
  destruct (begin_produces zone' m' Hz' Hm')
    as (it & l & Hbegin & _ & Hprod & _ & Hsound & Hcomplete).
  destruct (produces_collect zone' it l (def_value_ m') Hprod) as [n0 Hn0].
  exists zone', m', l, n0. split_and!; [done| | |].
  - intros n Hn. unfold elements. rewrite Hbegin. cbn [mbind option_bind].
    by apply Hn0.
  - apply Hcomplete; [done|]. by rewrite Hd.
  - intros key2 value2 Hne Hv2. split.
    + intros Hin2%Hsound.
      destruct (Get_total zone m key2 Hz Hm) as [v0 Hv0].
      rewrite (Hother key2 v0 Hne Hv0) in Hin2. congruence.
    + intros Hget. apply Hcomplete; [by apply Hother|]. by rewrite Hd.
Qed.

End PersistentMap.

(** ** Concrete runs: integer keys that are their own hash, default 0 *)

Module Examples.

Definition hash_id (k : Z) : Z := k.

Lemma Zltb_irrefl k : (k <? k) = false.
Proof. apply Z.ltb_irrefl. Qed.

Lemma Zltb_trans a b c : (a <? b) = true → (b <? c) = true → (a <? c) = true.
Proof. rewrite !Z.ltb_lt. lia. Qed.

Lemma Zltb_total a b : (a <? b) = false → (b <? a) = false → a = b.
Proof. rewrite !Z.ltb_ge. lia. Qed.

(** The empty map, the map after [Add(5, 1)], and the maps that
    [Add(7, 2)] and [Add(5, 0)] return on it. *)
Definition m0 : @PersistentMap Z := empty_map 0.

Definition n5 (value : Z) : @FocusedTree Z Z :=
  {| key_value := (5, value); length := 0; key_hash := 5; more := None;
     path_array := [] |}.

Definition n7 : @FocusedTree Z Z :=
  {| key_value := (7, 2); length := 31; key_hash := 7; more := None;
     path_array := replicate 30 None ++ [Some 0%nat] |}.

Definition z1 : list (@FocusedTree Z Z) := [n5 1].
Definition m1 : @PersistentMap Z := {| tree_ := Some 0%nat; def_value_ := 0 |}.

Definition z2 : list (@FocusedTree Z Z) := [n5 1; n7].
Definition m2 : @PersistentMap Z := {| tree_ := Some 1%nat; def_value_ := 0 |}.

Definition z3 : list (@FocusedTree Z Z) := [n5 1; n5 0].
Definition m3 : @PersistentMap Z := {| tree_ := Some 1%nat; def_value_ := 0 |}.

Lemma reachable1 : reachable hash_id Z.ltb z1 [m1; m0].
Proof.
  apply (reach_add hash_id Z.ltb [] [m0] m0 5 1).
  - apply reach_new, reach_init.
  - constructor.
  - reflexivity.
Qed.

Lemma reachable2 : reachable hash_id Z.ltb z2 [m2; m1; m0].
Proof.
  apply (reach_add hash_id Z.ltb z1 [m1; m0] m1 7 2).
  - apply reachable1.
  - constructor.
  - reflexivity.
Qed.

Lemma reachable3 : reachable hash_id Z.ltb z3 [m3; m1; m0].
Proof.
  apply (reach_add hash_id Z.ltb z1 [m1; m0] m1 5 0).
  - apply reachable1.
  - constructor.
  - reflexivity.
Qed.

Lemma Get_after_Add_witness :
  ∃ zone' m', Add hash_id Z.ltb z1 m1 7 2 = Some (zone', m') ∧
              Get hash_id Z.ltb zone' m' 7 = Some 2.
Proof.
  apply (Get_after_Add hash_id Z.ltb Zltb_irrefl Zltb_trans Zltb_total
           z1 [m1; m0]).
  - apply reachable1.
  - constructor.
Defined.

Lemma Add_persistent_witness :
  ∃ zone' m2', Add hash_id Z.ltb z1 m1 5 2 = Some (zone', m2') ∧
               Get hash_id Z.ltb zone' m1 5 = Some 1.
Proof.
  apply (Add_persistent hash_id Z.ltb Zltb_irrefl Zltb_trans Zltb_total
           z1 [m1; m0]).
  - apply reachable1.
  - constructor.
  - reflexivity.
  - lia.
Defined.

Lemma Add_same_value_same_root_witness :
  (Get hash_id Z.ltb z1 m1 5 = Some 1 →
   ∃ zone' m', Add hash_id Z.ltb z1 m1 5 1 = Some (zone', m') ∧
               tree_ m' = tree_ m1) ∧
  (∃ zone1 m1' zone2 m2',
     Add hash_id Z.ltb z1 m1 5 1 = Some (zone1, m1') ∧
     Add hash_id Z.ltb zone1 m1' 5 1 = Some (zone2, m2') ∧
     tree_ m2' = tree_ m1').
Proof.
  apply (Add_same_value_same_root hash_id Z.ltb Zltb_irrefl Zltb_trans
           Zltb_total z1 [m1; m0]).
  - apply reachable1.
  - constructor.
Defined.

Lemma Get_other_after_Add_witness :
  ∃ zone' m' v2, Add hash_id Z.ltb z1 m1 7 2 = Some (zone', m') ∧
                 Get hash_id Z.ltb z1 m1 5 = Some v2 ∧
                 Get hash_id Z.ltb zone' m' 5 = Some v2.
Proof.
  apply (Get_other_after_Add hash_id Z.ltb Zltb_irrefl Zltb_trans Zltb_total
           z1 [m1; m0]).
  - apply reachable1.
  - constructor.
  - lia.
Defined.

Lemma Add_preserves_structure_witness :
  ∃ n, z2 !! 1%nat = Some n ∧ 0 ≤ length n ≤ 32 ∧
    ∀ i c, Z.of_nat i < length n → path n i = Some (Some c) →
      ∃ cn, z2 !! c = Some cn ∧
            hash_bit (key_hash cn) i ≠ hash_bit (key_hash n) i.
Proof.
  apply (Add_preserves_structure hash_id Z.ltb Zltb_irrefl Zltb_trans
           Zltb_total z2 [m2; m1; m0] m2).
  - apply reachable2.
  - constructor.
  - constructor.
Defined.

Lemma iteration_strictly_increasing_witness :
  ∃ l n0, (∀ n, (n0 ≤ n)%nat → elements n z2 m2 = Some l) ∧
          StronglySorted (entry_lt hash_id Z.ltb) l.
Proof.
  apply (iteration_strictly_increasing hash_id Z.ltb Zltb_irrefl Zltb_trans
           Zltb_total z2 [m2; m1; m0]).
  - apply reachable2.
  - constructor.
Defined.

Lemma iteration_yields_bindings_witness :
  ∃ l n0, (∀ n, (n0 ≤ n)%nat → elements n z2 m2 = Some l) ∧
    NoDup l.*1 ∧
    (∀ key value, (key, value) ∈ l →
                  Get hash_id Z.ltb z2 m2 key = Some value) ∧
    (∀ key value, Get hash_id Z.ltb z2 m2 key = Some value →
                  value ≠ def_value_ m2 → (key, value) ∈ l).
Proof.
  apply (iteration_yields_bindings hash_id Z.ltb Zltb_irrefl Zltb_trans
           Zltb_total z2 [m2; m1; m0]).
  - apply reachable2.
  - constructor.
Defined.

Lemma zip_yields_bindings_witness :
  ∃ l n0, (∀ n, (n0 ≤ n)%nat → zip_elements Z.ltb n z2 m2 m1 = Some l) ∧
    StronglySorted (triple_lt hash_id Z.ltb) l ∧
    (∀ key va vb, (key, va, vb) ∈ l →
       Get hash_id Z.ltb z2 m2 key = Some va ∧
       Get hash_id Z.ltb z2 m1 key = Some vb) ∧
    (∀ key va vb, Get hash_id Z.ltb z2 m2 key = Some va →
       Get hash_id Z.ltb z2 m1 key = Some vb →
       va ≠ def_value_ m2 ∨ vb ≠ def_value_ m1 → (key, va, vb) ∈ l).
Proof.
  apply (zip_yields_bindings hash_id Z.ltb Zltb_irrefl Zltb_trans Zltb_total
           z2 [m2; m1; m0]).
  - apply reachable2.
  - constructor.
  - right. constructor.
Defined.

Lemma equality_coherence_witness :
  ∃ r n0, (∀ n, (n0 ≤ n)%nat → map_equal Z.ltb n z2 m2 m1 = Some r) ∧
    (r = true ↔
     tree_ m2 = tree_ m1 ∨
     (def_value_ m2 = def_value_ m1 ∧
      ∀ key, Get hash_id Z.ltb z2 m2 key = Get hash_id Z.ltb z2 m1 key)).
Proof.
  apply (equality_coherence hash_id Z.ltb Zltb_irrefl Zltb_trans Zltb_total
           z2 [m2; m1; m0]).
  - apply reachable2.
  - constructor.
  - right. constructor.
Defined.

Lemma incr_past_the_end_witness :
  incr 1 z2 (end_ m2) = Some (end_ m2) ∧
  iterator_eq z2 (end_ m2) (end_ m2) = Some true.
Proof. apply (incr_past_the_end 0 z2 (end_ m2) m2). reflexivity. Defined.

(** C3 as it is stated fails on two empty maps with different defaults:
    both roots are null, so [operator==] returns [true], while the
    defaults, and with them [Get] on every key, differ. *)
Lemma equality_ignores_default_on_same_root :
  reachable hash_id Z.ltb [] [empty_map 1; empty_map 0] ∧
  (∀ n, map_equal Z.ltb n [] (empty_map 0) (empty_map 1) = Some true) ∧
  ¬ (map_equal Z.ltb 0 [] (empty_map 0) (empty_map 1) = Some true ↔
     def_value_ (empty_map 0) = def_value_ (empty_map 1) ∧
     ∀ key, Get hash_id Z.ltb [] (empty_map 0) key =
            Get hash_id Z.ltb [] (empty_map 1) key).
Proof.
  split_and!.
  - apply reach_new, reach_new, reach_init.
  - intros n. reflexivity.
  - intros [Hequal _]. destruct (Hequal eq_refl) as [Hdef _].
    simpl in Hdef. lia.
Qed.

(** C4 at the failing input: after [Add(5, 1)] and [Add(5, 0)] key 5 is
    bound to the default 0, and the iteration over the map yields it,
    since [begin] does not skip a first pair with the default value. *)
Lemma begin_yields_default_value :
  reachable hash_id Z.ltb z3 [m3; m1; m0] ∧
  Get hash_id Z.ltb z3 m3 5 = Some (def_value_ m3) ∧
  ∀ n, elements (S n) z3 m3 = Some [(5, 0)].
Proof.
  split_and!; [apply reachable3|reflexivity|]. intros [|n]; reflexivity.
Qed.

(** C8 at the failing input: zipping the map of C4 with the empty map
    yields a triple for key 5, which has the default value on both
    sides. *)
Lemma zip_yields_default_values :
  reachable hash_id Z.ltb z3 [m3; m1; m0] ∧
  Get hash_id Z.ltb z3 m3 5 = Some (def_value_ m3) ∧
  Get hash_id Z.ltb z3 m0 5 = Some (def_value_ m0) ∧
  ∀ n, zip_elements Z.ltb (S n) z3 m3 m0 = Some [(5, 0, 0)].
Proof.
  split_and!; [apply reachable3|reflexivity|reflexivity|].
  intros [|n]; reflexivity.
Qed.

(** The map after [Add(5, 1)] and [Add(5 + 2^32, 3)]: the two keys have
    the same 32-bit hash and share a node. *)
Definition bucket5 : list (Z * Z) := [(5, 1); (4294967301, 3)].

Definition n5c : @FocusedTree Z Z :=
  {| key_value := (4294967301, 3); length := 0; key_hash := 5;
     more := Some bucket5; path_array := [] |}.

Definition z4 : list (@FocusedTree Z Z) := [n5 1; n5c].
Definition m4 : @PersistentMap Z := {| tree_ := Some 1%nat; def_value_ := 0 |}.

Lemma reachable4 : reachable hash_id Z.ltb z4 [m4; m1; m0].
Proof.
  apply (reach_add hash_id Z.ltb z1 [m1; m0] m1 4294967301 3).
  - apply reachable1.
  - constructor.
  - reflexivity.
Qed.

(** The iterators at the first pair of [m2] and of [m1]. *)
Definition it_m2 : @iterator Z := default (iterator_end 0) (begin z2 m2).
Definition it_m1 : @iterator Z := default (iterator_end 0) (begin z2 m1).

Lemma it_m2_of : iterator_of z2 m2 it_m2.
Proof. apply iterator_of_begin. reflexivity. Qed.

Lemma it_m1_of : iterator_of z2 m1 it_m1.
Proof. apply iterator_of_begin. reflexivity. Qed.

(** A printer for small numbers. *)
Definition print_Z (z : Z) : string :=
  match z with
  | 0 => "0" | 1 => "1" | 2 => "2" | 3 => "3" | 4 => "4"
  | 5 => "5" | 6 => "6" | 7 => "7" | 8 => "8" | 9 => "9"
  | _ => "?"
  end.

Lemma FindHash_versions_agree_witness :
  ∃ tree path_out len,
    FindHash_path z2 m2 (HashValue 7) (replicate 32 (Some 0%nat))
      = Some (tree, path_out, len) ∧
    FindHash z2 m2 (HashValue 7) = Some tree ∧
    (len ≤ 32)%nat ∧ List.length path_out = 32%nat ∧
    ∀ a, tree = Some a →
      ∃ t, z2 !! a = Some t ∧ key_hash t = HashValue 7.
Proof.
  apply (FindHash_versions_agree hash_id Z.ltb Zltb_irrefl Zltb_trans
           Zltb_total z2 [m2; m1; m0]).
  - apply reachable2.
  - constructor.
  - reflexivity.
Defined.

Lemma Add_allocates_one_node_witness :
  ∃ t, Add hash_id Z.ltb z1 m1 7 2 =
         Some (z1 ++ [t],
               {| tree_ := Some (List.length z1);
                  def_value_ := def_value_ m1 |}) ∧
    key_value t = (7, 2) ∧ key_hash t = HashValue (hash_id 7) ∧
    0 ≤ length t ≤ 32 ∧ length t = Z.of_nat (List.length (path_array t)) ∧
    ∀ m, m ∈ [m1; m0] → tree_ m ≠ Some (List.length z1).
Proof.
  apply (Add_allocates_one_node hash_id Z.ltb Zltb_irrefl Zltb_trans
           Zltb_total z1 [m1; m0]).
  - apply reachable1.
  - constructor.
  - vm_compute. discriminate.
Defined.

Lemma nodes_point_to_older_nodes_witness : (0 < 1)%nat.
Proof.
  apply (nodes_point_to_older_nodes hash_id Z.ltb Zltb_irrefl Zltb_trans
           Zltb_total z2 [m2; m1; m0] 1%nat n7 30%nat 0%nat).
  - apply reachable2.
  - reflexivity.
  - reflexivity.
Defined.

Lemma collision_buckets_hold_two_keys_witness :
  (2 ≤ List.length bucket5)%nat ∧ key_value n5c ∈ bucket5 ∧
  NoDup bucket5.*1 ∧
  ∀ kv, kv ∈ bucket5 → HashValue (hash_id kv.1) = key_hash n5c.
Proof.
  apply (collision_buckets_hold_two_keys hash_id Z.ltb Zltb_irrefl
           Zltb_trans Zltb_total z4 [m4; m1; m0] 1%nat n5c).
  - apply reachable4.
  - reflexivity.
  - reflexivity.
Defined.

Lemma last_depth_bounded_witness :
  ∃ depth, last_depth z2 m2 = Some depth ∧ 0 ≤ depth ≤ 32 ∧
           (tree_ m2 = None → depth = 0).
Proof.
  apply (last_depth_bounded hash_id Z.ltb Zltb_irrefl Zltb_trans Zltb_total
           z2 [m2; m1; m0]).
  - apply reachable2.
  - constructor.
Defined.

Lemma last_depth_after_Add_witness :
  ∃ zone' m' old path_out len,
    Add hash_id Z.ltb z1 m1 7 2 = Some (zone', m') ∧
    FindHash_path z1 m1 (HashValue (hash_id 7)) unwritten_path
      = Some (old, path_out, len) ∧
    last_depth zone' m' = Some (Z.of_nat len) ∧ (len ≤ 32)%nat.
Proof.
  apply (last_depth_after_Add hash_id Z.ltb Zltb_irrefl Zltb_trans
           Zltb_total z1 [m1; m0]).
  - apply reachable1.
  - constructor.
  - vm_compute. discriminate.
Defined.

Lemma Get_after_Set_all_witness :
  ∃ zone' m',
    Set_all hash_id Z.ltb z1 m1 [(7, 2); (5, 3); (7, 4)] = Some (zone', m') ∧
    ∀ key, ∃ v0, Get hash_id Z.ltb z1 m1 key = Some v0 ∧
      Get hash_id Z.ltb zone' m' key =
        Some (value_in (reverse [(7, 2); (5, 3); (7, 4)]) v0 key) ∧
      (tree_ m1 = None → v0 = def_value_ m1).
Proof.
  apply (Get_after_Set_all hash_id Z.ltb Zltb_irrefl Zltb_trans Zltb_total
           z1 [m1; m0]).
  - apply reachable1.
  - constructor.
Defined.

Lemma equality_with_one_default_witness :
  ∃ r n0, (∀ n, (n0 ≤ n)%nat → map_equal Z.ltb n z2 m2 m1 = Some r) ∧
    (r = true ↔
     ∀ key, Get hash_id Z.ltb z2 m2 key = Get hash_id Z.ltb z2 m1 key).
Proof.
  apply (equality_with_one_default hash_id Z.ltb Zltb_irrefl Zltb_trans
           Zltb_total z2 [m2; m1; m0]).
  - apply reachable2.
  - constructor.
  - right. constructor.
  - reflexivity.
Defined.

Lemma equality_symmetric_witness :
  ∃ r n0, ∀ n, (n0 ≤ n)%nat →
    map_equal Z.ltb n z2 m2 m1 = Some r ∧
    map_equal Z.ltb n z2 m1 m2 = Some r.
Proof.
  apply (equality_symmetric hash_id Z.ltb Zltb_irrefl Zltb_trans Zltb_total
           z2 [m2; m1; m0]).
  - apply reachable2.
  - constructor.
  - right. constructor.
Defined.

Lemma inequality_reports_difference_witness :
  ∃ r n0, (∀ n, (n0 ≤ n)%nat → map_not_equal Z.ltb n z2 m2 m1 = Some r) ∧
    (r = true →
       tree_ m2 ≠ tree_ m1 ∧
       (def_value_ m2 ≠ def_value_ m1 ∨
        ¬ ∀ key, Get hash_id Z.ltb z2 m2 key = Get hash_id Z.ltb z2 m1 key)) ∧
    (def_value_ m2 = def_value_ m1 →
     (∃ key, Get hash_id Z.ltb z2 m2 key ≠ Get hash_id Z.ltb z2 m1 key) →
     r = true).
Proof.
  apply (inequality_reports_difference hash_id Z.ltb Zltb_irrefl Zltb_trans
           Zltb_total z2 [m2; m1; m0]).
  - apply reachable2.
  - constructor.
  - right. constructor.
Defined.

Lemma Add_overwrite_witness :
  ∃ zone1 m1' zone2 m2' zone3 m3' n0,
    Add hash_id Z.ltb z1 m1 7 2 = Some (zone1, m1') ∧
    Add hash_id Z.ltb zone1 m1' 7 3 = Some (zone2, m2') ∧
    Add hash_id Z.ltb zone2 m1 7 3 = Some (zone3, m3') ∧
    ∀ n, (n0 ≤ n)%nat → map_equal Z.ltb n zone3 m2' m3' = Some true.
Proof.
  apply (Add_overwrite hash_id Z.ltb Zltb_irrefl Zltb_trans Zltb_total
           z1 [m1; m0]).
  - apply reachable1.
  - constructor.
Defined.

Lemma Add_commute_witness :
  ∃ zone1 m1' zone2 m2' zone3 m3' zone4 m4' n0,
    Add hash_id Z.ltb z1 m1 7 2 = Some (zone1, m1') ∧
    Add hash_id Z.ltb zone1 m1' 9 4 = Some (zone2, m2') ∧
    Add hash_id Z.ltb zone2 m1 9 4 = Some (zone3, m3') ∧
    Add hash_id Z.ltb zone3 m3' 7 2 = Some (zone4, m4') ∧
    ∀ n, (n0 ≤ n)%nat → map_equal Z.ltb n zone4 m2' m4' = Some true.
Proof.
  apply (Add_commute hash_id Z.ltb Zltb_irrefl Zltb_trans Zltb_total
           z1 [m1; m0]).
  - apply reachable1.
  - constructor.
  - lia.
Defined.

Lemma empty_map_is_empty_witness :
  Get hash_id Z.ltb z2 m0 5 = Some (def_value_ m0) ∧
  elements 3 z2 m0 = Some [] ∧
  zip_elements Z.ltb 3 z2 m0 (empty_map 1) = Some [].
Proof.
  apply (empty_map_is_empty hash_id Z.ltb z2 m0 (empty_map 1) 5 3%nat).
  - reflexivity.
  - reflexivity.
Defined.

Lemma iterator_order_trichotomy_witness :
  ∃ same less greater,
    iterator_eq z2 it_m2 it_m1 = Some same ∧
    iterator_lt Z.ltb z2 it_m2 it_m1 = Some less ∧
    iterator_lt Z.ltb z2 it_m1 it_m2 = Some greater ∧
    (same = true ∧ less = false ∧ greater = false ∨
     same = false ∧ less = true ∧ greater = false ∨
     same = false ∧ less = false ∧ greater = true).
Proof.
  apply (iterator_order_trichotomy hash_id Z.ltb Zltb_irrefl Zltb_trans
           Zltb_total z2 [m2; m1; m0] m2 m1).
  - apply reachable2.
  - constructor.
  - right. constructor.
  - apply it_m2_of.
  - apply it_m1_of.
Defined.

Lemma double_iterator_deref_defined_witness :
  ∃ d, double_iterator_new Z.ltb z2 it_m2 it_m1 = Some d ∧
    (first_current_ d = true ∨ second_current_ d = true) ∧
    (double_is_end d = false →
     ∃ key va vb, double_deref z2 d = Some (key, va, vb) ∧
       (if first_current_ d then deref z2 it_m2 = Some (key, va)
        else va = def_value_ m2) ∧
       (if second_current_ d then deref z2 it_m1 = Some (key, vb)
        else vb = def_value_ m1)).
Proof.
  apply (double_iterator_deref_defined hash_id Z.ltb Zltb_irrefl Zltb_trans
           Zltb_total z2 [m2; m1; m0]).
  - apply reachable2.
  - constructor.
  - right. constructor.
  - apply it_m2_of.
  - apply it_m1_of.
Defined.

Lemma incr_moves_forward_witness :
  ∃ it' n0, (∀ n, (n0 ≤ n)%nat → incr n z2 it_m2 = Some it') ∧
    iterator_of z2 m2 it' ∧
    iterator_lt Z.ltb z2 it_m2 it' = Some true ∧
    iterator_lt Z.ltb z2 it' it_m2 = Some false ∧
    iterator_eq z2 it_m2 it' = Some false.
Proof.
  apply (incr_moves_forward hash_id Z.ltb Zltb_irrefl Zltb_trans Zltb_total
           z2 [m2; m1; m0]).
  - apply reachable2.
  - constructor.
  - apply it_m2_of.
  - reflexivity.
Defined.

Lemma Zip_symmetric_witness :
  ∃ l n0, ∀ n, (n0 ≤ n)%nat →
    zip_elements Z.ltb n z2 m2 m1 = Some l ∧
    zip_elements Z.ltb n z2 m1 m2 = Some (swap_values <$> l).
Proof.
  apply (Zip_symmetric hash_id Z.ltb Zltb_irrefl Zltb_trans Zltb_total
           z2 [m2; m1; m0]).
  - apply reachable2.
  - constructor.
  - right. constructor.
Defined.

Lemma iteration_persistent_witness :
  ∃ zone' m' l n0, Add hash_id Z.ltb z2 m2 9 4 = Some (zone', m') ∧
    ∀ n, (n0 ≤ n)%nat →
      elements n z2 m1 = Some l ∧ elements n zone' m1 = Some l.
Proof.
  apply (iteration_persistent hash_id Z.ltb Zltb_irrefl Zltb_trans
           Zltb_total z2 [m2; m1; m0]).
  - apply reachable2.
  - right. constructor.
  - constructor.
Defined.

Lemma equality_persistent_witness :
  ∃ zone' m' r n0, Add hash_id Z.ltb z2 m2 9 4 = Some (zone', m') ∧
    ∀ n, (n0 ≤ n)%nat →
      map_equal Z.ltb n z2 m2 m1 = Some r ∧
      map_equal Z.ltb n zone' m2 m1 = Some r.
Proof.
  apply (equality_persistent hash_id Z.ltb Zltb_irrefl Zltb_trans
           Zltb_total z2 [m2; m1; m0]).
  - apply reachable2.
  - constructor.
  - right. constructor.
  - constructor.
Defined.

Lemma Add_then_iterate_witness :
  ∃ zone' m' l n0, Add hash_id Z.ltb z1 m1 7 2 = Some (zone', m') ∧
    (∀ n, (n0 ≤ n)%nat → elements n zone' m' = Some l) ∧
    (7, 2) ∈ l ∧
    ∀ key2 value2, key2 ≠ 7 → value2 ≠ def_value_ m1 →
      ((key2, value2) ∈ l ↔ Get hash_id Z.ltb z1 m1 key2 = Some value2).
Proof.
  apply (Add_then_iterate hash_id Z.ltb Zltb_irrefl Zltb_trans Zltb_total
           z1 [m1; m0]).
  - apply reachable1.
  - constructor.
  - simpl. lia.
Defined.

Lemma print_map_lists_the_iteration_witness :
  ∃ l n0, ∀ n, (n0 ≤ n)%nat →
    elements n z2 m2 = Some l ∧
    print_map print_Z print_Z n z2 "m = " m2 =
      Some ("m = " +:+ "{" +:+
            String.concat ", " (pair_text print_Z print_Z <$> l) +:+ "}").
Proof.
  apply (print_map_lists_the_iteration hash_id Z.ltb Zltb_irrefl Zltb_trans
           Zltb_total z2 [m2; m1; m0]).
  - apply reachable2.
  - constructor.
Defined.

End Examples.
